(** * Viscum agent runtime: tool-call reconciliation, tool execution,
      the agent loop and the streaming route

    Shallow embedding of
    - [ToolCallProcessor] (agent/components/tool-call-processor.ts; the same
      filtering pass is inlined in [createMainAgentNode] of agent/nodes.ts),
    - [ToolExecutor.executeTools] and the older [subAgent] node,
    - [Node] (server/planning/node.ts) and [AgentWorkflow.buildWorkflow],
    - [ChatManager.processUserInput] and the SSE route of the web app.

    JavaScript objects are compared by identity in the source
    ([Array.prototype.includes] on message objects), so messages live in a
    heap and histories are lists of heap locations. *)

From Stdlib Require Import ZArith Ascii.
From stdpp Require Import base option list strings gmap.

Set Warnings "-register-all".

Local Open Scope Z_scope.
Local Open Scope string_scope.
Local Open Scope list_scope.
Local Open Scope stdpp_scope.

(** ** JavaScript values *)

(** The fragment of JavaScript values that flows through the agent: tool
    arguments, tool results, message contents and log metadata.  Numbers are
    the integers; nothing below does arithmetic on them. *)
Inductive JsValue : Type :=
  | JUndefined
  | JNull
  | JBool (b : bool)
  | JNum (n : Z)
  | JStr (s : string)
  | JArr (items : list JsValue)
  | JObj (fields : list (string * JsValue)).

(** [if (s)] on a string: the empty string is falsy. *)
Definition truthy_str (s : string) : bool := negb (String.eqb s EmptyString).

(** [if (v)] on a value. Arrays and objects are always truthy. *)
Definition truthy (v : JsValue) : bool :=
  match v with
  | JUndefined | JNull => false
  | JBool b => b
  | JNum n => negb (n =? 0)%Z
  | JStr s => truthy_str s
  | JArr _ | JObj _ => true
  end.

(** What a [throw] carries: an [Error] object (only its message is read) or
    any other value. *)
Inductive Thrown : Type :=
  | ErrorObject (message : string)
  | ThrownValue (v : JsValue).

(** Built-ins of the platform that the source calls but does not define. *)
Record Platform : Type := {
  (** [JSON.stringify(v, null, 2)]: a string, or [undefined]. *)
  JSON_stringify : JsValue -> JsValue;
  (** [JSON.parse(s)]: a value, or a thrown [SyntaxError]. *)
  JSON_parse : string -> Thrown + JsValue;
  (** [String(v)]. *)
  String_of : JsValue -> string;
  (** logger.ts [formatMeta] applied to the merged metadata of a log call;
      it only decorates the text of the error that [logger.error] throws. *)
  formatMeta : list JsValue -> string
}.

(** ** Messages *)

(** An entry of [AIMessage.tool_calls]; LangChain types [id] as optional. *)
Record ToolCallRequest : Type := {
  tc_id : option string;
  tc_name : string;
  tc_args : JsValue
}.

(** [ToolCall] and [ToolResult] of agent/components/types.ts. *)
Record ToolCall : Type := { call_name : string; call_args : JsValue }.
Record ToolResult : Type := { result_name : string; result : JsValue }.

Inductive BaseMessage : Type :=
  | SystemMessage (content : JsValue)
  | HumanMessage (content : JsValue)
  | AIMessage (content : JsValue) (tool_calls : option (list ToolCallRequest))
  | ToolMessage (content : JsValue) (tool_call_id : string).

Definition content_of (m : BaseMessage) : JsValue :=
  match m with
  | SystemMessage c | HumanMessage c | AIMessage c _ | ToolMessage c _ => c
  end.

(** [!tc.id] fails: the id is present and not the empty string. *)
Definition usable_id (tc : ToolCallRequest) : option string :=
  match tc_id tc with
  | Some id => if truthy_str id then Some id else None
  | None => None
  end.

(** ** Heap, log and the effect monad *)

Definition loc := nat.
Definition heap := list BaseMessage.

Inductive LogLevel : Type := error | warn | info | debug.

(** One call to the logger: level, message text and the metadata arguments. *)
Record LogEntry : Type := {
  level : LogLevel;
  message : string;
  meta : list JsValue
}.

(** The repository holds two generations of utils/logger.ts.  In the first
    [logger.error] forwards to winston and returns; in the later ones it is
    typed [never] and throws [new Error(buildErrorMessage(...))] after
    logging. *)
Inductive LoggerVersion : Type := WinstonPassThrough | ThrowOnError.

(** How a computation ends: normally with a value, or by a [throw]. *)
Inductive Completion (A : Type) : Type :=
  | Normal (a : A)
  | Abrupt (e : Thrown).
Arguments Normal {A} a.
Arguments Abrupt {A} e.

Section Effects.
Context {World : Type}.

(** [World] is whatever the model capability and the tools read and
    write outside the process. *)
Record State : Type := {
  st_heap : heap;
  st_logs : list LogEntry;
  st_world : World
}.

Definition M (A : Type) : Type := State -> Completion A * State.

Definition ret {A} (a : A) : M A := fun st => (Normal a, st).

Definition bind {A B} (m : M A) (k : A -> M B) : M B :=
  fun st =>
    match m st with
    | (Normal a, st') => k a st'
    | (Abrupt e, st') => (Abrupt e, st')
    end.

Definition throw {A} (e : Thrown) : M A := fun st => (Abrupt e, st).

(** [try { body } catch (error) { handler }] *)
Definition try_catch {A} (body : M A) (handler : Thrown -> M A) : M A :=
  fun st =>
    match body st with
    | (Normal a, st') => (Normal a, st')
    | (Abrupt e, st') => handler e st'
    end.

Definition get_heap : M heap := fun st => (Normal (st_heap st), st).

(** [new SomeMessage(...)]: the new object gets the next free location. *)
Definition alloc (m : BaseMessage) : M loc :=
  fun st =>
    (Normal (length (st_heap st)),
     {| st_heap := st_heap st ++ [m];
        st_logs := st_logs st;
        st_world := st_world st |}).

Definition write_log (e : LogEntry) : M unit :=
  fun st =>
    (Normal tt,
     {| st_heap := st_heap st;
        st_logs := st_logs st ++ [e];
        st_world := st_world st |}).

(** An action on the outside world (a tool run, a model call). *)
Definition on_world {A} (f : World -> A * World) : M A :=
  fun st =>
    let '(a, w) := f (st_world st) in
    (Normal a,
     {| st_heap := st_heap st; st_logs := st_logs st; st_world := w |}).
End Effects.

Arguments State World : clear implicits.
Arguments M World A : clear implicits.

Notation "'let!' x := m 'in' k" := (bind m (fun x => k))
  (at level 10, x pattern, m at level 100, k at level 200).
Notation "m ;; k" := (bind m (fun _ => k))
  (at level 100, k at level 200, right associativity).

(** ** utils/logger.ts *)

(** Every call to the logger is recorded, whatever the configured level.
    Warnings and errors keep their text and metadata; for info and debug
    entries the interpolated details and bulky metadata are left out. *)

Section Logger.
Context {World : Type} (P : Platform) (lg : LoggerVersion).

Definition logger_warn (msg : string) (meta : list JsValue) : M World unit :=
  write_log {| level := warn; message := msg; meta := meta |}.

Definition logger_info (msg : string) (meta : list JsValue) : M World unit :=
  write_log {| level := info; message := msg; meta := meta |}.

Definition logger_debug (msg : string) (meta : list JsValue) : M World unit :=
  write_log {| level := debug; message := msg; meta := meta |}.

(** [buildErrorMessage]: the message followed by the formatted metadata. *)
Definition buildErrorMessage (msg : string) (meta : list JsValue) : string :=
  msg +:+ formatMeta P meta.

(** [logger.error]: logs, then (in the later logger) throws. *)
Definition logger_error (msg : string) (meta : list JsValue) : M World unit :=
  write_log {| level := error; message := msg; meta := meta |} ;;
  match lg with
  | WinstonPassThrough => ret tt
  | ThrowOnError => throw (ErrorObject (buildErrorMessage msg meta))
  end.
End Logger.

(** ** agent/components/tool-call-processor.ts *)

(** [msg instanceof AIMessage && msg.tool_calls && msg.tool_calls.length > 0] *)
Definition has_tool_calls (m : BaseMessage) : bool :=
  match m with
  | AIMessage _ (Some (_ :: _)) => true
  | _ => false
  end.

(** The same test on a reference. *)
Definition carries_requests (h : heap) (msg : loc) : bool :=
  match h !! msg with
  | Some m => has_tool_calls m
  | None => false
  end.

(** [processedMessages.includes(msg)]: identity of objects. *)
Definition includes (l : list loc) (x : loc) : bool := bool_decide (x ∈ l).

(** The result of [validateToolCalls]. *)
Record Validation : Type := {
  isValid : bool;
  missingToolCallIds : list string
}.

(** [Set.prototype.add] on a set that is later iterated in insertion order. *)
Definition ordered_add (id : string) (ids : list string) : list string :=
  if bool_decide (id ∈ ids) then ids else ids ++ [id].

Section ToolCallProcessor.
Context {World : Type} (P : Platform) (lg : LoggerVersion).

(** The serialisation of a tool result into message content. *)
Definition resultContent (r : JsValue) : JsValue :=
  match r with
  | JStr s => JStr s
  | v => JSON_stringify P v
  end.

(** The body of [toolResults.forEach((toolResult, index) => ...)]. *)
Fixpoint createToolMessages_forEach (calls : list ToolCallRequest)
    (index : nat) (toolResults : list ToolResult) (toolMessages : list loc)
    : M World (list loc) :=
  match toolResults with
  | [] => ret toolMessages
  | toolResult :: rest =>
      match calls !! index ≫= usable_id with
      | None =>
          logger_warn "工具结果没有对应的 tool_call_id"
            [JObj [("index", JNum (Z.of_nat index));
                   ("toolResultName", JStr (result_name toolResult))]] ;;
          createToolMessages_forEach calls (S index) rest toolMessages
      | Some id =>
          let! toolMessage :=
            alloc (ToolMessage (resultContent (result toolResult)) id) in
          createToolMessages_forEach calls (S index) rest
            (toolMessages ++ [toolMessage])
      end
  end.

Definition createToolMessages (toolResults : list ToolResult)
    (lastAIMessageWithTools : option loc) : M World (list loc) :=
  let! h := get_heap in
  match lastAIMessageWithTools ≫= (h !!.) with
  | Some (AIMessage _ (Some calls)) =>
      createToolMessages_forEach calls 0 toolResults []
  | _ => ret []
  end.

(** The loop runs from the last index down to 0. *)
Definition findLastAIMessageWithTools (h : heap) (messages : list loc)
    : option loc :=
  List.find (carries_requests h) (reverse messages).

(** First pass of [processMessages]: [toolMessageMap.set(id, msg)] for
    every [ToolMessage] with a non-empty id; a later message with the
    same id replaces the earlier one. *)
Definition collectToolMessages (h : heap) (msgs : list loc)
    (toolMessageMap : gmap string loc) : gmap string loc :=
  foldl (fun m msg =>
           match h !! msg with
           | Some (ToolMessage _ id) =>
               if truthy_str id then <[id := msg]> m else m
           | _ => m
           end)
        toolMessageMap msgs.

(** [msg.tool_calls.every(tc => tc.id && toolMessageMap.has(tc.id))] *)
Definition allToolCallsHaveResponses (toolMessageMap : gmap string loc)
    (calls : list ToolCallRequest) : bool :=
  forallb (fun tc =>
             match usable_id tc with
             | Some id => bool_decide (is_Some (toolMessageMap !! id))
             | None => false
             end)
          calls.

(** [msg.tool_calls.forEach(tc => ...)] pushing the answers of an admitted
    assistant message, each object at most once. *)
Definition pushToolMessages (toolMessageMap : gmap string loc)
    (calls : list ToolCallRequest) (processedMessages : list loc)
    : list loc :=
  foldl (fun processed tc =>
           match usable_id tc ≫= (toolMessageMap !!.) with
           | Some toolMsg =>
               if includes processed toolMsg then processed
               else processed ++ [toolMsg]
           | None => processed
           end)
        processedMessages calls.

(** [.map(tc => tc.id).filter(id => id && !toolMessageMap.has(id))] *)
Definition missingIds (toolMessageMap : gmap string loc)
    (calls : list ToolCallRequest) : list string :=
  omap (fun tc =>
          match usable_id tc with
          | Some id =>
              if bool_decide (is_Some (toolMessageMap !! id)) then None
              else Some id
          | None => None
          end)
       calls.

(** One iteration of the second loop of [processMessages]. *)
Definition processMessages_step (h : heap) (toolMessageMap : gmap string loc)
    (hasToolResults hasPendingToolCalls : bool)
    (msg : loc) (processedMessages : list loc) : M World (list loc) :=
  match h !! msg with
  | Some (AIMessage _ (Some (tc :: tcs))) =>
      let calls := tc :: tcs in
      if allToolCallsHaveResponses toolMessageMap calls then
        ret (pushToolMessages toolMessageMap calls (processedMessages ++ [msg]))
      else
        let meta :=
          [JObj [("missingToolCallIds",
                  JArr (JStr <$> missingIds toolMessageMap calls))]] in
        (if hasToolResults || hasPendingToolCalls then
           logger_warn "跳过包含未完成 tool_calls 的 AIMessage" meta
         else
           logger_error P lg
             "发现未完成的 tool_calls，且没有待处理的工具结果" meta) ;;
        ret processedMessages
  | Some (ToolMessage _ id) =>
      if truthy_str id then
        ret (if includes processedMessages msg then processedMessages
             else processedMessages ++ [msg])
      else ret (processedMessages ++ [msg])
  | _ => ret (processedMessages ++ [msg])
  end.

(** [for (const msg of messages) { ... }] threading [processedMessages]. *)
Fixpoint processMessages_loop (h : heap) (toolMessageMap : gmap string loc)
    (hasToolResults hasPendingToolCalls : bool)
    (messages : list loc) (processedMessages : list loc)
    : M World (list loc) :=
  match messages with
  | [] => ret processedMessages
  | msg :: rest =>
      let! processed :=
        processMessages_step h toolMessageMap hasToolResults
          hasPendingToolCalls msg processedMessages in
      processMessages_loop h toolMessageMap hasToolResults
        hasPendingToolCalls rest processed
  end.

Definition processMessages (messages newToolMessages : list loc)
    (hasToolResults hasPendingToolCalls : bool) : M World (list loc) :=
  let! h := get_heap in
  let toolMessageMap :=
    collectToolMessages h newToolMessages (collectToolMessages h messages ∅) in
  processMessages_loop h toolMessageMap hasToolResults hasPendingToolCalls
    messages [].

(** [msg.tool_calls.forEach(tc => { if (tc.id) toolCallIds.add(tc.id) })] *)
Definition addToolCallIds (calls : list ToolCallRequest)
    (toolCallIds : list string) : list string :=
  foldl (fun ids tc =>
           match usable_id tc with
           | Some id => ordered_add id ids
           | None => ids
           end)
        toolCallIds calls.

(** The first loop of [validateToolCalls], filling [toolCallIds] (iterated
    later, so kept in insertion order) and [toolMessageIds]. *)
Definition collectIds (h : heap) (messages : list loc)
    (sets : list string * gset string) : list string * gset string :=
  foldl (fun '(toolCallIds, toolMessageIds) msg =>
           (match h !! msg with
            | Some (AIMessage _ (Some calls)) =>
                addToolCallIds calls toolCallIds
            | _ => toolCallIds
            end,
            match h !! msg with
            | Some (ToolMessage _ id) =>
                if truthy_str id then {[id]} ∪ toolMessageIds
                else toolMessageIds
            | _ => toolMessageIds
            end))
        sets messages.

(** [validateToolCalls]: the ids requested by assistant messages, in
    first-seen order, that no [ToolMessage] of the list answers. *)
Definition validateToolCalls (h : heap) (messages : list loc) : Validation :=
  let sets := collectIds h messages ([], ∅) in
  let missing := filter (fun id => id ∉ sets.2) sets.1 in
  {| isValid := bool_decide (missing = []);
     missingToolCallIds := missing |}.
End ToolCallProcessor.

(** ** skills/tool.ts and agent/components/tool-executor.ts *)

(** A registered tool. [execute] is asynchronous in the source and may touch
    the outside world; it resolves with a value or rejects. *)
Record Tool {World : Type} : Type := {
  tool_name : string;
  description : string;
  execute : JsValue -> World -> (Thrown + JsValue) * World
}.
Arguments Tool World : clear implicits.

(** The double-quote character. *)
Definition dquote : string := String "034"%char EmptyString.

(** The caught [error] as it is handed to the logger as metadata. *)
Definition thrown_as_value (e : Thrown) : JsValue :=
  match e with
  | ErrorObject m => JObj [("message", JStr m)]
  | ThrownValue v => v
  end.

Section ToolExecutor.
Context {World : Type} (P : Platform) (lg : LoggerVersion).

(** [ToolRegistry.register]: [this.tools.set(tool.name, tool)]. *)
Definition register (tool : Tool World) (tools : gmap string (Tool World))
    : M World (gmap string (Tool World)) :=
  (if bool_decide (is_Some (tools !! tool_name tool)) then
     logger_warn ("Tool " +:+ dquote +:+ tool_name tool +:+ dquote
                  +:+ " 已存在，将被覆盖") []
   else ret tt) ;;
  logger_debug ("已注册 Tool: " +:+ tool_name tool) [] ;;
  ret (<[tool_name tool := tool]> tools).

Variable toolRegistry : gmap string (Tool World).

(** [await tool.execute(args)] *)
Definition await_execute (tool : Tool World) (args : JsValue)
    : M World JsValue :=
  let! r := on_world (execute tool args) in
  match r with
  | inl e => throw e
  | inr v => ret v
  end.

(** [error instanceof Error ? error.message : String(error)] *)
Definition error_text (e : Thrown) : string :=
  match e with
  | ErrorObject m => m
  | ThrownValue v => String_of P v
  end.

(** The [catch (error) { ... }] block shared by both executors. *)
Definition record_failure (toolCall : ToolCall)
    (toolResults : list ToolResult) (e : Thrown)
    : M World (list ToolResult) :=
  logger_error P lg ("执行 Tool 失败: " +:+ call_name toolCall)
    [JObj [("error", thrown_as_value e)]] ;;
  ret (toolResults ++
       [{| result_name := call_name toolCall;
           result := JObj [("error", JStr (error_text e))] |}]).

(** [for (const toolCall of toolCalls) { try { ... } catch { ... } }] of
    [ToolExecutor.executeTools]. *)
Fixpoint executeTools_loop (toolCalls : list ToolCall)
    (toolResults : list ToolResult) : M World (list ToolResult) :=
  match toolCalls with
  | [] => ret toolResults
  | toolCall :: rest =>
      let! toolResults' :=
        try_catch
          (match toolRegistry !! call_name toolCall with
           | None =>
               logger_error P lg ("未找到 Tool: " +:+ call_name toolCall) [] ;;
               ret toolResults (* continue *)
           | Some tool =>
               logger_info ("执行 Tool: " +:+ call_name toolCall)
                 [JObj [("args", call_args toolCall)]] ;;
               let! result := await_execute tool (call_args toolCall) in
               ret (toolResults ++
                    [{| result_name := call_name toolCall;
                        result := result |}])
           end)
          (record_failure toolCall toolResults) in
      executeTools_loop rest toolResults'
  end.

Definition executeTools (toolCalls : list ToolCall)
    : M World (list ToolResult) :=
  logger_info "执行工具调用"
    [JObj [("toolCount", JNum (Z.of_nat (length toolCalls)))]] ;;
  executeTools_loop toolCalls [].

(** The loop of the older [subAgent] node (agent/nodes.ts).  A missing
    tool is only logged; [tool!.execute] on [undefined] then raises a
    [TypeError]. *)
Fixpoint subAgent_loop (toolCalls : list ToolCall)
    (toolResults : list ToolResult) : M World (list ToolResult) :=
  match toolCalls with
  | [] => ret toolResults
  | toolCall :: rest =>
      let! toolResults' :=
        try_catch
          (let tool := toolRegistry !! call_name toolCall in
           (match tool with
            | None =>
                logger_error P lg ("未找到 Tool: " +:+ call_name toolCall) []
            | Some _ => ret tt
            end) ;;
           logger_info ("执行 Tool: " +:+ call_name toolCall)
             [JObj [("args", call_args toolCall)]] ;;
           let! result :=
             match tool with
             | Some t => await_execute t (call_args toolCall)
             | None =>
                 throw (ErrorObject
                   "Cannot read properties of undefined (reading 'execute')")
             end in
           ret (toolResults ++
                [{| result_name := call_name toolCall; result := result |}]))
          (record_failure toolCall toolResults) in
      subAgent_loop rest toolResults'
  end.
End ToolExecutor.

(** ** skills/skill.ts *)

(** What [SkillRegistry.register] reads of a skill. *)
Record Skill {World : Type} : Type := {
  skill_name : string;
  skill_tools : list (Tool World)
}.
Arguments Skill World : clear implicits.

(** [for (const tool of skill.tools) { toolRegistry.register(tool) }] *)
Fixpoint register_tools {World : Type} (tools : list (Tool World))
    (registry : gmap string (Tool World))
    : M World (gmap string (Tool World)) :=
  match tools with
  | [] => ret registry
  | tool :: rest =>
      let! registry' := register tool registry in
      register_tools rest registry'
  end.

(** [SkillRegistry.register], on the registry of skills and the registry of
    tools. *)
Definition SkillRegistry_register {World : Type} (skill : Skill World)
    (skills : gmap string (Skill World))
    (registry : gmap string (Tool World))
    : M World (gmap string (Skill World) * gmap string (Tool World)) :=
  let skills' := <[skill_name skill := skill]> skills in
  let! registry' := register_tools (skill_tools skill) registry in
  logger_info ("已注册技能: " +:+ skill_name skill) [] ;;
  ret (skills', registry').

(** ** agent/state.ts, agent/components/reducers.ts *)

Record AgentState : Type := {
  messages : list loc;
  toolCalls : list ToolCall;
  toolResults : list ToolResult
}.

(** A [Partial<typeof AgentState.State>] returned by a node: [None] is an
    absent key. *)
Record PartialState : Type := {
  upd_messages : option (list loc);
  upd_toolCalls : option (list ToolCall);
  upd_toolResults : option (list ToolResult)
}.

Definition replaceReducer {T} (x : T) (y : option T) : T :=
  match y with
  | Some y' => y'
  | None => x
  end.

Definition messagesReducer (x y : list loc) : list loc := x ++ y.

(** How LangGraph folds a node's update into the state: each key present in
    the update goes through the reducer of its channel. *)
Definition apply_update (state : AgentState) (update : PartialState)
    : AgentState :=
  {| messages :=
       match upd_messages update with
       | Some y => messagesReducer (messages state) y
       | None => messages state
       end;
     toolCalls := replaceReducer (toolCalls state) (upd_toolCalls update);
     toolResults := replaceReducer (toolResults state) (upd_toolResults update) |}.

(** [xs && xs.length > 0] *)
Definition nonempty {A} (xs : list A) : bool :=
  match xs with
  | [] => false
  | _ :: _ => true
  end.

(** ** server/planning/node.ts *)

(** The model capability: given the outgoing messages it resolves with a
    response message or rejects.  The tool definitions bound to it are part
    of what the oracle stands for. *)
Definition LLM (World : Type) : Type :=
  list BaseMessage -> World -> (Thrown + BaseMessage) * World.

Definition is_SystemMessage (m : BaseMessage) : bool :=
  match m with
  | SystemMessage _ => true
  | _ => false
  end.

(** The objects behind a list of references. *)
Definition deref (h : heap) (ls : list loc) : list BaseMessage :=
  omap (h !!.) ls.

Section Node.
Context {World : Type} (P : Platform) (lg : LoggerVersion).
Variable llm : LLM World.
Variable toolRegistry : gmap string (Tool World).
(** [this.systemPrompt = this.environment.getAgentPrompt()] *)
Variable systemPrompt : option string.

Definition getMessageList (msgs : list loc) (state : AgentState)
    : M World (list loc) :=
  let! h := get_heap in
  let hasSystemMessage := existsb is_SystemMessage (deref h msgs) in
  let! allMessages :=
    match systemPrompt with
    | Some prompt =>
        if negb hasSystemMessage && truthy_str prompt then
          let! s := alloc (SystemMessage (JStr prompt)) in ret [s]
        else ret []
    | None => ret []
    end in
  let lastAIMessageWithTools := findLastAIMessageWithTools h msgs in
  let! newToolMessages :=
    createToolMessages P (toolResults state) lastAIMessageWithTools in
  let hasToolResults := nonempty (toolResults state) in
  let hasPendingToolCalls := nonempty (toolCalls state) in
  let! finalMessages :=
    processMessages P lg msgs newToolMessages hasToolResults
      hasPendingToolCalls in
  let resultMessages :=
    if negb hasSystemMessage && nonempty allMessages
    then allMessages ++ finalMessages
    else finalMessages in
  logger_info "发送给 LLM 的完整 Prompt" [] ;;
  ret resultMessages.

(** Validates the outgoing list, then binds the tool definitions. The
    bound model is the oracle [llm]; only the effects are modelled. *)
Definition getLLMWithTools (msgs : list loc) (state : AgentState)
    : M World unit :=
  let! h := get_heap in
  let validation := validateToolCalls h msgs in
  (if isValid validation then ret tt
   else
     let missing := JArr (JStr <$> missingToolCallIds validation) in
     if negb (nonempty (toolResults state)) then
       logger_error P lg "发现未完成的工具调用，无法发送给 LLM"
         [JObj [("missingToolCallIds", missing);
                ("hasPendingToolCalls",
                 JBool (nonempty (toolCalls state)))]]
     else
       logger_error P lg "发现未完成的工具调用，即使有 toolResults"
         [JObj [("missingToolCallIds", missing);
                ("toolResultsCount",
                 JNum (Z.of_nat (length (toolResults state))));
                ("toolCallsCount",
                 JNum (Z.of_nat (length (toolCalls state))))]]) ;;
  logger_info "可用工具列表"
    [JObj [("toolCount", JNum (Z.of_nat (size toolRegistry)))]].

(** [await llmWithTools.invoke(allMessages)]: the response is a new
    message object. *)
Definition invoke_llm (msgs : list loc) : M World loc :=
  let! h := get_heap in
  let! r := on_world (llm (deref h msgs)) in
  match r with
  | inl e => throw e
  | inr response => alloc response
  end.

(** [response.tool_calls || []] *)
Definition response_tool_calls (m : option BaseMessage)
    : list ToolCallRequest :=
  match m with
  | Some (AIMessage _ (Some calls)) => calls
  | _ => []
  end.

(** [typeof tc.args === "string" ? JSON.parse(tc.args) : tc.args] over all
    requested calls. *)
Fixpoint toolCallsToExecute (calls : list ToolCallRequest)
    : M World (list ToolCall) :=
  match calls with
  | [] => ret []
  | tc :: rest =>
      let! args :=
        match tc_args tc with
        | JStr s =>
            match JSON_parse P s with
            | inl e => throw e
            | inr v => ret v
            end
        | v => ret v
        end in
      let! rest' := toolCallsToExecute rest in
      ret ({| call_name := tc_name tc; call_args := args |} :: rest')
  end.

Definition createToolMessagesFromResults (state : AgentState)
    : M World (list loc) :=
  match toolResults state with
  | [] => ret []
  | _ :: _ =>
      let! h := get_heap in
      createToolMessages P (toolResults state)
        (findLastAIMessageWithTools h (messages state))
  end.

Definition handleFinalResponse (response : loc) (state : AgentState)
    : M World PartialState :=
  logger_debug "Agent 返回最终响应" [] ;;
  let! newToolMessages := createToolMessagesFromResults state in
  let messagesToReturn :=
    if nonempty newToolMessages then newToolMessages ++ [response]
    else [response] in
  ret {| upd_messages := Some messagesToReturn;
         upd_toolCalls := None;
         upd_toolResults := Some [] |}.

(** [Node.execute]: one step of the agent loop. *)
Definition execute_node (state : AgentState) : M World PartialState :=
  let! allMessages := getMessageList (messages state) state in
  getLLMWithTools allMessages state ;;
  let! response := invoke_llm allMessages in
  let! h := get_heap in
  let calls := response_tool_calls (h !! response) in
  logger_debug "LLM 响应" [JObj [("hasToolCalls", JBool (nonempty calls))]] ;;
  if nonempty calls then
    logger_info "Agent 决定调用工具"
      [JObj [("toolCount", JNum (Z.of_nat (length calls)))]] ;;
    let! toExecute := toolCallsToExecute calls in
    let! results := executeTools P lg toolRegistry toExecute in
    ret {| upd_messages := Some [response];
           upd_toolCalls := Some [];
           upd_toolResults := Some results |}
  else handleFinalResponse response state.
End Node.

(** ** server/planning/workflow.ts *)

(** The nodes of the compiled graph. *)
Inductive GraphNode : Type := START | agent | END.

(** One item of [compiledWorkflow.stream]: [{ nodeName: partialState }]. *)
Definition Chunk : Type := string * PartialState.

(** The states the controller passes through after each chunk of a run. *)
Fixpoint states_after (state : AgentState) (chunks : list Chunk)
    : list AgentState :=
  match chunks with
  | [] => []
  | chunk :: rest =>
      apply_update state (snd chunk)
      :: states_after (apply_update state (snd chunk)) rest
  end.

Section AgentWorkflow.
Context {World : Type}.
(** [this.agentNode.getNodeFunction()] *)
Variable agentNode : AgentState -> M World PartialState.
(** LangGraph's bound on the number of steps of one run. *)
Variable recursionLimit : nat.

(** The routing function passed to [addConditionalEdges]. *)
Definition route (state : AgentState) : string :=
  if nonempty (toolResults state) then "continue" else "end".

(** [shouldContinue] of the older two-node graph (agent/nodes.ts), where
    the model step is followed by a separate tool step: it routes on the
    pending calls. *)
Definition shouldContinue (state : AgentState) : string :=
  if nonempty (toolCalls state) then "subAgent" else "END".

(** The path map [{ continue: "agent", end: END }]. *)
Definition path_map (label : string) : option GraphNode :=
  if String.eqb label "continue" then Some agent
  else if String.eqb label "end" then Some END
  else None.

(** The edges of the graph built by [buildWorkflow]. *)
Definition next_node (n : GraphNode) (state : AgentState)
    : option GraphNode :=
  match n with
  | START => Some agent
  | agent => path_map (route state)
  | END => None
  end.

(** A run of the graph from the [agent] node with [fuel] steps left. It
    yields one chunk per completed step and ends with the final state or
    with the error that aborted it. *)
Fixpoint run_agent (fuel : nat) (state : AgentState) (st : State World)
    : list Chunk * (Completion AgentState * State World) :=
  match fuel with
  | O => ([], (Abrupt (ErrorObject "Recursion limit reached"), st))
  | S fuel' =>
      match agentNode state st with
      | (Abrupt e, st') => ([], (Abrupt e, st'))
      | (Normal update, st') =>
          let state' := apply_update state update in
          let chunk := ("agent", update) in
          match next_node agent state' with
          | Some agent =>
              let '(chunks, r) := run_agent fuel' state' st' in
              (chunk :: chunks, r)
          | _ => ([chunk], (Normal state', st'))
          end
      end
  end.

(** [compiledWorkflow.stream(state)] consumed to its end. *)
Definition stream (state : AgentState) (st : State World)
    : list Chunk * (Completion AgentState * State World) :=
  match next_node START state with
  | Some agent => run_agent recursionLimit state st
  | _ => ([], (Normal state, st))
  end.

(** [compiledWorkflow.invoke(state)] *)
Definition invoke (state : AgentState) : M World AgentState :=
  fun st => snd (stream state st).

End AgentWorkflow.

(** ** cli/chat.ts *)

Section ChatManager.
Context {World : Type} (P : Platform) (lg : LoggerVersion).
(** [this.app.invoke] *)
Variable app_invoke : AgentState -> M World AgentState.
(** [this.cli.isExitCommand] *)
Variable isExitCommand : string -> bool.

(** The state the constructor starts from. *)
Definition initial_conversationState : AgentState :=
  {| messages := []; toolCalls := []; toolResults := [] |}.

(** The [newState] of [processUserInput]: history plus the new user
    message, with empty scratch lists. *)
Definition newState (conversationState : AgentState) (userInput : string)
    : M World AgentState :=
  let! human := alloc (HumanMessage (JStr userInput)) in
  ret {| messages := messages conversationState ++ [human];
         toolCalls := [];
         toolResults := [] |}.

(** [ChatManager.extractAIResponse]: the last assistant message without
    tool calls. *)
Fixpoint cli_extract_loop (reversed : list BaseMessage) : option string :=
  match reversed with
  | [] => None
  | msg :: rest =>
      match msg with
      | AIMessage content _ =>
          if negb (has_tool_calls msg) then
            Some (match content with JStr s => s | _ => EmptyString end)
          else cli_extract_loop rest
      | _ => cli_extract_loop rest
      end
  end.

Definition cli_extractAIResponse (h : heap) (state : AgentState)
    : option string :=
  cli_extract_loop (reverse (deref h (messages state))).

(** Returns the response and the conversation state kept for the next
    turn. *)
Definition processUserInput (conversationState : AgentState)
    (userInput : string) : M World (option string * AgentState) :=
  if negb (truthy_str userInput) then ret (None, conversationState)
  else if isExitCommand userInput then ret (Some "EXIT", conversationState)
  else
    try_catch
      (let! state := newState conversationState userInput in
       let! finalState := app_invoke state in
       let! h := get_heap in
       ret (cli_extractAIResponse h finalState, finalState))
      (fun e =>
         logger_error P lg "处理用户输入时出错" [thrown_as_value e] ;;
         ret (None, conversationState)).
End ChatManager.

(** ** web/src/app/api/chat/route.ts *)

(** *** JavaScript strings *)

(** A JavaScript string is a sequence of UTF-16 code units, and [length]
    and [slice] count code units.  The model holds a string as the bytes of
    its UTF-8 form, generalised so that a surrogate on its own takes three
    bytes: a character of the basic plane is one code unit in one to three
    bytes, a character beyond it is two code units (a surrogate pair) in
    four bytes. *)

(** The number of bytes of the sequence that a byte starts.  A byte that
    starts none counts for itself. *)
Definition utf8_width (c : ascii) : nat :=
  let n := N_of_ascii c in
  if (n <? 192)%N then 1%nat
  else if (n <? 224)%N then 2%nat
  else if (n <? 240)%N then 3%nat
  else if (n <? 248)%N then 4%nat
  else 1%nat.

(** The code units of the character a byte starts. *)
Definition utf16_units (c : ascii) : nat :=
  match utf8_width c with
  | 4%nat => 2%nat
  | _ => 1%nat
  end.

(** [s.length], with [pending] bytes of the current character still to
    pass. *)
Fixpoint js_length_from (pending : nat) (s : string) : nat :=
  match s with
  | EmptyString => 0%nat
  | String c rest =>
      match pending with
      | S pending' => js_length_from pending' rest
      | O => (utf16_units c + js_length_from (utf8_width c - 1) rest)%nat
      end
  end.

Definition js_length (s : string) : nat := js_length_from 0 s.

(** The second surrogate of the pair that a four-byte sequence stands for,
    on its own, followed by what comes behind the sequence; [rest] starts
    with the three bytes behind the first. *)
Definition trail_surrogate (rest : string) : string :=
  match rest with
  | String _ (String b2 (String b3 tail)) =>
      String (ascii_of_N 237)
        (String (ascii_of_N (N.lor 176 (N.land (N_of_ascii b2) 15)))
           (String (ascii_of_N (N.lor 128 (N.land (N_of_ascii b3) 63)))
              tail))
  | _ => EmptyString
  end.

(** [s.slice(start)]: what lies behind the first [start] code units.  A cut
    in the middle of a surrogate pair leaves its second surrogate. *)
Fixpoint slice_from (pending : nat) (s : string) (start : nat) : string :=
  match s with
  | EmptyString => EmptyString
  | String c rest =>
      match pending with
      | S pending' => slice_from pending' rest start
      | O =>
          match start with
          | O => s
          | S start' =>
              match utf8_width c with
              | 4%nat =>
                  match start' with
                  | O => trail_surrogate rest
                  | S start'' => slice_from 3 rest start''
                  end
              | width => slice_from (width - 1) rest start'
              end
          end
      end
  end.

Definition slice (s : string) (start : nat) : string := slice_from 0 s start.

(** The payloads written to the SSE stream. *)
Inductive SseEvent : Type :=
  | DeltaEvent (content : string)
  | MessageEvent (content : string)
  | ErrorEvent (message : string)
  | DoneEvent.

(** The variables the stream callback closes over. *)
Record StreamState : Type := {
  accumulatedState : AgentState;
  lastContent : string;
  enqueued : list SseEvent
}.

(** The variables as the handler initialises them: [lastContent = ""],
    [accumulatedState = { ...newState }]. *)
Definition stream_start (state : AgentState) : StreamState :=
  {| accumulatedState := state; lastContent := EmptyString; enqueued := [] |}.

Section Route.
Context (P : Platform).

(** [typeof content === "string" ? content : String(content)] *)
Definition content_text (content : JsValue) : string :=
  match content with
  | JStr s => s
  | v => String_of P v
  end.

(** The backwards loop of [extractAIResponse], with [lastAIMessage]. *)
Fixpoint extract_loop (reversed : list BaseMessage)
    (lastAIMessage : option BaseMessage) : option string :=
  match reversed with
  | [] =>
      match lastAIMessage with
      | Some m =>
          if truthy (content_of m) then Some (content_text (content_of m))
          else None
      | None => None
      end
  | msg :: rest =>
      match msg with
      | AIMessage content _ =>
          let lastAIMessage' :=
            match lastAIMessage with
            | None => Some msg
            | Some m => Some m
            end in
          if negb (has_tool_calls msg) && truthy content
          then Some (content_text content)
          else extract_loop rest lastAIMessage'
      | _ => extract_loop rest lastAIMessage
      end
  end.

Definition extractAIResponse (h : heap) (state : AgentState)
    : option string :=
  extract_loop (reverse (deref h (messages state))) None.

(** The accumulation of a partial state into [accumulatedState]. *)
Definition accumulate (acc : AgentState) (partialState : PartialState)
    : AgentState :=
  {| messages :=
       match upd_messages partialState with
       | Some ms => messages acc ++ ms
       | None => messages acc
       end;
     toolCalls :=
       match upd_toolCalls partialState with
       | Some tcs => tcs
       | None => toolCalls acc
       end;
     toolResults :=
       match upd_toolResults partialState with
       | Some trs => trs
       | None => toolResults acc
       end |}.

(** The body of [for await (const stateUpdate of stateStream)]. *)
Definition on_stateUpdate (h : heap) (s : StreamState) (chunk : Chunk)
    : StreamState :=
  let acc' := accumulate (accumulatedState s) (snd chunk) in
  let unchanged :=
    {| accumulatedState := acc';
       lastContent := lastContent s;
       enqueued := enqueued s |} in
  match extractAIResponse h acc' with
  | Some currentResponse =>
      if truthy_str currentResponse
         && negb (String.eqb currentResponse (lastContent s)) then
        let delta := slice currentResponse (js_length (lastContent s)) in
        if truthy_str delta then
          {| accumulatedState := acc';
             lastContent := currentResponse;
             enqueued := enqueued s ++ [DeltaEvent delta] |}
        else unchanged
      else unchanged
  | None => unchanged
  end.

(** After the loop: the full message, then the end marker. *)
Definition finish_stream (h : heap) (s : StreamState) : list SseEvent :=
  enqueued s
  ++ match extractAIResponse h (accumulatedState s) with
     | Some finalResponse =>
         if truthy_str finalResponse then [MessageEvent finalResponse]
         else []
     | None => []
     end
  ++ [DoneEvent].

(** The [catch] of the stream: the error payload, then the stream is
    closed. *)
Definition fail_stream (s : StreamState) (e : Thrown) : list SseEvent :=
  enqueued s
  ++ [ErrorEvent (match e with
                  | ErrorObject m => m
                  | ThrownValue v => String_of P v
                  end)].

(** The events of one request, given the chunks the workflow yielded, the
    way its run ended and the heap the messages live in.  A run only adds
    message objects ([run_agent_heap_grows]), so reading them from the final
    heap gives what the callback saw when each chunk arrived. *)
Definition stream_events {A} (h : heap) (state : AgentState)
    (chunks : list Chunk) (outcome : Completion A) : list SseEvent :=
  let s := foldl (on_stateUpdate h) (stream_start state) chunks in
  match outcome with
  | Normal _ => finish_stream h s
  | Abrupt e => fail_stream s e
  end.
End Route.

(** *** The history the handler builds from the request *)

(** An entry of [body.messages].  A role that is not a string behaves like
    a role the loop does not know. *)
Record ClientMessage : Type := {
  msg_role : string;
  msg_content : JsValue
}.

(** [msg instanceof HumanMessage] *)
Definition is_HumanMessage (m : BaseMessage) : bool :=
  match m with
  | HumanMessage _ => true
  | _ => false
  end.

(** The message classes come from LangChain, which is not code of this
    repository.  Given a string, [new HumanMessage(s)] and its siblings make
    a message with that content and, for an assistant message, no tool
    calls.  Any other argument is read as an object of fields: the
    constructor throws, as it does on [undefined], [null] and a number, or
    takes the content and the tool calls from the fields. *)
Record MessageFields : Type := {
  fields_content : JsValue;
  fields_tool_calls : option (list ToolCallRequest)
}.

(** How the library reads an argument that is not a string. *)
Definition FieldsReader : Type := JsValue -> Thrown + MessageFields.

(** [new C(argument)] for the class whose messages [make] builds: the new
    message, or what the constructor throws. *)
Definition new_message (read_fields : FieldsReader)
    (make : JsValue -> option (list ToolCallRequest) -> BaseMessage)
    (argument : JsValue) : Thrown + BaseMessage :=
  match argument with
  | JStr s => inr (make (JStr s) (Some []))
  | fields =>
      match read_fields fields with
      | inl e => inl e
      | inr f => inr (make (fields_content f) (fields_tool_calls f))
      end
  end.

Definition new_SystemMessage (read_fields : FieldsReader)
    (argument : JsValue) : Thrown + BaseMessage :=
  new_message read_fields (fun content _ => SystemMessage content) argument.

Definition new_HumanMessage (read_fields : FieldsReader)
    (argument : JsValue) : Thrown + BaseMessage :=
  new_message read_fields (fun content _ => HumanMessage content) argument.

Definition new_AIMessage (read_fields : FieldsReader)
    (argument : JsValue) : Thrown + BaseMessage :=
  new_message read_fields AIMessage argument.

Section Post.
Context {World : Type}.
Variable read_fields : FieldsReader.
(** The module variable [systemPrompt] once [POST] has read it from the
    environment; [None] is [undefined], which [getAgentPrompt] returns when
    the prompt file cannot be read. *)
Variable systemPrompt : option string.

(** [langchainMessages.push(new C(...))]: nothing is pushed when the
    constructor throws. *)
Definition push_new (made : Thrown + BaseMessage)
    (langchainMessages : list loc) : M World (list loc) :=
  match made with
  | inl e => throw e
  | inr m =>
      let! l := alloc m in
      ret (langchainMessages ++ [l])
  end.

(** [for (const msg of messages) { ... }] *)
Fixpoint convert_loop (messages : list ClientMessage)
    (langchainMessages : list loc) : M World (list loc) :=
  match messages with
  | [] => ret langchainMessages
  | msg :: rest =>
      if String.eqb (msg_role msg) "system" then
        convert_loop rest langchainMessages (* continue *)
      else if String.eqb (msg_role msg) "user" then
        let! pushed :=
          push_new (new_HumanMessage read_fields (msg_content msg))
            langchainMessages in
        convert_loop rest pushed
      else if String.eqb (msg_role msg) "assistant" then
        let! pushed :=
          push_new (new_AIMessage read_fields (msg_content msg))
            langchainMessages in
        convert_loop rest pushed
      else convert_loop rest langchainMessages
  end.

(** [POST] from [new SystemMessage(systemPrompt)] to its [newState].  What
    is thrown here reaches the outer [catch] of [POST], which answers with
    status 500. *)
Definition POST_newState (messages : list ClientMessage)
    : M World AgentState :=
  let! langchainMessages :=
    push_new
      (new_SystemMessage read_fields
         (match systemPrompt with
          | Some prompt => JStr prompt
          | None => JUndefined
          end))
      [] in
  let! langchainMessages := convert_loop messages langchainMessages in
  let! h := get_heap in
  let hasUserMessage := existsb is_HumanMessage (deref h langchainMessages) in
  let! langchainMessages' :=
    if negb hasUserMessage && nonempty messages then
      match last messages with
      | Some lastMessage =>
          if negb (String.eqb (msg_role lastMessage) "system") then
            push_new (new_HumanMessage read_fields (msg_content lastMessage))
              langchainMessages
          else ret langchainMessages
      | None => ret langchainMessages
      end
    else ret langchainMessages in
  ret {| messages := langchainMessages';
         toolCalls := [];
         toolResults := [] |}.
End Post.

(** * Specification vocabulary *)

(** ** The filtering pass without its logging *)

(** What one iteration of the second loop of [processMessages] leaves in
    [processedMessages] when it does not throw. *)
Definition filter_step (h : heap) (toolMessageMap : gmap string loc)
    (processed : list loc) (msg : loc) : list loc :=
  match h !! msg with
  | Some (AIMessage _ (Some (tc :: tcs))) =>
      if allToolCallsHaveResponses toolMessageMap (tc :: tcs)
      then pushToolMessages toolMessageMap (tc :: tcs) (processed ++ [msg])
      else processed
  | Some (ToolMessage _ id) =>
      if truthy_str id then
        if includes processed msg then processed else processed ++ [msg]
      else processed ++ [msg]
  | _ => processed ++ [msg]
  end.

Definition filter_pass (h : heap) (toolMessageMap : gmap string loc)
    (msgs processed : list loc) : list loc :=
  foldl (filter_step h toolMessageMap) processed msgs.

(** The map both passes of [processMessages] share. *)
Definition toolMessageMap_of (h : heap) (msgs newToolMessages : list loc)
    : gmap string loc :=
  collectToolMessages h newToolMessages (collectToolMessages h msgs ∅).

(** The answers the map holds for a request list, in request order. *)
Definition answers (toolMessageMap : gmap string loc)
    (calls : list ToolCallRequest) : list loc :=
  omap (fun tc => usable_id tc ≫= (toolMessageMap !!.)) calls.

(** The objects of [ts] that are not in [seen], each once, in the order of
    their first occurrence. *)
Fixpoint fresh_in_order (seen ts : list loc) : list loc :=
  match ts with
  | [] => []
  | t :: rest =>
      if bool_decide (t ∈ seen) then fresh_in_order seen rest
      else t :: fresh_in_order (seen ++ [t]) rest
  end.

(** ** Reconciling a history with a batch *)

(** The reconciler as [Node.getMessageList] drives it: the batch becomes
    tool messages for the most recent assistant message with requests, then
    the history goes through the filtering pass. *)
Definition reconcile {World : Type} (P : Platform) (lg : LoggerVersion)
    (H : list loc) (batch : list ToolResult)
    (hasToolResults hasPendingToolCalls : bool) : M World (list loc) :=
  let! h := get_heap in
  let! newToolMessages :=
    createToolMessages P batch (findLastAIMessageWithTools h H) in
  processMessages P lg H newToolMessages hasToolResults hasPendingToolCalls.

(** ** Completeness of a message list *)

(** As the completeness invariant is worded: every request of an assistant
    message of the list is answered by a tool message later in the list. *)
Definition answered_later (h : heap) (out : list loc) : Prop :=
  ∀ i a c calls tc,
    out !! i = Some a →
    h !! a = Some (AIMessage c (Some calls)) →
    tc ∈ calls →
    ∃ id j t c',
      tc_id tc = Some id ∧ (i < j)%nat ∧ out !! j = Some t ∧
      h !! t = Some (ToolMessage c' id).

(** The same without the position: the answer is somewhere in the list. *)
Definition answered (h : heap) (out : list loc) : Prop :=
  ∀ a c calls tc,
    a ∈ out →
    h !! a = Some (AIMessage c (Some calls)) →
    tc ∈ calls →
    ∃ id t c',
      usable_id tc = Some id ∧ t ∈ out ∧ h !! t = Some (ToolMessage c' id).

(** Every request of an assistant message of [out] has its answer, as the
    map records it, in [out]. *)
Definition answered_by_map (h : heap) (m : gmap string loc)
    (out : list loc) : Prop :=
  ∀ a c calls tc,
    a ∈ out → h !! a = Some (AIMessage c (Some calls)) → tc ∈ calls →
    ∃ id t, usable_id tc = Some id ∧ m !! id = Some t ∧ t ∈ out.

(** The map only holds tool messages, under their own id. *)
Definition map_of_tool_messages (h : heap) (m : gmap string loc) : Prop :=
  ∀ id t, m !! id = Some t → ∃ c, h !! t = Some (ToolMessage c id).

(** The map sends the id of every tool message of [S] to that message. *)
Definition map_points_to (h : heap) (m : gmap string loc) (S : list loc)
    : Prop :=
  ∀ t c id, t ∈ S → h !! t = Some (ToolMessage c id) →
            truthy_str id = true → m !! id = Some t.

(** A fully settled history: every request id of every assistant message has
    a tool message with that id in the history. *)
Definition fully_settled (h : heap) (H : list loc) : Prop := answered h H.

(** [t] is a tool message answering the request [tc]. *)
Definition answers_request (h : heap) (tc : ToolCallRequest) (t : loc) : Prop :=
  ∃ id c, usable_id tc = Some id ∧ h !! t = Some (ToolMessage c id).

(** A history in which every assistant message with requests is directly
    followed by its answers, one per request, in request order. *)
Inductive in_request_order (h : heap) : list loc → Prop :=
  | iro_nil : in_request_order h []
  | iro_other msg m rest :
      h !! msg = Some m →
      has_tool_calls m = false →
      in_request_order h rest →
      in_request_order h (msg :: rest)
  | iro_block a c calls results rest :
      h !! a = Some (AIMessage c (Some calls)) →
      calls ≠ [] →
      Forall2 (answers_request h) calls results →
      in_request_order h rest →
      in_request_order h (a :: results ++ rest).

(** No two tool messages of the history answer the same id. *)
Definition one_result_per_id (h : heap) (H : list loc) : Prop :=
  ∀ t1 t2 c1 c2 id,
    t1 ∈ H → t2 ∈ H →
    h !! t1 = Some (ToolMessage c1 id) →
    h !! t2 = Some (ToolMessage c2 id) →
    t1 = t2.

(** ** Positional pairing of results and requests *)

(** The tool messages the pairing of records with requests calls for: the
    record at index [i] with request [i], when that request has a usable
    id. *)
Definition paired_messages (P : Platform) (calls : list ToolCallRequest)
    (records : list ToolResult) : list BaseMessage :=
  omap (fun '(r, tc) =>
          id ← usable_id tc;
          Some (ToolMessage (resultContent P (result r)) id))
       (zip records calls).

(** The warning logged for the record at [index]. *)
Definition dropped_warning (index : nat) (r : ToolResult) : LogEntry :=
  {| level := warn;
     message := "工具结果没有对应的 tool_call_id";
     meta := [JObj [("index", JNum (Z.of_nat index));
                    ("toolResultName", JStr (result_name r))]] |}.

(** The warnings for the records that get no message, from index [index]. *)
Fixpoint dropped_warnings (calls : list ToolCallRequest) (index : nat)
    (records : list ToolResult) : list LogEntry :=
  match records with
  | [] => []
  | r :: rest =>
      match calls !! index ≫= usable_id with
      | Some _ => dropped_warnings calls (S index) rest
      | None => dropped_warning index r :: dropped_warnings calls (S index) rest
      end
  end.

(** As the pairing is worded: every record at an index that has a request
    becomes a tool message carrying that request's id. *)
Definition every_paired_record_kept (P : Platform) (h : heap)
    (calls : list ToolCallRequest) (records : list ToolResult)
    (created : list loc) : Prop :=
  ∀ i r tc,
    records !! i = Some r →
    calls !! i = Some tc →
    ∃ t id,
      t ∈ created ∧ tc_id tc = Some id ∧
      h !! t = Some (ToolMessage (resultContent P (result r)) id).

(** ** Heap discipline *)

(** A computation only adds objects: the heap it leaves extends the heap it
    found, whether it returns or throws. *)
Definition heap_grows {World A : Type} (m : M World A) : Prop :=
  ∀ st r st', m st = (r, st') → st_heap st `prefix_of` st_heap st'.

(** ** Executor vocabulary *)

(** Every call of the batch names a registered tool that resolves; the
    records are collected in call order while the world is threaded from one
    tool to the next. *)
Inductive all_resolve {World : Type} (toolRegistry : gmap string (Tool World))
    : list ToolCall → World → list ToolResult → World → Prop :=
  | all_resolve_nil w : all_resolve toolRegistry [] w [] w
  | all_resolve_cons toolCall rest tool v w w1 records w2 :
      toolRegistry !! call_name toolCall = Some tool →
      execute tool (call_args toolCall) w = (inr v, w1) →
      all_resolve toolRegistry rest w1 records w2 →
      all_resolve toolRegistry (toolCall :: rest) w
        ({| result_name := call_name toolCall; result := v |} :: records) w2.

(** ** Streaming vocabulary *)




(** ** Validation vocabulary *)

(** [id] is requested by an assistant message of the list. *)
Definition requested (h : heap) (msgs : list loc) (id : string) : Prop :=
  ∃ a c calls tc,
    a ∈ msgs ∧ h !! a = Some (AIMessage c (Some calls)) ∧ tc ∈ calls ∧
    usable_id tc = Some id.

(** [id] is the non-empty id of a tool message of the list. *)
Definition has_result (h : heap) (msgs : list loc) (id : string) : Prop :=
  ∃ t c, t ∈ msgs ∧ h !! t = Some (ToolMessage c id) ∧ truthy_str id = true.

(** ** Strings made of whole characters *)



(** ** Vocabulary for the further properties *)

(** The references that take the last branch of the second loop of
    [processMessages]: neither an assistant message with requests nor a tool
    message with a non-empty id. *)
Definition passes_through (h : heap) (msg : loc) : bool :=
  match h !! msg with
  | Some (AIMessage _ (Some (_ :: _))) => false
  | Some (ToolMessage _ id) => negb (truthy_str id)
  | _ => true
  end.

(** A tool message with a non-empty id. *)
Definition keyed_tool_message (h : heap) (msg : loc) : bool :=
  match h !! msg with
  | Some (ToolMessage _ id) => truthy_str id
  | _ => false
  end.

(** An assistant message with requests that the map does not answer
    completely. *)
Definition incomplete (h : heap) (m : gmap string loc) (msg : loc) : bool :=
  match h !! msg with
  | Some (AIMessage _ (Some (tc :: tcs))) =>
      negb (allToolCallsHaveResponses m (tc :: tcs))
  | _ => false
  end.

(** A warning among the log entries. *)
Definition is_warning (e : LogEntry) : bool :=
  match level e with
  | warn => true
  | _ => false
  end.

(** The tools of a list registered under [name]. *)
Definition named (World : Type) (name : string) (tools : list (Tool World))
    : list (Tool World) :=
  filter (fun tool => tool_name tool = name) tools.

(** The constructor call the loop of [POST] makes for an entry of the
    request, if it makes one. *)
Definition converted (read_fields : FieldsReader) (msg : ClientMessage)
    : option (Thrown + BaseMessage) :=
  if String.eqb (msg_role msg) "system" then None
  else if String.eqb (msg_role msg) "user" then
    Some (new_HumanMessage read_fields (msg_content msg))
  else if String.eqb (msg_role msg) "assistant" then
    Some (new_AIMessage read_fields (msg_content msg))
  else None.

(** The request has an entry with role [user]. *)
Definition has_user_entry (msgs : list ClientMessage) : bool :=
  existsb (fun msg => String.eqb (msg_role msg) "user") msgs.

(** The constructor calls of [POST], in the order it makes them when none
    fails: the system message, one message per entry with role [user] or
    [assistant], and a user message from the last entry when no entry has
    role [user] and the last one does not have role [system]. *)
Definition constructor_calls (read_fields : FieldsReader)
    (systemPrompt : option string) (msgs : list ClientMessage)
    : list (Thrown + BaseMessage) :=
  new_SystemMessage read_fields
    (match systemPrompt with
     | Some prompt => JStr prompt
     | None => JUndefined
     end)
  :: omap (converted read_fields) msgs
  ++ (if has_user_entry msgs then []
      else match last msgs with
           | Some lastMessage =>
               if String.eqb (msg_role lastMessage) "system" then []
               else [new_HumanMessage read_fields (msg_content lastMessage)]
           | None => []
           end).

(** The messages made until the first call that throws, and what it
    throws. *)
Fixpoint until_failure (calls : list (Thrown + BaseMessage))
    : list BaseMessage * option Thrown :=
  match calls with
  | [] => ([], None)
  | inl e :: _ => ([], Some e)
  | inr m :: rest =>
      let '(made, failure) := until_failure rest in (m :: made, failure)
  end.

(** A constructor call that returns. *)
Definition succeeds (call : Thrown + BaseMessage) : Prop :=
  ∃ m, call = inr m.

(** A reference to a system message. *)
Definition refers_to_system_message (h : heap) (msg : loc) : bool :=
  match h !! msg with
  | Some m => is_SystemMessage m
  | None => false
  end.

(** ** Concrete inputs *)

(** A platform to run the model on: every structured value prints as the
    same text. *)
Definition demo_platform : Platform :=
  {| JSON_stringify :=
       fun v => match v with JUndefined => JUndefined | _ => JStr "{...}" end;
     JSON_parse := fun s => inr (JStr s);
     String_of := fun v => match v with JStr s => s | _ => "[object]" end;
     formatMeta := fun _ => EmptyString |}.

(** A state over a world in which nothing can be observed. *)
Definition demo_state (h : heap) : State unit :=
  {| st_heap := h; st_logs := []; st_world := tt |}.

Definition request (id : string) : ToolCallRequest :=
  {| tc_id := Some id; tc_name := "search"; tc_args := JObj [] |}.

(** A history in which the result of a call precedes the assistant message
    that requests it. *)
Definition result_first_heap : heap :=
  [ToolMessage (JStr "sunny") "call_1";
   AIMessage (JStr EmptyString) (Some [request "call_1"])].

(** A user turn, an assistant message with two requests and their results
    in request order, and the final answer. *)
Definition settled_heap : heap :=
  [HumanMessage (JStr "weather in Tokyo and Kyoto?");
   AIMessage (JStr EmptyString) (Some [request "call_1"; request "call_2"]);
   ToolMessage (JStr "sunny") "call_1";
   ToolMessage (JStr "rain") "call_2";
   AIMessage (JStr "Sunny in Tokyo, rain in Kyoto.") (Some [])].

(** The same requests, answered in the opposite order. *)
Definition swapped_heap : heap :=
  [AIMessage (JStr EmptyString) (Some [request "call_1"; request "call_2"]);
   ToolMessage (JStr "rain") "call_2";
   ToolMessage (JStr "sunny") "call_1"].

(** An assistant message with two requests of which only the first has a
    result. *)
Definition half_answered_heap : heap :=
  [AIMessage (JStr EmptyString) (Some [request "call_1"; request "call_2"]);
   ToolMessage (JStr "sunny") "call_1"].

(** A request whose id is the empty string, and a record for it. *)
Definition blank_request : ToolCallRequest :=
  {| tc_id := Some EmptyString; tc_name := "search"; tc_args := JObj [] |}.

Definition sunny_record : ToolResult :=
  {| result_name := "search"; result := JStr "sunny" |}.

(** An assistant message whose only request carries an empty id. *)
Definition blank_id_heap : heap :=
  [AIMessage (JStr EmptyString) (Some [blank_request])].

(** A user turn and an assistant message with two requests, still
    unanswered. *)
Definition pending_heap : heap :=
  [HumanMessage (JStr "weather in Tokyo and Kyoto?");
   AIMessage (JStr EmptyString) (Some [request "call_1"; request "call_2"])].

(** Three records for the two requests of [pending_heap]: a string, an
    object and one too many. *)
Definition three_records : list ToolResult :=
  [{| result_name := "search"; result := JStr "sunny" |};
   {| result_name := "search"; result := JObj [("celsius", JNum 3)] |};
   {| result_name := "search"; result := JStr "extra" |}].

(** Two registered tools: [a] resolves with a string, [b] rejects with an
    [Error]. No tool is registered under [search]. *)
Definition ok_tool : Tool unit :=
  {| tool_name := "a";
     description := "resolves";
     execute := fun _ w => (inr (JStr "ok"), w) |}.

Definition failing_tool : Tool unit :=
  {| tool_name := "b";
     description := "rejects";
     execute := fun _ w => (inl (ErrorObject "boom"), w) |}.

Definition demo_registry : gmap string (Tool unit) :=
  <["a" := ok_tool]> (<["b" := failing_tool]> ∅).

Definition call (name : string) : ToolCall :=
  {| call_name := name; call_args := JObj [] |}.

Definition ok_record (name : string) : ToolResult :=
  {| result_name := name; result := JStr "ok" |}.

Definition error_record (name text : string) : ToolResult :=
  {| result_name := name; result := JObj [("error", JStr text)] |}.

(** A model that asks for tool [a] until the outgoing list ends with a tool
    message, and then answers. *)
Definition demo_llm : LLM unit :=
  fun msgs w =>
    match last msgs with
    | Some (ToolMessage _ _) =>
        (inr (AIMessage (JStr "It is sunny.") (Some [])), w)
    | _ =>
        (inr (AIMessage (JStr EmptyString)
                (Some [{| tc_id := Some "call_1"; tc_name := "a";
                          tc_args := JObj [] |}])),
         w)
    end.

(** The agent node over that model, the demo registry and a system prompt. *)
Definition demo_node : AgentState → M unit PartialState :=
  execute_node demo_platform ThrowOnError demo_llm demo_registry
    (Some "You are viscum").

(** The first turn of a conversation. *)
Definition demo_turn : Completion AgentState * State unit :=
  newState initial_conversationState "Weather in Tokyo?" (demo_state []).

Definition demo_turn_state : AgentState :=
  {| messages := [0%nat]; toolCalls := []; toolResults := [] |}.

Definition demo_turn_heap : heap := [HumanMessage (JStr "Weather in Tokyo?")].

(** The run of the workflow on that turn, evaluated. *)
Definition demo_run : list Chunk * (Completion AgentState * State unit) :=
  Eval vm_compute in
    stream demo_node 25 demo_turn_state (demo_state demo_turn_heap).

Definition demo_chunks : list Chunk := fst demo_run.

Definition demo_final_state : AgentState :=
  {| messages := [0; 2; 6; 5]%nat; toolCalls := []; toolResults := [] |}.

Definition demo_final_heap : heap := st_heap (snd (snd demo_run)).

(** The update of the first step of that run and the state it leads to. *)
Definition demo_first_update : PartialState :=
  {| upd_messages := Some [2%nat];
     upd_toolCalls := Some [];
     upd_toolResults := Some [ok_record "a"] |}.

Definition demo_first_step : Completion PartialState * State unit :=
  Eval vm_compute in demo_node demo_turn_state (demo_state demo_turn_heap).





(** The request of a second turn: the history holds the first answer, the
    model asks for a tool and then answers. *)
Definition resent_heap : heap :=
  [SystemMessage (JStr "You are viscum");
   HumanMessage (JStr "Weather in Tokyo?");
   AIMessage (JStr "Sunny.") (Some []);
   HumanMessage (JStr "And tomorrow?");
   AIMessage (JStr EmptyString) (Some [request "call_1"]);
   ToolMessage (JStr "rain") "call_1";
   AIMessage (JStr "Rain tomorrow.") (Some [])].

Definition resent_start : AgentState :=
  {| messages := [0; 1; 2; 3]%nat; toolCalls := []; toolResults := [] |}.

Definition resent_tool_call : Chunk :=
  ("agent",
   {| upd_messages := Some [4%nat];
      upd_toolCalls := Some [];
      upd_toolResults := Some [sunny_record] |}).

Definition resent_answer : Chunk :=
  ("agent",
   {| upd_messages := Some [5; 6]%nat;
      upd_toolCalls := None;
      upd_toolResults := Some [] |}).

(** One request answered by two tool messages, and a history that lists the
    same tool message object twice. *)
Definition twice_answered_heap : heap :=
  [AIMessage (JStr EmptyString) (Some [request "call_1"]);
   ToolMessage (JStr "sunny") "call_1";
   ToolMessage (JStr "sunny") "call_1"].

(** A batch of one call of tool [a], run under the throwing logger. *)
Definition demo_tool_run : Completion (list ToolResult) * State unit :=
  Eval vm_compute in
    executeTools demo_platform ThrowOnError demo_registry [call "a"]
      (demo_state []).

(** The list the first step of the demo turn sends to the model. *)
Definition demo_message_list : Completion (list loc) * State unit :=
  Eval vm_compute in
    getMessageList demo_platform ThrowOnError (Some "You are viscum")
      [0%nat] demo_turn_state (demo_state demo_turn_heap).

(** The demo turn as the chat manager runs it. *)
Definition demo_chat
    : Completion (option string * AgentState) * State unit :=
  Eval vm_compute in
    processUserInput demo_platform ThrowOnError (invoke demo_node 25)
      (fun _ => false) initial_conversationState "Weather in Tokyo?"
      (demo_state []).

(** A reader of fields that accepts no argument: every constructor call on
    something other than a string throws. *)
Definition demo_reader : FieldsReader :=
  fun _ => inl (ErrorObject "TypeError").

(** A request with one user message, the state the handler builds from it
    and the list the first step sends to the model. *)
Definition demo_request : list ClientMessage :=
  [{| msg_role := "user"; msg_content := JStr "Weather in Tokyo?" |}].

Definition demo_post_state : AgentState :=
  {| messages := [0; 1]%nat; toolCalls := []; toolResults := [] |}.

Definition demo_post : Completion AgentState * State unit :=
  Eval vm_compute in
    POST_newState demo_reader (Some "You are viscum") demo_request
      (demo_state []).

Definition demo_post_list : Completion (list loc) * State unit :=
  Eval vm_compute in
    getMessageList demo_platform ThrowOnError (Some "Another prompt")
      [0; 1]%nat demo_post_state (snd demo_post).

(** A request whose second entry has no content. *)
Definition broken_request : list ClientMessage :=
  [{| msg_role := "assistant"; msg_content := JStr "Sunny." |};
   {| msg_role := "user"; msg_content := JUndefined |};
   {| msg_role := "user"; msg_content := JStr "And tomorrow?" |}].

(** * Facts about the model *)

Ltac unfold_monad :=
  unfold logger_warn, logger_info, logger_debug, logger_error,
         bind, ret, throw, try_catch, get_heap, alloc, write_log, on_world
    in *;
  simpl in *.

Ltac invert H := inversion H; subst; clear H.

(** ** The tool-message map *)

Section MapFacts.
Implicit Types (h : heap) (m : gmap string loc).

Lemma collectToolMessages_cons h l ls m :
  collectToolMessages h (l :: ls) m
  = collectToolMessages h ls (collectToolMessages h [l] m).
Proof. reflexivity. Qed.

Lemma collectToolMessages_single h l m id :
  collectToolMessages h [l] m !! id
  = match h !! l with
    | Some (ToolMessage _ id') =>
        if truthy_str id' then
          if decide (id' = id) then Some l else m !! id
        else m !! id
    | _ => m !! id
    end.
Proof.
  unfold collectToolMessages; simpl.
  destruct (h !! l) as [[ | | | c id']|]; try done.
  destruct (truthy_str id'); [|done].
  by rewrite lookup_insert.
Qed.

(** Whatever the map holds for an id is a tool message with that id, taken
    from the lists it was collected from. *)
Lemma collectToolMessages_range h ls m id t :
  collectToolMessages h ls m !! id = Some t →
  m !! id = Some t
  ∨ (t ∈ ls ∧ ∃ c, h !! t = Some (ToolMessage c id)).
Proof.
  revert m. induction ls as [|l ls IH]; intros m Hl; [by left|].
  rewrite collectToolMessages_cons in Hl.
  apply IH in Hl as [Hl|[Hin Ht]]; [|right; split; [by right|done]].
  rewrite collectToolMessages_single in Hl.
  destruct (h !! l) as [[ | | | c id']|] eqn:El; try by left.
  destruct (truthy_str id'); [|by left].
  destruct (decide (id' = id)) as [->|]; [|by left].
  invert Hl. right. split; [by left|eauto].
Qed.

Lemma collectToolMessages_mono h ls m id :
  is_Some (m !! id) → is_Some (collectToolMessages h ls m !! id).
Proof.
  revert m. induction ls as [|l ls IH]; intros m Hm; [done|].
  rewrite collectToolMessages_cons. apply IH.
  rewrite collectToolMessages_single.
  destruct (h !! l) as [[ | | | c id']|]; try done.
  destruct (truthy_str id'); [|done].
  destruct (decide (id' = id)); [eauto|done].
Qed.

(** Every tool message with a non-empty id gets its id into the map. *)
Lemma collectToolMessages_elem h ls m t c id :
  t ∈ ls → h !! t = Some (ToolMessage c id) → truthy_str id = true →
  is_Some (collectToolMessages h ls m !! id).
Proof.
  revert m. induction ls as [|l ls IH]; intros m Hin Ht Hid.
  - by apply elem_of_nil in Hin.
  - rewrite collectToolMessages_cons.
    apply elem_of_cons in Hin as [->|Hin]; [|by eapply IH].
    apply collectToolMessages_mono.
    rewrite collectToolMessages_single, Ht, Hid.
    destruct (decide (id = id)); [eauto|done].
Qed.

Lemma toolMessageMap_of_range h msgs new id t :
  toolMessageMap_of h msgs new !! id = Some t →
  t ∈ msgs ++ new ∧ ∃ c, h !! t = Some (ToolMessage c id).
Proof.
  unfold toolMessageMap_of. intros Hl.
  apply collectToolMessages_range in Hl as [Hl|[Hin Ht]].
  - apply collectToolMessages_range in Hl as [Hl|[Hin Ht]].
    + by rewrite lookup_empty in Hl.
    + split; [apply elem_of_app; by left|done].
  - split; [apply elem_of_app; by right|done].
Qed.

Lemma toolMessageMap_of_elem h msgs new t c id :
  t ∈ msgs ++ new → h !! t = Some (ToolMessage c id) →
  truthy_str id = true →
  is_Some (toolMessageMap_of h msgs new !! id).
Proof.
  unfold toolMessageMap_of. intros Hin Ht Hid.
  apply elem_of_app in Hin as [Hin|Hin].
  - apply collectToolMessages_mono. by eapply collectToolMessages_elem.
  - by eapply collectToolMessages_elem.
Qed.

Lemma usable_id_Some tc id :
  usable_id tc = Some id → tc_id tc = Some id ∧ truthy_str id = true.
Proof.
  unfold usable_id. destruct (tc_id tc) as [i|]; [|done].
  destruct (truthy_str i) eqn:E; [|done]. by intros [= ->].
Qed.

Lemma allToolCallsHaveResponses_spec m calls :
  allToolCallsHaveResponses m calls = true
  ↔ Forall (fun tc => ∃ id t, usable_id tc = Some id ∧ m !! id = Some t)
           calls.
Proof.
  unfold allToolCallsHaveResponses.
  rewrite forallb_forall, Forall_forall. setoid_rewrite <- list_elem_of_In.
  split; intros Hall tc Hin; specialize (Hall tc Hin).
  - destruct (usable_id tc) as [id|]; [|done].
    apply bool_decide_eq_true in Hall as [t Ht]. eauto.
  - destruct Hall as (id & t & -> & Ht). apply bool_decide_eq_true. eauto.
Qed.
End MapFacts.

(** ** Pushing the answers of an admitted assistant message *)

Section PushFacts.
Implicit Types (h : heap) (m : gmap string loc) (acc seen ts : list loc).

Lemma elem_of_fresh_in_order seen ts t :
  t ∈ fresh_in_order seen ts ↔ t ∈ ts ∧ t ∉ seen.
Proof.
  revert seen. induction ts as [|x ts IH]; intros seen; simpl.
  - split; [by intros ?%elem_of_nil|by intros [?%elem_of_nil _]].
  - case_bool_decide as Hx.
    + rewrite IH, elem_of_cons. split; [intros [? ?]; split; [by right|done]|].
      intros [[->|?] ?]; [done|by split].
    + rewrite elem_of_cons, IH, elem_of_cons, elem_of_app, list_elem_of_singleton.
      split.
      * intros [->|[? Hn]]; [by split; [left|]|]. split; [by right|tauto].
      * intros [[->|?] Hn]; [by left|].
        destruct (decide (t = x)) as [->|]; [by left|right; tauto].
Qed.

Lemma NoDup_fresh_in_order seen ts : NoDup (fresh_in_order seen ts).
Proof.
  revert seen. induction ts as [|x ts IH]; intros seen; simpl.
  - constructor.
  - case_bool_decide; [done|]. constructor; [|done].
    rewrite elem_of_fresh_in_order, elem_of_app, list_elem_of_singleton.
    tauto.
Qed.

Lemma sublist_fresh_in_order seen ts : sublist (fresh_in_order seen ts) ts.
Proof.
  revert seen. induction ts as [|x ts IH]; intros seen; simpl; [done|].
  case_bool_decide; [by apply sublist_cons|by apply sublist_skip].
Qed.

(** Nothing is skipped when the answers are distinct and all new. *)
Lemma fresh_in_order_all seen ts :
  NoDup ts → (∀ t, t ∈ ts → t ∉ seen) → fresh_in_order seen ts = ts.
Proof.
  revert seen. induction ts as [|x ts IH]; intros seen Hnd Hnew; [done|].
  simpl. apply NoDup_cons in Hnd as [Hx Hnd].
  case_bool_decide as Hin; [by destruct (Hnew x); [left|]|].
  f_equal. apply IH; [done|]. intros t Ht.
  rewrite elem_of_app, list_elem_of_singleton. intros [?| ->]; [|done].
  by apply (Hnew t); [right|].
Qed.

(** [pushToolMessages] appends, directly behind what is already there, the
    answers that are new, in request order. *)
Lemma pushToolMessages_fresh m calls acc :
  pushToolMessages m calls acc = acc ++ fresh_in_order acc (answers m calls).
Proof.
  revert acc. unfold pushToolMessages, answers.
  induction calls as [|tc calls IH]; intros acc; simpl.
  - by rewrite app_nil_r.
  - destruct (usable_id tc ≫= (m !!.)) as [t|] eqn:E; simpl; [|done].
    unfold includes. case_bool_decide; [done|].
    by rewrite IH, <- app_assoc.
Qed.

Lemma answers_spec m calls t :
  t ∈ answers m calls
  ↔ ∃ tc id, tc ∈ calls ∧ usable_id tc = Some id ∧ m !! id = Some t.
Proof.
  unfold answers. rewrite list_elem_of_omap. split.
  - intros (tc & Hin & Ht). destruct (usable_id tc) as [id|] eqn:E; [|done].
    simpl in Ht. eauto.
  - intros (tc & id & Hin & E & Ht). exists tc. split; [done|].
    by rewrite E.
Qed.

(** When the requests are answered one to one by [results], in order, and
    the map sends each id to that answer, the answers are [results]. *)
Lemma answers_Forall2 h m calls results :
  Forall2 (answers_request h) calls results →
  (∀ t c id, t ∈ results → h !! t = Some (ToolMessage c id) →
             truthy_str id = true → m !! id = Some t) →
  answers m calls = results.
Proof.
  unfold answers. induction 1 as [|tc t calls results Htc _ IH]; intros Hm.
  - done.
  - destruct Htc as (id & c & Hid & Ht). simpl. rewrite Hid. simpl.
    apply usable_id_Some in Hid as [_ Hid].
    rewrite (Hm t c id); [|by left|done|done]. simpl. f_equal.
    apply IH. intros t' c' id' Hin. apply Hm. by right.
Qed.
End PushFacts.

(** ** The filtering pass *)

Section FilterFacts.
Implicit Types (h : heap) (m : gmap string loc) (acc msgs : list loc).

Lemma filter_pass_app h m xs ys acc :
  filter_pass h m (xs ++ ys) acc = filter_pass h m ys (filter_pass h m xs acc).
Proof. apply foldl_app. Qed.

(** A step only appends. *)
Lemma filter_step_prefix h m acc msg :
  acc `prefix_of` filter_step h m acc msg.
Proof.
  unfold filter_step.
  destruct (h !! msg) as [[ | |c [[|tc tcs]|]|c id]|];
    try by apply prefix_app_r.
  - destruct (allToolCallsHaveResponses m (tc :: tcs)); [|done].
    rewrite pushToolMessages_fresh, <- app_assoc. by apply prefix_app_r.
  - destruct (truthy_str id); [|by apply prefix_app_r].
    destruct (includes acc msg); [done|by apply prefix_app_r].
Qed.

Lemma filter_pass_prefix h m msgs acc :
  acc `prefix_of` filter_pass h m msgs acc.
Proof.
  revert acc. induction msgs as [|x msgs IH]; intros acc; [done|].
  etrans; [apply (filter_step_prefix h m acc x)|apply IH].
Qed.

(** Every object of the output comes from the history or from the map. *)
Lemma filter_step_elem h m acc msg x :
  x ∈ filter_step h m acc msg →
  x ∈ acc ∨ x = msg ∨ ∃ id, m !! id = Some x.
Proof.
  unfold filter_step.
  destruct (h !! msg) as [[ | |c [[|tc tcs]|]|c id]|];
    try (rewrite elem_of_app, list_elem_of_singleton; tauto).
  - destruct (allToolCallsHaveResponses m (tc :: tcs)); [|tauto].
    rewrite pushToolMessages_fresh, elem_of_app, elem_of_fresh_in_order,
      elem_of_app, list_elem_of_singleton, answers_spec.
    intros [[?|?]|[(tc' & id & _ & _ & Hm) _]]; eauto.
  - destruct (truthy_str id);
      [|rewrite elem_of_app, list_elem_of_singleton; tauto].
    destruct (includes acc msg); [tauto|].
    rewrite elem_of_app, list_elem_of_singleton; tauto.
Qed.
End FilterFacts.

(** ** [processMessages] and the filtering pass *)

Section LoopFacts.
Context {World : Type} (P : Platform) (lg : LoggerVersion).
Implicit Types (h : heap) (m : gmap string loc) (st : State World).

Lemma processMessages_step_normal h m f1 f2 msg acc st acc' st' :
  processMessages_step P lg h m f1 f2 msg acc st = (Normal acc', st') →
  acc' = filter_step h m acc msg
  ∧ st_heap st' = st_heap st ∧ st_world st' = st_world st.
Proof.
  unfold processMessages_step, filter_step.
  destruct (h !! msg) as [[ | |c [[|tc tcs]|]|c id]|];
    try (unfold_monad; by intros [= <- <-]).
  - destruct (allToolCallsHaveResponses m (tc :: tcs));
      [unfold_monad; by intros [= <- <-]|].
    destruct (f1 || f2), lg; unfold_monad; intros [= <- <-]; done.
  - destruct (truthy_str id); unfold_monad; by intros [= <- <-].
Qed.

Lemma processMessages_loop_normal h m f1 f2 msgs acc st out st' :
  processMessages_loop P lg h m f1 f2 msgs acc st = (Normal out, st') →
  out = filter_pass h m msgs acc
  ∧ st_heap st' = st_heap st ∧ st_world st' = st_world st.
Proof.
  revert acc st. induction msgs as [|msg msgs IH]; intros acc st; simpl.
  - unfold ret. by intros [= <- <-].
  - unfold bind at 1.
    destruct (processMessages_step P lg h m f1 f2 msg acc st)
      as [[acc1|e] st1] eqn:E; [|done].
    apply processMessages_step_normal in E as (-> & Hh & Hw).
    intros Hl. apply IH in Hl as (-> & Hh' & Hw').
    split; [done|]. by rewrite Hh', Hw'.
Qed.

(** The pass returns whenever the logger does not throw on the message it
    excludes. *)
Lemma processMessages_loop_returns h m f1 f2 msgs acc st :
  lg = WinstonPassThrough ∨ f1 || f2 = true →
  ∃ st', processMessages_loop P lg h m f1 f2 msgs acc st
         = (Normal (filter_pass h m msgs acc), st').
Proof.
  intros Hlg. revert acc st.
  induction msgs as [|msg msgs IH]; intros acc st; simpl; [by eexists|].
  unfold bind at 1.
  assert (∃ st1, processMessages_step P lg h m f1 f2 msg acc st
                 = (Normal (filter_step h m acc msg), st1)) as [st1 ->].
  { unfold processMessages_step, filter_step.
    destruct (h !! msg) as [[ | |c [[|tc tcs]|]|c id]|];
      try (unfold_monad; by eexists).
    - destruct (allToolCallsHaveResponses m (tc :: tcs));
        [unfold_monad; by eexists|].
      destruct Hlg as [->| ->]; [destruct (f1 || f2)|];
        unfold_monad; by eexists.
    - destruct (truthy_str id); unfold_monad; by eexists. }
  apply IH.
Qed.

(** Nothing is logged when every assistant message with requests is
    admitted. *)
Lemma processMessages_loop_quiet h m f1 f2 msgs acc st :
  (∀ a c calls, a ∈ msgs → h !! a = Some (AIMessage c (Some calls)) →
                calls ≠ [] → allToolCallsHaveResponses m calls = true) →
  processMessages_loop P lg h m f1 f2 msgs acc st
  = (Normal (filter_pass h m msgs acc), st).
Proof.
  revert acc st.
  induction msgs as [|msg msgs IH]; intros acc st Hadm; simpl; [done|].
  unfold bind at 1.
  assert (processMessages_step P lg h m f1 f2 msg acc st
          = (Normal (filter_step h m acc msg), st)) as ->.
  { unfold processMessages_step, filter_step.
    destruct (h !! msg) as [[ | |c [[|tc tcs]|]|c id]|] eqn:E; try done.
    - by rewrite (Hadm msg c (tc :: tcs)); [|left|..].
    - by destruct (truthy_str id). }
  apply IH. intros a c calls Hin. apply Hadm. by right.
Qed.

Lemma processMessages_normal msgs new f1 f2 st out st' :
  processMessages P lg msgs new f1 f2 st = (Normal out, st') →
  out = filter_pass (st_heap st) (toolMessageMap_of (st_heap st) msgs new)
                    msgs []
  ∧ st_heap st' = st_heap st ∧ st_world st' = st_world st.
Proof.
  unfold processMessages, bind, get_heap. apply processMessages_loop_normal.
Qed.

Lemma processMessages_returns msgs new f1 f2 st :
  lg = WinstonPassThrough ∨ f1 || f2 = true →
  ∃ st', processMessages P lg msgs new f1 f2 st
         = (Normal (filter_pass (st_heap st)
                      (toolMessageMap_of (st_heap st) msgs new) msgs []),
            st').
Proof.
  unfold processMessages, bind, get_heap.
  apply processMessages_loop_returns.
Qed.
End LoopFacts.

(** ** Validation *)

Section ValidationFacts.
Implicit Types (h : heap) (msgs : list loc).

Lemma elem_of_ordered_add id ids x :
  x ∈ ordered_add id ids ↔ x ∈ ids ∨ x = id.
Proof.
  unfold ordered_add. case_bool_decide.
  - split; [by left|]. by intros [?| ->].
  - by rewrite elem_of_app, list_elem_of_singleton.
Qed.

Lemma elem_of_addToolCallIds calls ids x :
  x ∈ addToolCallIds calls ids
  ↔ x ∈ ids ∨ ∃ tc, tc ∈ calls ∧ usable_id tc = Some x.
Proof.
  unfold addToolCallIds. revert ids.
  induction calls as [|tc calls IH]; intros ids; simpl.
  - split; [by left|]. by intros [?|(? & ?%elem_of_nil & _)].
  - rewrite IH. split.
    + intros [Hx|(tc' & Hin & Hid)].
      * destruct (usable_id tc) as [id|] eqn:E; [|by left].
        apply elem_of_ordered_add in Hx as [?| ->]; [by left|].
        right. exists tc. split; [by left|done].
      * right. exists tc'. split; [by right|done].
    + intros [Hx|(tc' & Hin & Hid)].
      * left. destruct (usable_id tc); [|done].
        apply elem_of_ordered_add. by left.
      * apply elem_of_cons in Hin as [->|Hin].
        -- left. rewrite Hid. apply elem_of_ordered_add. by right.
        -- right. eauto.
Qed.

Lemma collectIds_spec h msgs ids tids :
  (∀ x, x ∈ (collectIds h msgs (ids, tids)).1 ↔ x ∈ ids ∨ requested h msgs x)
  ∧ (∀ x, x ∈ (collectIds h msgs (ids, tids)).2
          ↔ x ∈ tids ∨ has_result h msgs x).
Proof.
  unfold collectIds. revert ids tids.
  induction msgs as [|msg msgs IH]; intros ids tids; simpl.
  - split; intros x; (split; [by left|]).
    + by intros [?|(? & ? & ? & ? & ?%elem_of_nil & _)].
    + by intros [?|(? & ? & ?%elem_of_nil & _)].
  - match goal with |- context [foldl _ (?a, ?b) msgs] =>
      destruct (IH a b) as [IH1 IH2] end.
    split; intros x; [rewrite IH1|rewrite IH2]; clear IH IH1 IH2.
    + split.
      * intros [Hx|(a & c & calls & tc & Hin & Ha & Htc & Hid)].
        -- destruct (h !! msg) as [[ | |c [calls|]|c id]|] eqn:E;
             try by left.
           apply elem_of_addToolCallIds in Hx as [?|(tc & Htc & Hid)];
             [by left|].
           right. exists msg, c, calls, tc. split; [by left|done].
        -- right. exists a, c, calls, tc. split; [by right|done].
      * intros [Hx|(a & c & calls & tc & Hin & Ha & Htc & Hid)].
        -- left. destruct (h !! msg) as [[ | |c [calls|]|c id]|]; try done.
           apply elem_of_addToolCallIds. by left.
        -- apply elem_of_cons in Hin as [->|Hin].
           ++ left. rewrite Ha. apply elem_of_addToolCallIds. eauto.
           ++ right. exists a, c, calls, tc. done.
    + split.
      * intros [Hx|(t & c & Hin & Ht & Hid)].
        -- destruct (h !! msg) as [[ | |c ?|c id]|] eqn:E; try by left.
           destruct (truthy_str id) eqn:Hid; [|by left].
           apply elem_of_union in Hx as [->%elem_of_singleton|?];
             [|by left].
           right. exists msg, c. split; [by left|done].
        -- right. exists t, c. split; [by right|done].
      * intros [Hx|(t & c & Hin & Ht & Hid)].
        -- left. destruct (h !! msg) as [[ | |c ?|c id]|]; try done.
           destruct (truthy_str id); [|done].
           apply elem_of_union. by right.
        -- apply elem_of_cons in Hin as [->|Hin].
           ++ left. rewrite Ht, Hid. apply elem_of_union. left.
              by apply elem_of_singleton.
           ++ right. exists t, c. done.
Qed.

(** The ids reported missing are the requested ids without a result. *)
Lemma elem_of_missingToolCallIds h msgs id :
  id ∈ missingToolCallIds (validateToolCalls h msgs)
  ↔ requested h msgs id ∧ ¬ has_result h msgs id.
Proof.
  unfold validateToolCalls. simpl.
  destruct (collectIds_spec h msgs [] ∅) as [H1 H2].
  rewrite list_elem_of_filter, H1, H2.
  split.
  - intros [Hn [?%elem_of_nil|Hr]]; [done|]. split; [done|].
    intros ?. apply Hn. by right.
  - intros [Hr Hn]. split; [|by right].
    intros [?%elem_of_empty|?]; [done|by apply Hn].
Qed.

Lemma isValid_spec h msgs :
  isValid (validateToolCalls h msgs) = true
  ↔ ∀ id, requested h msgs id → has_result h msgs id.
Proof.
  assert (isValid (validateToolCalls h msgs)
          = bool_decide (missingToolCallIds (validateToolCalls h msgs) = []))
    as -> by done.
  rewrite bool_decide_eq_true. split.
  - intros Hnil id Hr.
    destruct (collectIds_spec h msgs [] ∅) as [_ H2].
    destruct (decide (id ∈ (collectIds h msgs ([], ∅)).2)) as [Hin|Hn].
    { by apply H2 in Hin as [?%elem_of_empty|?]. }
    assert (id ∈ missingToolCallIds (validateToolCalls h msgs)) as Hm.
    { apply elem_of_missingToolCallIds. split; [done|].
      intros Hres. apply Hn, H2. by right. }
    rewrite Hnil in Hm. by apply elem_of_nil in Hm.
  - intros Hall.
    destruct (missingToolCallIds (validateToolCalls h msgs)) as [|id l] eqn:E;
      [done|].
    assert (id ∈ missingToolCallIds (validateToolCalls h msgs)) as Hm
      by (rewrite E; by left).
    apply elem_of_missingToolCallIds in Hm as [Hr Hn].
    by destruct Hn; apply Hall.
Qed.
End ValidationFacts.

(** ** Completeness of the filtering pass *)

Section Completeness.
Implicit Types (h : heap) (m : gmap string loc) (acc msgs : list loc).

Lemma filter_step_answered h m acc msg :
  map_of_tool_messages h m →
  answered_by_map h m acc →
  answered_by_map h m (filter_step h m acc msg).
Proof.
  intros Hm IH a c calls tc Hin Ha Htc.
  assert (a ∈ acc →
          ∃ id t, usable_id tc = Some id ∧ m !! id = Some t
                  ∧ t ∈ filter_step h m acc msg) as Hold.
  { intros Hacc. destruct (IH a c calls tc Hacc Ha Htc) as (id & t & ? & ? & ?).
    exists id, t. split_and!; [done..|].
    by eapply elem_of_prefix; [|apply filter_step_prefix]. }
  revert Hin. unfold filter_step in *.
  destruct (h !! msg) as [[ | |c0 [[|tc0 tcs]|]|c0 id0]|] eqn:E;
    try (rewrite elem_of_app, list_elem_of_singleton;
         intros [?| ->]; [by apply Hold|congruence]).
  - rewrite elem_of_app, list_elem_of_singleton.
    intros [?| ->]; [by apply Hold|].
    rewrite E in Ha. invert Ha. by apply elem_of_nil in Htc.
  - destruct (allToolCallsHaveResponses m (tc0 :: tcs)) eqn:Hadm;
      [|by apply Hold].
    rewrite pushToolMessages_fresh in *.
    rewrite elem_of_app, elem_of_fresh_in_order, elem_of_app,
      list_elem_of_singleton.
    intros [[?| ->]|[Hans _]]; [by apply Hold| |].
    + rewrite E in Ha. invert Ha.
      apply allToolCallsHaveResponses_spec in Hadm.
      rewrite Forall_forall in Hadm.
      destruct (Hadm tc) as (id & t & Hid & Ht); [done|].
      exists id, t. split_and!; [done..|].
      destruct (decide (t ∈ acc ++ [msg])) as [?|Hn];
        [apply elem_of_app; by left|].
      apply elem_of_app. right. apply elem_of_fresh_in_order.
      split; [|done]. apply answers_spec. eauto.
    + apply answers_spec in Hans as (_ & id & _ & _ & Ht).
      apply Hm in Ht as [c' Ht]. congruence.
  - destruct (truthy_str id0).
    + destruct (includes acc msg); [by apply Hold|].
      rewrite elem_of_app, list_elem_of_singleton.
      intros [?| ->]; [by apply Hold|congruence].
    + rewrite elem_of_app, list_elem_of_singleton.
      intros [?| ->]; [by apply Hold|congruence].
Qed.

Lemma filter_pass_answered h m msgs acc :
  map_of_tool_messages h m →
  answered_by_map h m acc →
  answered_by_map h m (filter_pass h m msgs acc).
Proof.
  intros Hm. revert acc. induction msgs as [|msg msgs IH]; intros acc Hacc.
  - done.
  - apply IH. by apply filter_step_answered.
Qed.

Lemma toolMessageMap_of_tool_messages h msgs new :
  map_of_tool_messages h (toolMessageMap_of h msgs new).
Proof. intros id t Ht. by apply toolMessageMap_of_range in Ht as [_ ?]. Qed.

(** Where an admitted assistant message sits in the output. *)
Lemma filter_pass_placement h m before a after c calls :
  h !! a = Some (AIMessage c (Some calls)) → calls ≠ [] →
  allToolCallsHaveResponses m calls = true →
  ∃ post,
    filter_pass h m (before ++ a :: after) []
    = filter_pass h m before [] ++ [a]
      ++ fresh_in_order (filter_pass h m before [] ++ [a]) (answers m calls)
      ++ post.
Proof.
  intros Ha Hne Hadm. rewrite filter_pass_app.
  set (pre := filter_pass h m before []).
  change (filter_pass h m (a :: after) pre)
    with (filter_pass h m after (filter_step h m pre a)).
  assert (filter_step h m pre a
          = pre ++ [a] ++ fresh_in_order (pre ++ [a]) (answers m calls)) as ->.
  { unfold filter_step. rewrite Ha. destruct calls as [|tc tcs]; [done|].
    by rewrite Hadm, pushToolMessages_fresh, <- app_assoc. }
  destruct (filter_pass_prefix h m after
              (pre ++ [a] ++ fresh_in_order (pre ++ [a]) (answers m calls)))
    as [post Hpost].
  exists post. rewrite Hpost. by rewrite <- !app_assoc.
Qed.
End Completeness.

(** * The claims *)

(** ** C1: completeness of the filtering pass *)

(** C1, as worded, fails: a tool message that precedes its assistant message
    in the history stays in front of it, so the request has no result later
    in the list. *)
Lemma C1_result_stays_in_front :
  processMessages demo_platform ThrowOnError [0; 1]%nat [] false false
    (demo_state result_first_heap)
  = (Normal [0; 1]%nat, demo_state result_first_heap)
  ∧ ¬ answered_later result_first_heap [0; 1]%nat.
Proof.
  split; [by vm_compute|].
  intros Hlater.
  destruct (Hlater 1%nat 1%nat (JStr EmptyString) [request "call_1"]
              (request "call_1"))
    as (id & j & t & c' & _ & Hlt & Hj & _); [done|done|by left|].
  destruct j as [|[|j]]; [lia|lia|done].
Qed.

(** C1, amended.  Whenever the filtering pass returns a list [out]:
    - every request of an assistant message of [out] has a usable id and a
      tool message with that id somewhere in [out] (not necessarily later),
      and that tool message comes from the history or from the new batch;
    - [out] passes [validateToolCalls];
    - an admitted assistant message is directly followed by those of its
      answers that are not yet in the output, in request order. *)
Theorem processMessages_complete {World : Type} (P : Platform)
    (lg : LoggerVersion) (msgs new : list loc) (f1 f2 : bool)
    (st st' : State World) (out : list loc) :
  processMessages P lg msgs new f1 f2 st = (Normal out, st') →
  let h := st_heap st in
  let m := toolMessageMap_of h msgs new in
  answered h out
  ∧ (∀ a c calls tc,
       a ∈ out → h !! a = Some (AIMessage c (Some calls)) → tc ∈ calls →
       ∃ id t c', usable_id tc = Some id ∧ t ∈ msgs ++ new
                  ∧ h !! t = Some (ToolMessage c' id))
  ∧ isValid (validateToolCalls h out) = true
  ∧ (∀ before a after c calls,
       msgs = before ++ a :: after →
       h !! a = Some (AIMessage c (Some calls)) → calls ≠ [] → a ∈ out →
       ∃ post,
         let pre := filter_pass h m before [] in
         out = pre ++ [a] ++ fresh_in_order (pre ++ [a]) (answers m calls)
               ++ post).
Proof.
  intros Hrun h m. apply processMessages_normal in Hrun as (-> & _ & _).
  fold h m.
  assert (answered_by_map h m (filter_pass h m msgs [])) as Hans.
  { apply filter_pass_answered; [apply toolMessageMap_of_tool_messages|].
    by intros a c calls tc ?%elem_of_nil. }
  assert (answered h (filter_pass h m msgs [])) as Hansw.
  { intros a c calls tc Hin Ha Htc.
    destruct (Hans a c calls tc Hin Ha Htc) as (id & t & Hid & Ht & Hout).
    destruct (toolMessageMap_of_tool_messages h msgs new id t Ht) as [c' Hc].
    by exists id, t, c'. }
  assert (∀ a c calls tc,
            a ∈ filter_pass h m msgs [] →
            h !! a = Some (AIMessage c (Some calls)) → tc ∈ calls →
            ∃ id t c', usable_id tc = Some id ∧ t ∈ msgs ++ new
                       ∧ h !! t = Some (ToolMessage c' id)) as Hsrc.
  { intros a c calls tc Hin Ha Htc.
    destruct (Hans a c calls tc Hin Ha Htc) as (id & t & Hid & Ht & Hout).
    apply toolMessageMap_of_range in Ht as [Hin' [c' Hc]].
    by exists id, t, c'. }
  split_and!; [done|done| |].
  - apply isValid_spec. intros id (a & c & calls & tc & Hin & Ha & Htc & Hid).
    destruct (Hansw a c calls tc Hin Ha Htc) as (id' & t & c' & Hid' & Ht & Hc).
    assert (id' = id) as -> by congruence.
    exists t, c'. split_and!; [done..|].
    by apply usable_id_Some in Hid as [_ ?].
  - intros before a after c calls -> Ha Hne Hin.
    apply (filter_pass_placement h m before a after c calls Ha Hne).
    apply allToolCallsHaveResponses_spec, Forall_forall. intros tc Htc.
    destruct (Hans a c calls tc Hin Ha Htc) as (id & t & Hid & Ht & _).
    eauto.
Qed.

(** On a history with an assistant message, two requests and the batch of
    their two results, the pass returns a complete list. *)
Lemma processMessages_complete_witness :
  isValid (validateToolCalls settled_heap [0; 1; 2; 3]%nat) = true.
Proof.
  refine (proj1 (proj2 (proj2
    (processMessages_complete demo_platform ThrowOnError
       [0; 1]%nat [2; 3]%nat true false
       (demo_state settled_heap) (demo_state settled_heap)
       [0; 1; 2; 3]%nat _)))).
  by vm_compute.
Defined.

(** ** C2: a settled history and an empty batch *)

Section SettledFacts.
Implicit Types (h : heap) (m : gmap string loc) (acc : list loc).

Lemma map_points_to_weaken h m S S' :
  (∀ t, t ∈ S' → t ∈ S) → map_points_to h m S → map_points_to h m S'.
Proof. intros Hsub Hm t c id Hin. apply Hm. by apply Hsub. Qed.

Lemma answers_request_truthy h tc t :
  answers_request h tc t →
  ∃ c id, h !! t = Some (ToolMessage c id) ∧ truthy_str id = true
          ∧ usable_id tc = Some id.
Proof.
  intros (id & c & Hid & Ht). exists c, id. split_and!; [done| |done].
  by apply usable_id_Some in Hid as [_ ?].
Qed.

Lemma admitted_of_answers h m calls results :
  Forall2 (answers_request h) calls results →
  map_points_to h m results →
  allToolCallsHaveResponses m calls = true.
Proof.
  intros Hall Hm. apply allToolCallsHaveResponses_spec.
  induction Hall as [|tc t calls results Htc _ IH]; constructor.
  - apply answers_request_truthy in Htc as (c & id & Ht & Hid & Hu).
    exists id, t. split; [done|]. eapply Hm; [by left|done..].
  - apply IH. eapply map_points_to_weaken; [|exact Hm]. intros ? ?. by right.
Qed.

(** Tool messages that are already in the output are skipped. *)
Lemma filter_pass_skip h m results acc :
  (∀ t, t ∈ results →
        t ∈ acc ∧ ∃ c id, h !! t = Some (ToolMessage c id)
                          ∧ truthy_str id = true) →
  filter_pass h m results acc = acc.
Proof.
  induction results as [|t results IH]; intros Hres; [done|].
  change (filter_pass h m (t :: results) acc)
    with (filter_pass h m results (filter_step h m acc t)).
  destruct (Hres t) as (Hin & c & id & Ht & Hid); [by left|].
  assert (filter_step h m acc t = acc) as ->.
  { unfold filter_step, includes. rewrite Ht, Hid. by rewrite bool_decide_true. }
  apply IH. intros t' Hin'. apply Hres. by right.
Qed.

Lemma filter_pass_in_order h m S :
  in_request_order h S →
  ∀ acc, NoDup (acc ++ S) → map_points_to h m S →
         filter_pass h m S acc = acc ++ S.
Proof.
  induction 1 as [|msg mm rest Hmsg Hcalls _ IH
                  |a c calls results rest Ha Hne Hres _ IH];
    intros acc Hnd Hm.
  - by rewrite app_nil_r.
  - change (filter_pass h m (msg :: rest) acc)
      with (filter_pass h m rest (filter_step h m acc msg)).
    assert (filter_step h m acc msg = acc ++ [msg]) as ->.
    { unfold filter_step, includes. rewrite Hmsg.
      destruct mm as [ | |c [[|tc tcs]|]|c id]; try done.
      destruct (truthy_str id); [|done].
      rewrite bool_decide_false; [done|].
      apply NoDup_app in Hnd as (_ & Hdis & _). intros Hin.
      apply (Hdis msg Hin). by left. }
    rewrite IH.
    + by rewrite <- app_assoc.
    + by rewrite <- app_assoc.
    + eapply map_points_to_weaken; [|exact Hm]. intros ? ?. by right.
  - change (filter_pass h m (a :: results ++ rest) acc)
      with (filter_pass h m (results ++ rest) (filter_step h m acc a)).
    assert (map_points_to h m results) as Hmres.
    { eapply map_points_to_weaken; [|exact Hm]. intros t Ht.
      right. apply elem_of_app. by left. }
    assert (NoDup ((acc ++ [a]) ++ results ++ rest)) as Hnd'
      by by rewrite <- app_assoc.
    assert (filter_step h m acc a = (acc ++ [a]) ++ results) as ->.
    { unfold filter_step. rewrite Ha. destruct calls as [|tc tcs]; [done|].
      rewrite (admitted_of_answers h m _ results Hres Hmres).
      rewrite pushToolMessages_fresh. f_equal.
      rewrite (answers_Forall2 h m _ results Hres Hmres).
      apply fresh_in_order_all.
      - apply NoDup_app in Hnd' as (_ & _ & Hnd').
        by apply NoDup_app in Hnd' as (Hnd' & _ & _).
      - apply NoDup_app in Hnd' as (_ & Hdis & _). intros t Ht Hin.
        apply (Hdis t Hin). apply elem_of_app. by left. }
    rewrite filter_pass_app, (filter_pass_skip h m results).
    + rewrite IH.
      * by rewrite <- !app_assoc.
      * by rewrite <- !app_assoc in *.
      * eapply map_points_to_weaken; [|exact Hm]. intros t Ht.
        right. apply elem_of_app. by right.
    + intros t Ht. split; [apply elem_of_app; by right|].
      apply list_elem_of_lookup in Ht as [i Hi].
      destruct (Forall2_lookup_r _ _ _ _ _ Hres Hi) as (tc & _ & Htc).
      apply answers_request_truthy in Htc as (c' & id & ? & ? & _). eauto.
Qed.

Lemma in_request_order_admitted h m S :
  in_request_order h S → map_points_to h m S →
  ∀ a c calls, a ∈ S → h !! a = Some (AIMessage c (Some calls)) →
               calls ≠ [] → allToolCallsHaveResponses m calls = true.
Proof.
  induction 1 as [|msg mm rest Hmsg Hcalls _ IH
                  |a0 c0 calls0 results rest Ha0 Hne0 Hres _ IH];
    intros Hm a c calls Hin Ha Hne.
  - by apply elem_of_nil in Hin.
  - apply elem_of_cons in Hin as [->|Hin].
    + rewrite Hmsg in Ha. invert Ha. by destruct calls.
    + eapply IH; [|done..]. eapply map_points_to_weaken; [|exact Hm].
      intros ? ?. by right.
  - apply elem_of_cons in Hin as [->|Hin].
    + rewrite Ha0 in Ha. invert Ha.
      eapply admitted_of_answers; [done|].
      eapply map_points_to_weaken; [|exact Hm]. intros t Ht.
      right. apply elem_of_app. by left.
    + apply elem_of_app in Hin as [Hin|Hin].
      * apply list_elem_of_lookup in Hin as [i Hi].
        destruct (Forall2_lookup_r _ _ _ _ _ Hres Hi) as (tc & _ & Htc).
        apply answers_request_truthy in Htc as (c' & id & ? & _). congruence.
      * eapply IH; [|done..]. eapply map_points_to_weaken; [|exact Hm].
        intros t Ht. right. apply elem_of_app. by right.
Qed.

Lemma toolMessageMap_of_points_to h H :
  one_result_per_id h H → map_points_to h (toolMessageMap_of h H []) H.
Proof.
  intros Huniq t c id Hin Ht Hid.
  destruct (toolMessageMap_of_elem h H [] t c id) as [t' Ht'];
    [by rewrite app_nil_r|done..|].
  rewrite Ht'. f_equal.
  apply toolMessageMap_of_range in Ht' as [Hin' [c' Hc']].
  rewrite app_nil_r in Hin'. by eapply Huniq.
Qed.
End SettledFacts.

Lemma createToolMessages_empty_batch {World : Type} (P : Platform)
    (last : option loc) (st : State World) :
  createToolMessages P [] last st = (Normal [], st).
Proof.
  unfold createToolMessages, bind, get_heap.
  by destruct (last ≫= _) as [[ | |c [calls|]|c id]|].
Qed.

(** C2, as worded, fails: the history below is fully settled, yet with an
    empty batch the two results come out in request order, not in the order
    they have in the history. *)
Lemma C2_results_reordered :
  fully_settled swapped_heap [0; 1; 2]%nat
  ∧ reconcile demo_platform ThrowOnError [0; 1; 2]%nat [] false false
      (demo_state swapped_heap)
    = (Normal [0; 2; 1]%nat, demo_state swapped_heap)
  ∧ [0; 2; 1]%nat ≠ [0; 1; 2]%nat.
Proof.
  split_and!; [|by vm_compute|done].
  intros a c calls tc Hin Ha Htc.
  repeat (apply elem_of_cons in Hin as [->|Hin]); try done.
  - invert Ha.
    repeat (apply elem_of_cons in Htc as [->|Htc]);
      [| |by apply elem_of_nil in Htc].
    + exists "call_1", 2%nat, (JStr "sunny").
      split_and!; [done| |done]. by do 2 right; left.
    + exists "call_2", 1%nat, (JStr "rain").
      split_and!; [done| |done]. by right; left.
  - by apply elem_of_nil in Hin.
Qed.

(** The two side conditions of the amended statement are needed as well:
    of two results for one id the later one is moved to the front, and a
    tool message object listed twice is kept once. *)
Lemma reconcile_duplicate_results :
  reconcile demo_platform ThrowOnError [0; 1; 2]%nat [] false false
    (demo_state twice_answered_heap)
  = (Normal [0; 2; 1]%nat, demo_state twice_answered_heap)
  ∧ reconcile demo_platform ThrowOnError [0; 1; 1]%nat [] false false
      (demo_state twice_answered_heap)
    = (Normal [0; 1]%nat, demo_state twice_answered_heap).
Proof. split; by vm_compute. Qed.

(** A history in request order is fully settled. *)
Lemma in_request_order_settled (h : heap) (H : list loc) :
  in_request_order h H → fully_settled h H.
Proof.
  induction 1 as [|msg mm rest Hmsg Hcalls _ IH
                  |a0 c0 calls0 results rest Ha0 Hne0 Hres _ IH];
    intros a c calls tc Hin Ha Htc.
  - by apply elem_of_nil in Hin.
  - apply elem_of_cons in Hin as [->|Hin].
    + rewrite Hmsg in Ha. invert Ha. destruct calls; [|done].
      by apply elem_of_nil in Htc.
    + destruct (IH a c calls tc Hin Ha Htc) as (id & t & c' & ? & ? & ?).
      exists id, t, c'. split_and!; [done| |done]. by right.
  - apply elem_of_cons in Hin as [->|Hin].
    + rewrite Ha0 in Ha. invert Ha.
      apply list_elem_of_lookup in Htc as [i Hi].
      destruct (Forall2_lookup_l _ _ _ _ _ Hres Hi) as (t & Ht & Htc).
      destruct Htc as (id & c' & Hid & Hc').
      exists id, t, c'. split_and!; [done| |done].
      right. apply elem_of_app. left. by eapply list_elem_of_lookup_2.
    + apply elem_of_app in Hin as [Hin|Hin].
      * apply list_elem_of_lookup in Hin as [i Hi].
        destruct (Forall2_lookup_r _ _ _ _ _ Hres Hi) as (tc' & _ & Htc').
        apply answers_request_truthy in Htc' as (c' & id & ? & _). congruence.
      * destruct (IH a c calls tc Hin Ha Htc) as (id & t & c' & ? & ? & ?).
        exists id, t, c'. split_and!; [done| |done].
        right. apply elem_of_app. by right.
Qed.

(** C2, amended.  For a history in which no message object occurs twice, no
    two tool messages answer the same id, and every assistant message with
    requests is directly followed by its results, one per request in request
    order, reconciling with an empty batch returns the history itself and
    leaves heap and log as they were. *)
Theorem reconcile_settled_unchanged {World : Type} (P : Platform)
    (lg : LoggerVersion) (H : list loc) (f1 f2 : bool) (st : State World) :
  in_request_order (st_heap st) H →
  NoDup H →
  one_result_per_id (st_heap st) H →
  reconcile P lg H [] f1 f2 st = (Normal H, st).
Proof.
  intros Hord Hnd Huniq.
  unfold reconcile, bind at 1, get_heap. unfold bind.
  rewrite createToolMessages_empty_batch.
  unfold processMessages, bind, get_heap.
  fold (toolMessageMap_of (st_heap st) H []).
  pose proof (toolMessageMap_of_points_to _ _ Huniq) as Hm.
  rewrite processMessages_loop_quiet.
  - by rewrite filter_pass_in_order.
  - by apply in_request_order_admitted.
Qed.

(** The settled five-message history comes back unchanged. *)
Lemma reconcile_settled_unchanged_witness :
  reconcile demo_platform ThrowOnError [0; 1; 2; 3; 4]%nat [] false false
    (demo_state settled_heap)
  = (Normal [0; 1; 2; 3; 4]%nat, demo_state settled_heap).
Proof.
  apply reconcile_settled_unchanged.
  - eapply iro_other; [reflexivity|reflexivity|].
    apply (iro_block settled_heap 1%nat (JStr EmptyString)
             [request "call_1"; request "call_2"] [2; 3]%nat [4%nat]).
    + reflexivity.
    + discriminate.
    + repeat constructor.
      * by exists "call_1", (JStr "sunny").
      * by exists "call_2", (JStr "rain").
    + eapply iro_other; [reflexivity|reflexivity|constructor].
  - apply (bool_decide_unpack _). by vm_compute.
  - intros t1 t2 c1 c2 id H1 H2 E1 E2.
    repeat (apply elem_of_cons in H1 as [->|H1]);
      try (by apply elem_of_nil in H1); try discriminate E1;
      repeat (apply elem_of_cons in H2 as [->|H2]);
      try (by apply elem_of_nil in H2); try discriminate E2;
      simpl in *; congruence.
Defined.

(** ** C10: tool messages of the history are always kept *)

Lemma filter_pass_keeps_tool_messages (h : heap) (m : gmap string loc)
    (msgs acc : list loc) (t : loc) (c : JsValue) (id : string) :
  t ∈ msgs → h !! t = Some (ToolMessage c id) → t ∈ filter_pass h m msgs acc.
Proof.
  revert acc. induction msgs as [|msg msgs IH]; intros acc Hin Ht.
  - by apply elem_of_nil in Hin.
  - change (filter_pass h m (msg :: msgs) acc)
      with (filter_pass h m msgs (filter_step h m acc msg)).
    apply elem_of_cons in Hin as [<-|Hin]; [|by apply IH].
    eapply elem_of_prefix; [|apply filter_pass_prefix].
    unfold filter_step, includes. rewrite Ht.
    destruct (truthy_str id); [|apply elem_of_app; right; by left].
    case_bool_decide; [done|apply elem_of_app; right; by left].
Qed.

(** C10.  Whenever the filtering pass returns, every tool message of the
    history is in its output, whatever happened to the assistant message
    that requested it: nothing checks that a tool message of the output has
    its request there. *)
Theorem processMessages_keeps_tool_messages {World : Type} (P : Platform)
    (lg : LoggerVersion) (msgs new : list loc) (f1 f2 : bool)
    (st st' : State World) (out : list loc) :
  processMessages P lg msgs new f1 f2 st = (Normal out, st') →
  ∀ t c id, t ∈ msgs → st_heap st !! t = Some (ToolMessage c id) → t ∈ out.
Proof.
  intros Hrun t c id Hin Ht.
  apply processMessages_normal in Hrun as (-> & _ & _).
  by eapply filter_pass_keeps_tool_messages.
Qed.

(** The result of [call_1] is kept although its assistant message is
    excluded, so the output holds a tool message whose id no assistant
    message of the output requests. *)
Lemma processMessages_keeps_tool_messages_witness :
  1%nat ∈ [1%nat]
  ∧ half_answered_heap !! 1%nat = Some (ToolMessage (JStr "sunny") "call_1")
  ∧ ¬ requested half_answered_heap [1%nat] "call_1".
Proof.
  split_and!.
  - refine (processMessages_keeps_tool_messages demo_platform
              ThrowOnError [0; 1]%nat [] true false
              (demo_state half_answered_heap) _ [1%nat] _
              1%nat (JStr "sunny") "call_1" _ _).
    + by vm_compute.
    + by right; left.
    + reflexivity.
  - reflexivity.
  - intros (a & c & calls & tc & Hin & Ha & _).
    apply list_elem_of_singleton in Hin as ->. discriminate Ha.
Defined.

(** ** C5: pairing records with requests *)

Section PairingFacts.
Context {World : Type} (P : Platform).
Implicit Types (st : State World) (calls : list ToolCallRequest).

Lemma find_first_after {A} (f : A → bool) (xs ys : list A) (a : A) :
  Forall (fun x => f x = false) xs → f a = true →
  List.find f (xs ++ a :: ys) = Some a.
Proof.
  induction 1 as [|x xs Hx _ IH]; intros Ha; simpl.
  - by rewrite Ha.
  - rewrite Hx. by apply IH.
Qed.

(** The most recent assistant message with requests is the one no later
    message with requests follows. *)
Lemma findLastAIMessageWithTools_last (h : heap) (before after : list loc)
    (a : loc) :
  carries_requests h a = true →
  Forall (fun l => carries_requests h l = false) after →
  findLastAIMessageWithTools h (before ++ a :: after) = Some a.
Proof.
  intros Ha Hafter. unfold findLastAIMessageWithTools.
  rewrite reverse_app, reverse_cons, <- app_assoc. simpl.
  apply find_first_after; [|done].
  by apply Forall_reverse.
Qed.

Lemma paired_messages_cons_usable calls index tc id r records :
  calls !! index = Some tc → usable_id tc = Some id →
  paired_messages P (drop index calls) (r :: records)
  = ToolMessage (resultContent P (result r)) id
    :: paired_messages P (drop (S index) calls) records.
Proof.
  intros Htc Hid. unfold paired_messages.
  rewrite (drop_S _ _ _ Htc). simpl. by rewrite Hid.
Qed.

Lemma paired_messages_cons_dropped calls index r records :
  calls !! index ≫= usable_id = None →
  paired_messages P (drop index calls) (r :: records)
  = paired_messages P (drop (S index) calls) records.
Proof.
  intros Hnone. unfold paired_messages.
  destruct (calls !! index) as [tc|] eqn:Htc.
  - rewrite (drop_S _ _ _ Htc). simpl in *. by rewrite Hnone.
  - apply lookup_ge_None in Htc.
    rewrite !drop_ge by lia. by destruct records.
Qed.

(** The loop allocates the paired messages at consecutive fresh locations,
    appends their references, and logs one warning per dropped record. *)
Lemma createToolMessages_forEach_spec calls index records toolMessages st :
  let created := paired_messages P (drop index calls) records in
  createToolMessages_forEach P calls index records toolMessages st
  = (Normal (toolMessages ++ seq (length (st_heap st)) (length created)),
     {| st_heap := st_heap st ++ created;
        st_logs := st_logs st ++ dropped_warnings calls index records;
        st_world := st_world st |}).
Proof.
  revert index toolMessages st.
  induction records as [|r records IH]; intros index toolMessages st.
  - simpl. unfold ret. destruct st. by rewrite !app_nil_r.
  - cbn [createToolMessages_forEach dropped_warnings].
    destruct (calls !! index ≫= usable_id) as [id|] eqn:Hid.
    + destruct (calls !! index) as [tc|] eqn:Htc; [|done]. simpl in Hid.
      rewrite (paired_messages_cons_usable _ _ _ _ _ _ Htc Hid).
      unfold bind, alloc. rewrite IH. simpl.
      rewrite length_app, Nat.add_1_r. by rewrite <- !app_assoc.
    + rewrite (paired_messages_cons_dropped _ _ _ _ Hid).
      unfold bind, logger_warn, write_log. rewrite IH. simpl.
      by rewrite <- !app_assoc.
Qed.
End PairingFacts.

Lemma elem_of_dropped_warnings (calls : list ToolCallRequest) (index : nat)
    (records : list ToolResult) (i : nat) (r : ToolResult) :
  records !! i = Some r →
  calls !! (index + i)%nat ≫= usable_id = None →
  dropped_warning (index + i) r ∈ dropped_warnings calls index records.
Proof.
  revert index i. induction records as [|r0 records IH]; intros index i Hr Hnone.
  - done.
  - simpl. destruct i as [|i].
    + rewrite Nat.add_0_r in *. simpl in Hr. invert Hr.
      rewrite Hnone. by left.
    + simpl in Hr. replace (index + S i)%nat with (S index + i)%nat in * by lia.
      destruct (calls !! index ≫= usable_id); [|right]; by apply IH.
Qed.

(** C5, as worded, fails: a record whose request exists but carries an empty
    id gets no tool message. *)
Lemma C5_request_without_id_dropped :
  createToolMessages demo_platform [sunny_record]
    (findLastAIMessageWithTools blank_id_heap [0%nat])
    (demo_state blank_id_heap)
  = (Normal [],
     {| st_heap := blank_id_heap;
        st_logs := [dropped_warning 0 sunny_record];
        st_world := tt |})
  ∧ ¬ every_paired_record_kept demo_platform blank_id_heap
        [blank_request] [sunny_record] [].
Proof.
  split; [by vm_compute|].
  intros Hkept.
  destruct (Hkept 0%nat _ _ eq_refl eq_refl) as (t & id & Hin & _).
  by apply elem_of_nil in Hin.
Qed.

(** C5, amended.  Let [a] be the most recent assistant message of the
    history that carries requests.  The records are paired by position with
    its requests: the record at index [i] becomes a new tool message whose
    [tool_call_id] is the id of request [i] when that request exists and has
    a non-empty id, with the record's result as content if it is a string
    and its [JSON.stringify] rendering otherwise; every other record (no
    request at its index, or a request without id or with an empty id) is
    logged as a warning and dropped. *)
Theorem createToolMessages_pairs_positionally {World : Type} (P : Platform)
    (before after : list loc) (a : loc) (c : JsValue)
    (calls : list ToolCallRequest) (records : list ToolResult)
    (st : State World) :
  st_heap st !! a = Some (AIMessage c (Some calls)) →
  calls ≠ [] →
  Forall (fun l => carries_requests (st_heap st) l = false) after →
  let H := before ++ a :: after in
  let created := paired_messages P calls records in
  findLastAIMessageWithTools (st_heap st) H = Some a
  ∧ createToolMessages P records (findLastAIMessageWithTools (st_heap st) H) st
    = (Normal (seq (length (st_heap st)) (length created)),
       {| st_heap := st_heap st ++ created;
          st_logs := st_logs st ++ dropped_warnings calls 0 records;
          st_world := st_world st |})
  ∧ (∀ i r tc id,
       records !! i = Some r → calls !! i = Some tc → usable_id tc = Some id →
       ToolMessage (resultContent P (result r)) id ∈ created)
  ∧ (∀ i r,
       records !! i = Some r → calls !! i ≫= usable_id = None →
       dropped_warning i r ∈ dropped_warnings calls 0 records)
  ∧ (∀ s, resultContent P (JStr s) = JStr s)
  ∧ (∀ v, (∀ s, v ≠ JStr s) → resultContent P v = JSON_stringify P v).
Proof.
  intros Ha Hne Hafter H created.
  assert (findLastAIMessageWithTools (st_heap st) H = Some a) as Hlast.
  { apply findLastAIMessageWithTools_last; [|done].
    unfold carries_requests. rewrite Ha. by destruct calls. }
  split_and!; [done| | | |done|].
  - rewrite Hlast. unfold createToolMessages, bind, get_heap. simpl.
    rewrite Ha.
    by rewrite (createToolMessages_forEach_spec P calls 0 records [] st).
  - intros i r tc id Hr Htc Hid. unfold created, paired_messages.
    apply list_elem_of_omap. exists (r, tc). split; [|by rewrite Hid].
    apply list_elem_of_lookup. exists i.
    by rewrite lookup_zip_with, Hr, Htc.
  - intros i r Hr Hnone.
    by apply (elem_of_dropped_warnings calls 0 records i r).
  - intros v Hv. destruct v; try done. by destruct (Hv s).
Qed.

(** Two requests and three records: two tool messages are created, the
    second with the rendered object as content, and the third record is
    dropped with a warning. *)
Lemma createToolMessages_pairs_positionally_witness :
  createToolMessages demo_platform three_records
    (findLastAIMessageWithTools pending_heap [0; 1]%nat)
    (demo_state pending_heap)
  = (Normal [2; 3]%nat,
     {| st_heap := pending_heap
                   ++ [ToolMessage (JStr "sunny") "call_1";
                       ToolMessage (JStr "{...}") "call_2"];
        st_logs := [dropped_warning 2 {| result_name := "search";
                                         result := JStr "extra" |}];
        st_world := tt |}).
Proof.
  refine (proj1 (proj2
    (createToolMessages_pairs_positionally demo_platform [0%nat] [] 1%nat
       (JStr EmptyString) [request "call_1"; request "call_2"]
       three_records (demo_state pending_heap) _ _ _))).
  - reflexivity.
  - discriminate.
  - constructor.
Defined.

(** ** C6: validation before the model is invoked *)

Lemma run_agent_abrupt {World : Type}
    (agentNode : AgentState → M World PartialState) (fuel : nat)
    (state : AgentState) (st st' : State World) (e : Thrown) :
  agentNode state st = (Abrupt e, st') →
  run_agent agentNode (S fuel) state st = ([], (Abrupt e, st')).
Proof. intros Hnode. simpl. by rewrite Hnode. Qed.

Lemma invoke_abrupt {World : Type}
    (agentNode : AgentState → M World PartialState) (fuel : nat)
    (state : AgentState) (st st' : State World) (e : Thrown) :
  agentNode state st = (Abrupt e, st') →
  invoke agentNode (S fuel) state st = (Abrupt e, st').
Proof.
  intros Hnode. unfold invoke, stream.
  change (next_node START state) with (Some agent).
  by rewrite (run_agent_abrupt _ _ _ _ _ _ Hnode).
Qed.

(** C6.  With the logger of the current sources: when some request id of an
    assistant message of the outgoing list has no tool message with that id
    in the list, the validation reports it in an error entry that carries the
    missing ids and throws.  Whatever follows the validation in the agent
    step (the model call among it) does not run, the workflow ends the turn
    with that error, and the heap is untouched: no message is created to
    patch the list. *)
Theorem getLLMWithTools_rejects_dangling_request {World : Type}
    (P : Platform) (toolRegistry : gmap string (Tool World))
    (msgs : list loc) (state : AgentState) (st : State World) (id : string) :
  requested (st_heap st) msgs id →
  ¬ has_result (st_heap st) msgs id →
  let validation := validateToolCalls (st_heap st) msgs in
  ∃ e entry others,
    let failed :=
      {| st_heap := st_heap st;
         st_logs := st_logs st ++ [entry];
         st_world := st_world st |} in
    isValid validation = false
    ∧ id ∈ missingToolCallIds validation
    ∧ level entry = error
    ∧ meta entry
      = [JObj (("missingToolCallIds",
                JArr (JStr <$> missingToolCallIds validation)) :: others)]
    ∧ getLLMWithTools P ThrowOnError toolRegistry msgs state st
      = (Abrupt e, failed)
    ∧ (∀ (A : Type) (k : M World A),
         (getLLMWithTools P ThrowOnError toolRegistry msgs state ;; k) st
         = (Abrupt e, failed))
    ∧ (∀ (k : AgentState → M World PartialState) (fuel : nat),
         invoke (fun s =>
                   getLLMWithTools P ThrowOnError toolRegistry msgs s ;; k s)
                (S fuel) state st
         = (Abrupt e, failed)).
Proof.
  intros Hreq Hnone validation.
  assert (isValid validation = false) as Hinvalid.
  { destruct (isValid validation) eqn:E; [|done].
    destruct Hnone. by apply (proj1 (isValid_spec _ _) E). }
  assert (id ∈ missingToolCallIds validation) as Hmissing
    by by apply elem_of_missingToolCallIds.
  assert (∃ e entry others,
            level entry = error
            ∧ meta entry
              = [JObj (("missingToolCallIds",
                        JArr (JStr <$> missingToolCallIds validation))
                       :: others)]
            ∧ getLLMWithTools P ThrowOnError toolRegistry msgs state st
              = (Abrupt e,
                 {| st_heap := st_heap st;
                    st_logs := st_logs st ++ [entry];
                    st_world := st_world st |}))
    as (e & entry & others & Hlevel & Hmeta & Hrun).
  { unfold getLLMWithTools, bind at 1, get_heap. fold validation.
    unfold bind at 1. rewrite Hinvalid.
    destruct (negb (nonempty (toolResults state)));
      unfold logger_error, bind, write_log, throw; simpl;
      eexists _, {| level := error |}, _; split_and!; reflexivity. }
  exists e, entry, others. split_and!; try done.
  - intros A k. unfold bind. by rewrite Hrun.
  - intros k fuel. apply invoke_abrupt. unfold bind. by rewrite Hrun.
Qed.

(** With the first logger the same validation only logs: the step goes on
    to the model call. *)
Lemma getLLMWithTools_first_logger_returns {World : Type} (P : Platform)
    (toolRegistry : gmap string (Tool World)) (msgs : list loc)
    (state : AgentState) (st : State World) :
  ∃ st',
    getLLMWithTools P WinstonPassThrough toolRegistry msgs state st
    = (Normal tt, st')
    ∧ st_heap st' = st_heap st ∧ st_world st' = st_world st.
Proof.
  unfold getLLMWithTools, bind at 1, get_heap. unfold bind at 1.
  destruct (isValid (validateToolCalls (st_heap st) msgs)).
  - unfold ret, logger_info, write_log. eauto.
  - destruct (negb (nonempty (toolResults state)));
      unfold logger_error, logger_info, bind, write_log, ret; simpl; eauto.
Qed.

(** On the list [AI(call_1, call_2), Tool(call_1)] the request [call_2] has
    no result: validation throws and logs one error entry. *)
Lemma getLLMWithTools_rejects_dangling_request_witness :
  ∃ e entry,
    getLLMWithTools demo_platform ThrowOnError (∅ : gmap string (Tool unit))
      [0; 1]%nat
      {| messages := [0; 1]%nat; toolCalls := []; toolResults := [] |}
      (demo_state half_answered_heap)
    = (Abrupt e,
       {| st_heap := half_answered_heap; st_logs := [entry]; st_world := tt |})
    ∧ level entry = error.
Proof.
  destruct (getLLMWithTools_rejects_dangling_request demo_platform
              (∅ : gmap string (Tool unit)) [0; 1]%nat
              {| messages := [0; 1]%nat; toolCalls := []; toolResults := [] |}
              (demo_state half_answered_heap) "call_2")
    as (e & entry & others & _ & _ & Hlevel & _ & Hrun & _).
  - exists 0%nat, (JStr EmptyString), [request "call_1"; request "call_2"],
      (request "call_2").
    split_and!; [by left|done|by right; left|done].
  - intros (t & c & Hin & Ht & _).
    repeat (apply elem_of_cons in Hin as [->|Hin]); try discriminate Ht.
    by apply elem_of_nil in Hin.
  - by exists e, entry.
Defined.

(** ** C3 and C4: the tool executor *)

Section ExecutorFacts.
Context {World : Type} (P : Platform).
Variable toolRegistry : gmap string (Tool World).
Implicit Types (st : State World) (toolCall : ToolCall).

(** With the throwing logger the [catch] block never reaches its [push]:
    [logger.error] throws first. *)
Lemma record_failure_throws toolCall toolResults e st :
  ∃ e' entry,
    record_failure P ThrowOnError toolCall toolResults e st
    = (Abrupt e',
       {| st_heap := st_heap st;
          st_logs := st_logs st ++ [entry];
          st_world := st_world st |}).
Proof. unfold record_failure, logger_error, bind, write_log, throw. eauto. Qed.

(** With the throwing logger a call whose tool is not registered ends the
    whole batch: the calls behind it never run. *)
Lemma executeTools_loop_missing_tool_aborts toolCall rest toolResults st :
  toolRegistry !! call_name toolCall = None →
  ∃ e st',
    executeTools_loop P ThrowOnError toolRegistry (toolCall :: rest)
      toolResults st
    = (Abrupt e, st')
    ∧ st_world st' = st_world st.
Proof.
  intros Hnone. simpl. rewrite Hnone.
  unfold bind at 1, try_catch, logger_error, bind, write_log, throw,
    record_failure, logger_error, bind, write_log, throw.
  simpl. eauto.
Qed.

(** With the throwing logger a call whose tool rejects ends the whole batch
    as well. *)
Lemma executeTools_loop_rejecting_tool_aborts toolCall rest toolResults st
    tool e w :
  toolRegistry !! call_name toolCall = Some tool →
  execute tool (call_args toolCall) (st_world st) = (inl e, w) →
  ∃ e' st',
    executeTools_loop P ThrowOnError toolRegistry (toolCall :: rest)
      toolResults st
    = (Abrupt e', st')
    ∧ st_world st' = w.
Proof.
  intros Hsome Hrej. simpl. rewrite Hsome.
  unfold bind at 1, try_catch, logger_info, await_execute, bind, write_log,
    on_world, throw, record_failure, logger_error, bind, write_log, throw.
  simpl. rewrite Hrej. simpl. eauto.
Qed.

(** With the first logger a call whose tool is not registered is logged and
    skipped: no record is written for it. *)
Lemma executeTools_loop_missing_tool_skipped toolCall rest toolResults st :
  toolRegistry !! call_name toolCall = None →
  ∃ entry,
    executeTools_loop P WinstonPassThrough toolRegistry (toolCall :: rest)
      toolResults st
    = executeTools_loop P WinstonPassThrough toolRegistry rest toolResults
        {| st_heap := st_heap st;
           st_logs := st_logs st ++ [entry];
           st_world := st_world st |}.
Proof.
  intros Hnone. simpl. rewrite Hnone.
  unfold bind at 1, try_catch, logger_error, bind, write_log, ret.
  simpl. eauto.
Qed.

(** A call whose tool is registered and resolves adds its record at the end
    of the list, under either logger. *)
Lemma executeTools_loop_success lg toolCall rest toolResults st tool v w :
  toolRegistry !! call_name toolCall = Some tool →
  execute tool (call_args toolCall) (st_world st) = (inr v, w) →
  ∃ entry,
    executeTools_loop P lg toolRegistry (toolCall :: rest) toolResults st
    = executeTools_loop P lg toolRegistry rest
        (toolResults
         ++ [{| result_name := call_name toolCall; result := v |}])
        {| st_heap := st_heap st;
           st_logs := st_logs st ++ [entry];
           st_world := w |}.
Proof.
  intros Hsome Hok. simpl. rewrite Hsome.
  unfold bind at 1, try_catch, logger_info, await_execute, bind, write_log,
    on_world, ret.
  simpl. rewrite Hok. simpl. eauto.
Qed.
End ExecutorFacts.

(** X11.  When every tool is registered and resolves, the executor returns
    one record per call, in call order, under either logger. *)
Lemma executeTools_all_resolve {World : Type} (P : Platform)
    (lg : LoggerVersion) (toolRegistry : gmap string (Tool World))
    (toolCalls : list ToolCall) (records : list ToolResult) (w' : World)
    (st : State World) :
  all_resolve toolRegistry toolCalls (st_world st) records w' →
  (∃ st', executeTools P lg toolRegistry toolCalls st = (Normal records, st')
          ∧ st_world st' = w' ∧ st_heap st' = st_heap st)
  ∧ result_name <$> records = call_name <$> toolCalls.
Proof.
  intros Hall.
  assert (∀ acc st0,
            st_world st0 = st_world st →
            ∃ st',
              executeTools_loop P lg toolRegistry toolCalls acc st0
              = (Normal (acc ++ records), st')
              ∧ st_world st' = w' ∧ st_heap st' = st_heap st0) as Hloop.
  { induction Hall as [w|toolCall rest tool v w w1 records w2 Htool Hrun _ IH];
      intros acc st0 Hw.
    - exists st0. by rewrite app_nil_r.
    - rewrite <- Hw in Hrun.
      destruct (executeTools_loop_success P toolRegistry lg toolCall rest acc
                  st0 tool v w1 Htool Hrun) as [entry ->].
      destruct (IH (acc ++ [{| result_name := call_name toolCall;
                               result := v |}])
                   {| st_heap := st_heap st0;
                      st_logs := st_logs st0 ++ [entry];
                      st_world := w1 |} eq_refl)
        as (st' & -> & ? & ?).
      exists st'. by rewrite <- app_assoc. }
  split.
  - unfold executeTools, bind, logger_info, write_log.
    match goal with
    | |- context [executeTools_loop P lg toolRegistry toolCalls [] ?st0] =>
        destruct (Hloop [] st0 eq_refl) as (st' & -> & ? & ?)
    end.
    by exists st'.
  - clear Hloop. induction Hall; simpl; [done|]. by f_equal.
Qed.

(** C3, evaluated on scenario D of the specification: calls [a] and [b],
    where [b] rejects.  With the throwing logger both executors throw
    instead of returning the two records; with the first logger they return
    them, in call order. *)
Theorem executeTools_rejecting_tool_on_scenario_D :
  (∃ e st',
     executeTools demo_platform ThrowOnError demo_registry
       [call "a"; call "b"] (demo_state [])
     = (Abrupt e, st'))
  ∧ (∃ e st',
       subAgent_loop demo_platform ThrowOnError demo_registry
         [call "a"; call "b"] [] (demo_state [])
       = (Abrupt e, st'))
  ∧ (∃ st',
       executeTools demo_platform WinstonPassThrough demo_registry
         [call "a"; call "b"] (demo_state [])
       = (Normal [ok_record "a"; error_record "b" "boom"], st'))
  ∧ (∃ st',
       subAgent_loop demo_platform WinstonPassThrough demo_registry
         [call "a"; call "b"] [] (demo_state [])
       = (Normal [ok_record "a"; error_record "b" "boom"], st')).
Proof. split_and!; eexists; try eexists; by vm_compute. Qed.

(** C4, evaluated on a batch whose first call names the unregistered tool
    [search].  With the throwing logger both executors throw; with the first
    logger [executeTools] returns a list without any record for [search],
    and only [subAgent] records an error for it (the text of the
    [TypeError]). *)
Theorem executeTools_missing_tool_on_search :
  (∃ e st',
     executeTools demo_platform ThrowOnError demo_registry
       [call "search"; call "a"] (demo_state [])
     = (Abrupt e, st'))
  ∧ (∃ e st',
       subAgent_loop demo_platform ThrowOnError demo_registry
         [call "search"; call "a"] [] (demo_state [])
       = (Abrupt e, st'))
  ∧ (∃ st',
       executeTools demo_platform WinstonPassThrough demo_registry
         [call "search"; call "a"] (demo_state [])
       = (Normal [ok_record "a"], st'))
  ∧ (∃ st',
       subAgent_loop demo_platform WinstonPassThrough demo_registry
         [call "search"; call "a"] [] (demo_state [])
       = (Normal
            [error_record "search"
               "Cannot read properties of undefined (reading 'execute')";
             ok_record "a"],
          st')).
Proof. split_and!; eexists; try eexists; by vm_compute. Qed.

(** ** C7: the transition rule of the workflow *)

Lemma nonempty_spec {A} (xs : list A) : nonempty xs = true ↔ xs ≠ [].
Proof. by destruct xs. Qed.

Lemma next_node_agent (state : AgentState) :
  next_node agent state
  = Some (if nonempty (toolResults state) then agent else END).
Proof. unfold next_node, route. by destruct (nonempty (toolResults state)). Qed.

Lemma shouldContinue_spec (state : AgentState) :
  shouldContinue state = "subAgent" ↔ toolCalls state ≠ [].
Proof. unfold shouldContinue. by destruct (toolCalls state). Qed.

(** C7.  After a step of the agent node the graph goes to the agent node
    again exactly when the resulting state has tool results, and to [END]
    otherwise; accordingly the run either continues from the resulting
    state or ends there, yielding it as the final state. *)
Theorem workflow_continues_iff_tool_results {World : Type}
    (agentNode : AgentState → M World PartialState) (fuel : nat)
    (state : AgentState) (st st' : State World) (update : PartialState) :
  agentNode state st = (Normal update, st') →
  let state' := apply_update state update in
  (next_node agent state' = Some agent ↔ toolResults state' ≠ [])
  ∧ (next_node agent state' = Some END ↔ toolResults state' = [])
  ∧ (toolResults state' ≠ [] →
     run_agent agentNode (S fuel) state st
     = (("agent", update) :: fst (run_agent agentNode fuel state' st'),
        snd (run_agent agentNode fuel state' st')))
  ∧ (toolResults state' = [] →
     run_agent agentNode (S fuel) state st
     = ([("agent", update)], (Normal state', st'))).
Proof.
  intros Hstep state'. rewrite !next_node_agent.
  split_and!.
  - rewrite <- nonempty_spec. by destruct (nonempty (toolResults state')).
  - destruct (toolResults state'); simpl; split; done.
  - intros Hne. cbn [run_agent]. rewrite Hstep. fold state'.
    rewrite next_node_agent.
    apply nonempty_spec in Hne. rewrite Hne.
    by destruct (run_agent agentNode fuel state' st').
  - intros Hnil. cbn [run_agent]. rewrite Hstep. fold state'.
    rewrite next_node_agent. by rewrite Hnil.
Qed.

(** The first step of the demo turn returns tool results, so the workflow
    runs the agent node again. *)
Lemma workflow_continues_iff_tool_results_witness :
  next_node agent (apply_update demo_turn_state demo_first_update)
  = Some agent
  ↔ toolResults (apply_update demo_turn_state demo_first_update) ≠ [].
Proof.
  refine (proj1
    (workflow_continues_iff_tool_results demo_node 0 demo_turn_state
       (demo_state demo_turn_heap) (snd demo_first_step)
       demo_first_update _)).
  reflexivity.
Defined.

(** ** C9: the scratch lists at the boundaries of a turn *)

Section TurnFacts.
Context {World : Type} (P : Platform) (lg : LoggerVersion).
Variable llm : LLM World.
Variable toolRegistry : gmap string (Tool World).
Variable systemPrompt : option string.

(** A step of the agent node either sets [toolCalls] to the empty list and
    [toolResults] to the records of the tools it ran, or leaves [toolCalls]
    alone and empties [toolResults]. *)
Lemma execute_node_update (state : AgentState) (st st' : State World)
    (update : PartialState) :
  execute_node P lg llm toolRegistry systemPrompt state st
  = (Normal update, st') →
  (upd_toolCalls update = Some [] ∧ is_Some (upd_toolResults update))
  ∨ (upd_toolCalls update = None ∧ upd_toolResults update = Some []).
Proof.
  unfold execute_node, bind.
  destruct (getMessageList P lg systemPrompt (messages state) state st)
    as [[allMessages|?] st1]; [|done].
  destruct (getLLMWithTools P lg toolRegistry allMessages state st1)
    as [[[]|?] st2]; [|done].
  destruct (invoke_llm llm allMessages st2) as [[response|?] st3]; [|done].
  unfold get_heap, logger_debug, logger_info, write_log. simpl.
  destruct (nonempty (response_tool_calls (st_heap st3 !! response))).
  - destruct (toolCallsToExecute P _ _) as [[toExecute|?] st4]; [|done].
    destruct (executeTools P lg toolRegistry toExecute st4)
      as [[results|?] st5]; [|done].
    intros [= <- <-]. left. simpl. eauto.
  - unfold handleFinalResponse, bind, logger_debug, write_log. simpl.
    destruct (createToolMessagesFromResults P state _)
      as [[newToolMessages|?] st4]; [|done].
    intros [= <- <-]. by right.
Qed.

Lemma execute_node_keeps_toolCalls_empty (state : AgentState)
    (st st' : State World) (update : PartialState) :
  execute_node P lg llm toolRegistry systemPrompt state st
  = (Normal update, st') →
  toolCalls state = [] →
  toolCalls (apply_update state update) = [].
Proof.
  intros Hstep Hnil.
  apply execute_node_update in Hstep as [[Hu _]|[Hu _]];
    unfold apply_update; simpl; by rewrite Hu.
Qed.
End TurnFacts.

(** For a node that keeps [toolCalls] empty: a run that ends normally ends in
    a state with both scratch lists empty, reached by the last chunk, and
    every earlier state of the run has no pending calls and some tool
    results. *)
Lemma run_agent_scratch {World : Type}
    (agentNode : AgentState → M World PartialState) :
  (∀ state st update st',
     agentNode state st = (Normal update, st') →
     toolCalls state = [] → toolCalls (apply_update state update) = []) →
  ∀ fuel state st chunks final st',
    toolCalls state = [] →
    run_agent agentNode fuel state st = (chunks, (Normal final, st')) →
    toolCalls final = [] ∧ toolResults final = []
    ∧ last (states_after state chunks) = Some final
    ∧ ∀ i s, states_after state chunks !! i = Some s →
             (S i < length chunks)%nat →
             toolCalls s = [] ∧ toolResults s ≠ [].
Proof.
  intros Hkeep. induction fuel as [|fuel IH];
    intros state st chunks final st' Hnil; [done|].
  cbn [run_agent].
  destruct (agentNode state st) as [[update|?] st1] eqn:Hstep; [|done].
  pose proof (Hkeep _ _ _ _ Hstep Hnil) as Hnil'.
  rewrite next_node_agent.
  destruct (nonempty (toolResults (apply_update state update))) eqn:Hres.
  - destruct (run_agent agentNode fuel (apply_update state update) st1)
      as [chunks' r] eqn:Hrun.
    intros [= <- ->].
    destruct (IH _ _ _ _ _ Hnil' Hrun) as (Hc & Hr & Hlast & Hmid).
    split_and!; [done|done| |].
    + simpl. rewrite last_cons. by rewrite Hlast.
    + intros [|i] s; simpl.
      * intros [= <-] _. split; [done|]. by apply nonempty_spec.
      * intros Hs Hlt. apply (Hmid i s Hs). lia.
  - intros [= <- <- <-]. split_and!; [done| |done|].
    + by destruct (toolResults (apply_update state update)).
    + intros i s _ Hlt. simpl in Hlt. lia.
Qed.

Lemma stream_run_agent {World : Type}
    (agentNode : AgentState → M World PartialState) (recursionLimit : nat)
    (state : AgentState) (st : State World) :
  stream agentNode recursionLimit state st
  = run_agent agentNode recursionLimit state st.
Proof. reflexivity. Qed.

(** C9.  At the start of a turn, right after the user message is appended
    to the history, both scratch lists are empty; when the workflow run of
    the turn ends normally they are empty in the final state; and they are
    non-empty only in the states in between, where [toolResults] holds the
    records the next model call has yet to see and [toolCalls] stays
    empty. *)
Theorem scratch_empty_at_turn_boundaries {World : Type} (P : Platform)
    (lg : LoggerVersion) (llm : LLM World)
    (toolRegistry : gmap string (Tool World)) (systemPrompt : option string)
    (recursionLimit : nat) (conversationState : AgentState)
    (userInput : string) (st st0 st' : State World)
    (state final : AgentState) (chunks : list Chunk) :
  newState conversationState userInput st = (Normal state, st0) →
  stream (execute_node P lg llm toolRegistry systemPrompt) recursionLimit
    state st0
  = (chunks, (Normal final, st')) →
  (∃ human, messages state = messages conversationState ++ [human]
            ∧ st_heap st0 !! human = Some (HumanMessage (JStr userInput)))
  ∧ (toolCalls state = [] ∧ toolResults state = [])
  ∧ (toolCalls final = [] ∧ toolResults final = [])
  ∧ last (states_after state chunks) = Some final
  ∧ (∀ i s, states_after state chunks !! i = Some s →
            (S i < length chunks)%nat →
            toolCalls s = [] ∧ toolResults s ≠ []).
Proof.
  unfold newState, bind, alloc, ret. intros [= <- <-]. simpl.
  rewrite stream_run_agent. intros Hrun.
  eapply run_agent_scratch in Hrun as (Hcalls & Hresults & Hlast & Hmid);
    [|by intros; eapply execute_node_keeps_toolCalls_empty|done].
  split_and!; try done.
  eexists. split; [done|]. by apply list_lookup_middle.
Qed.

(** X21.  The conversation state that [ChatManager] keeps from one turn to
    the next never carries scratch entries. *)
Lemma processUserInput_keeps_scratch_empty {World : Type} (P : Platform)
    (lg : LoggerVersion) (llm : LLM World)
    (toolRegistry : gmap string (Tool World)) (systemPrompt : option string)
    (recursionLimit : nat) (isExitCommand : string → bool)
    (conversationState kept : AgentState) (userInput : string)
    (response : option string) (st st' : State World) :
  toolCalls conversationState = [] ∧ toolResults conversationState = [] →
  processUserInput P lg
    (invoke (execute_node P lg llm toolRegistry systemPrompt) recursionLimit)
    isExitCommand conversationState userInput st
  = (Normal (response, kept), st') →
  toolCalls kept = [] ∧ toolResults kept = [].
Proof.
  intros Hconv. unfold processUserInput.
  destruct (negb (truthy_str userInput)); [by intros [= _ <- _]|].
  destruct (isExitCommand userInput); [by intros [= _ <- _]|].
  unfold try_catch, bind at 1.
  destruct (newState conversationState userInput st)
    as [[state|e] st0] eqn:Hnew.
  - unfold bind at 1. unfold invoke at 1.
    destruct (stream _ recursionLimit state st0) as [chunks [[final|e] st1]]
      eqn:Hrun; simpl.
    + unfold bind, get_heap, ret. intros [= _ <- _].
      unfold newState, bind, alloc, ret in Hnew. invert Hnew.
      rewrite stream_run_agent in Hrun.
      eapply run_agent_scratch in Hrun as (? & ? & _);
        [done|by intros; eapply execute_node_keeps_toolCalls_empty|done].
    + destruct lg; unfold logger_error, bind, write_log, ret, throw; simpl;
        [by intros [= _ <- _]|done].
  - destruct lg; unfold logger_error, bind, write_log, ret, throw; simpl;
      [by intros [= _ <- _]|done].
Qed.

(** The demo turn: one tool call, one final answer. *)
Lemma scratch_empty_at_turn_boundaries_witness :
  toolCalls demo_final_state = [] ∧ toolResults demo_final_state = [].
Proof.
  refine (proj1 (proj2 (proj2
    (scratch_empty_at_turn_boundaries demo_platform ThrowOnError demo_llm
       demo_registry (Some "You are viscum") 25 initial_conversationState
       "Weather in Tokyo?" (demo_state []) (demo_state demo_turn_heap)
       (snd (snd demo_run)) demo_turn_state demo_final_state demo_chunks
       _ _)))).
  - reflexivity.
  - by vm_compute.
Defined.

(** ** C8: streamed deltas *)




(** Code units, not bytes: two characters of three bytes each are two code
    units, and a character beyond the basic plane is two. *)
Lemma slice_counts_code_units :
  js_length "日本" = 2%nat
  ∧ slice "Sunny." (js_length "日本") = "nny."
  ∧ js_length "😀!" = 3%nat
  ∧ slice "😀!" 2 = "!"
  ∧ js_length (slice "😀!" 1) = 2%nat.
Proof. by vm_compute. Qed.

Lemma truthy_str_spec (s : string) : truthy_str s = true ↔ s ≠ EmptyString.
Proof.
  unfold truthy_str. destruct (String.eqb_spec s EmptyString); simpl;
    split; (done || congruence).
Qed.

Lemma deref_app (h : heap) (xs ys : list loc) :
  deref h (xs ++ ys) = deref h xs ++ deref h ys.
Proof. apply omap_app. Qed.

Section RouteFacts.
Context (P : Platform).
Implicit Types (h : heap) (s : StreamState) (chunk : Chunk).




(** The accumulated state after a chunk. *)
Lemma on_stateUpdate_accumulated h s chunk :
  accumulatedState (on_stateUpdate P h s chunk)
  = accumulate (accumulatedState s) (snd chunk).
Proof.
  unfold on_stateUpdate.
  destruct (extractAIResponse P h _) as [current|]; [|done].
  destruct (truthy_str current && _); [|done].
  by destruct (truthy_str (slice current _)).
Qed.


(** The delta rule: a chunk either leaves the stream as it is, or emits the
    part of the extracted text that lies beyond the length of the text
    emitted so far. *)
Lemma on_stateUpdate_delta h s chunk :
  let s' := on_stateUpdate P h s chunk in
  (enqueued s' = enqueued s ∧ lastContent s' = lastContent s)
  ∨ (∃ current,
       extractAIResponse P h (accumulatedState s') = Some current
       ∧ current ≠ lastContent s
       ∧ slice current (js_length (lastContent s)) ≠ EmptyString
       ∧ enqueued s'
         = enqueued s
           ++ [DeltaEvent (slice current (js_length (lastContent s)))]
       ∧ lastContent s' = current).
Proof.
  intros s'. pose proof (on_stateUpdate_accumulated h s chunk) as Hacc.
  fold s' in Hacc. rewrite Hacc. unfold s', on_stateUpdate.
  destruct (extractAIResponse P h _) as [current|] eqn:Hext;
    simpl; [|by left].
  destruct (truthy_str current) eqn:Hcur; simpl; [|by left].
  destruct (String.eqb_spec current (lastContent s)); simpl; [by left|].
  destruct (truthy_str (slice current (js_length (lastContent s))))
    eqn:Hdelta; simpl; [|by left].
  right. exists current. split_and!; try done.
  by apply truthy_str_spec.
Qed.


End RouteFacts.


(** The handler on a history that is sent again.  The request of a second
    turn carries the first answer; when the model then asks for a tool, the
    tool-call step extracts that earlier answer and streams it as a delta,
    and the new answer is cut by the length of the old one.  The loop never
    compares the extracted text with what the history already held:
    [lastContent] starts empty whatever the request carries.  Nothing in the
    handler asks for this. *)
Lemma resent_history_streams_previous_answer :
  extractAIResponse demo_platform resent_heap resent_start = Some "Sunny."
  ∧ enqueued (on_stateUpdate demo_platform resent_heap
                (stream_start resent_start) resent_tool_call)
    = [DeltaEvent "Sunny."]
  ∧ stream_events demo_platform resent_heap resent_start
      [resent_tool_call; resent_answer] (Normal tt)
    = [DeltaEvent "Sunny."; DeltaEvent "omorrow.";
       MessageEvent "Rain tomorrow."; DoneEvent].
Proof. by vm_compute. Qed.



(** ** Message objects are never changed or removed *)

Section HeapFacts.
Context {World : Type} (P : Platform) (lg : LoggerVersion).
Variable llm : LLM World.
Variable toolRegistry : gmap string (Tool World).
Variable systemPrompt : option string.

Lemma heap_grows_ret {A} (a : A) : heap_grows (World := World) (ret a).
Proof. by intros st r st' [= _ <-]. Qed.

Lemma heap_grows_throw {A} (e : Thrown) :
  heap_grows (World := World) (A := A) (throw e).
Proof. by intros st r st' [= _ <-]. Qed.

Lemma heap_grows_bind {A B} (m : M World A) (k : A → M World B) :
  heap_grows m → (∀ a, heap_grows (k a)) → heap_grows (bind m k).
Proof.
  intros Hm Hk st r st'. unfold bind.
  destruct (m st) as [[a|e] st1] eqn:E.
  - intros Hr. etrans; [by eapply Hm|by eapply Hk].
  - intros [= _ <-]. by eapply Hm.
Qed.

Lemma heap_grows_try_catch {A} (body : M World A)
    (handler : Thrown → M World A) :
  heap_grows body → (∀ e, heap_grows (handler e)) →
  heap_grows (try_catch body handler).
Proof.
  intros Hb Hh st r st'. unfold try_catch.
  destruct (body st) as [[a|e] st1] eqn:E.
  - intros [= _ <-]. by eapply Hb.
  - intros Hr. etrans; [by eapply Hb|by eapply Hh].
Qed.

Lemma heap_grows_get_heap : heap_grows (World := World) get_heap.
Proof. by intros st r st' [= _ <-]. Qed.

Lemma heap_grows_alloc (m : BaseMessage) : heap_grows (World := World) (alloc m).
Proof. intros st r st' [= _ <-]. simpl. by apply prefix_app_r. Qed.

Lemma heap_grows_write_log (e : LogEntry) :
  heap_grows (World := World) (write_log e).
Proof. by intros st r st' [= _ <-]. Qed.

Lemma heap_grows_on_world {A} (f : World → A * World) :
  heap_grows (on_world f).
Proof.
  intros st r st'. unfold on_world. destruct (f (st_world st)).
  by intros [= _ <-].
Qed.

Lemma heap_grows_logger_error (msg : string) (meta : list JsValue) :
  heap_grows (World := World) (logger_error P lg msg meta).
Proof.
  apply heap_grows_bind; [apply heap_grows_write_log|].
  intros _. destruct lg; [apply heap_grows_ret|apply heap_grows_throw].
Qed.

Create HintDb heap.

Hint Resolve heap_grows_ret heap_grows_throw heap_grows_get_heap
  heap_grows_alloc heap_grows_write_log heap_grows_on_world
  heap_grows_logger_error : heap.

(** Decomposes a computation along its binds, handlers and case
    distinctions. *)
Ltac heap_step :=
  repeat first
    [ solve [auto with heap]
    | apply heap_grows_bind; [|intros ?]
    | apply heap_grows_try_catch; [|intros ?]
    | progress unfold logger_warn, logger_info, logger_debug
    | match goal with
      | |- heap_grows (match ?x with _ => _ end) => destruct x
      end ].

Lemma heap_grows_createToolMessages_forEach (calls : list ToolCallRequest)
    (index : nat) (records : list ToolResult) (acc : list loc) :
  heap_grows (World := World)
    (createToolMessages_forEach P calls index records acc).
Proof.
  revert index acc. induction records as [|r records IH]; intros index acc;
    cbn [createToolMessages_forEach]; heap_step.
Qed.

Lemma heap_grows_createToolMessages (records : list ToolResult)
    (last : option loc) :
  heap_grows (World := World) (createToolMessages P records last).
Proof.
  pose proof heap_grows_createToolMessages_forEach.
  unfold createToolMessages. heap_step.
Qed.

Lemma heap_grows_processMessages_loop (h : heap) (m : gmap string loc)
    (f1 f2 : bool) (msgs acc : list loc) :
  heap_grows (World := World) (processMessages_loop P lg h m f1 f2 msgs acc).
Proof.
  revert acc. induction msgs as [|msg rest IH]; intros acc;
    cbn [processMessages_loop]; heap_step.
  unfold processMessages_step. heap_step.
Qed.

Lemma heap_grows_processMessages (msgs new : list loc) (f1 f2 : bool) :
  heap_grows (World := World) (processMessages P lg msgs new f1 f2).
Proof.
  pose proof heap_grows_processMessages_loop.
  unfold processMessages. heap_step.
Qed.

Lemma heap_grows_executeTools (toolCalls : list ToolCall) :
  heap_grows (executeTools P lg toolRegistry toolCalls).
Proof.
  unfold executeTools. heap_step.
  generalize (@nil ToolResult).
  induction toolCalls as [|toolCall rest IH]; intros acc;
    cbn [executeTools_loop]; heap_step.
Qed.

Lemma heap_grows_toolCallsToExecute (calls : list ToolCallRequest) :
  heap_grows (World := World) (toolCallsToExecute P calls).
Proof.
  induction calls as [|tc calls IH]; cbn [toolCallsToExecute]; heap_step.
Qed.

(** One step of the agent loop only adds message objects. *)
Lemma heap_grows_execute_node (state : AgentState) :
  heap_grows (execute_node P lg llm toolRegistry systemPrompt state).
Proof.
  pose proof heap_grows_createToolMessages.
  pose proof heap_grows_processMessages.
  pose proof heap_grows_executeTools.
  pose proof heap_grows_toolCallsToExecute.
  unfold execute_node, getMessageList, getLLMWithTools, invoke_llm,
    handleFinalResponse, createToolMessagesFromResults.
  heap_step.
Qed.
End HeapFacts.

(** A run of the workflow leaves every object it found where it was. *)
Lemma run_agent_heap_grows {World : Type}
    (agentNode : AgentState → M World PartialState) :
  (∀ state, heap_grows (agentNode state)) →
  ∀ fuel state st chunks r st' l m,
    run_agent agentNode fuel state st = (chunks, (r, st')) →
    st_heap st !! l = Some m → st_heap st' !! l = Some m.
Proof.
  intros Hnode. induction fuel as [|fuel IH];
    intros state st chunks r st' l m; cbn [run_agent].
  - by intros [= _ _ <-].
  - destruct (agentNode state st) as [[update|e] st1] eqn:Hstep.
    + assert (st_heap st !! l = Some m → st_heap st1 !! l = Some m) as Hfirst.
      { intros Hl. by eapply prefix_lookup_Some; [|by eapply Hnode]. }
      destruct (next_node agent (apply_update state update)) as [[]|].
      1,3,4: by intros [= _ _ <-].
      destruct (run_agent agentNode fuel _ st1) as [chunks' [r' st2]] eqn:Hrun.
      intros [= _ _ <-] Hl. eapply IH; [done|by apply Hfirst].
    + intros [= _ _ <-] Hl.
      by eapply prefix_lookup_Some; [|by eapply Hnode].
Qed.

(** * Further properties of the code *)

(** ** [validateToolCalls] *)

Lemma NoDup_ordered_add (id : string) (ids : list string) :
  NoDup ids → NoDup (ordered_add id ids).
Proof.
  intros Hnd. unfold ordered_add. case_bool_decide; [done|].
  apply NoDup_app. split_and!; [done| |apply NoDup_singleton].
  intros x Hx ->%list_elem_of_singleton. done.
Qed.

Lemma NoDup_addToolCallIds (calls : list ToolCallRequest) (ids : list string) :
  NoDup ids → NoDup (addToolCallIds calls ids).
Proof.
  unfold addToolCallIds. revert ids.
  induction calls as [|tc calls IH]; intros ids Hnd; simpl; [done|].
  apply IH. destruct (usable_id tc); [by apply NoDup_ordered_add|done].
Qed.

Lemma NoDup_collectIds (h : heap) (msgs : list loc) (ids : list string)
    (tids : gset string) :
  NoDup ids → NoDup (collectIds h msgs (ids, tids)).1.
Proof.
  unfold collectIds. revert ids tids.
  induction msgs as [|msg msgs IH]; intros ids tids Hnd; simpl; [done|].
  apply IH. destruct (h !! msg) as [[ | |c [calls|]|c id]|]; try done.
  by apply NoDup_addToolCallIds.
Qed.

(** X1.  [validateToolCalls] reports exactly the requested ids that no tool
    message of the list answers, each once, and declares the list valid
    exactly when there is none. *)
Theorem validateToolCalls_reports_missing (h : heap) (msgs : list loc) :
  (∀ id, id ∈ missingToolCallIds (validateToolCalls h msgs)
         ↔ requested h msgs id ∧ ¬ has_result h msgs id)
  ∧ NoDup (missingToolCallIds (validateToolCalls h msgs))
  ∧ (isValid (validateToolCalls h msgs) = true
     ↔ missingToolCallIds (validateToolCalls h msgs) = [])
  ∧ (isValid (validateToolCalls h msgs) = true
     ↔ ∀ id, requested h msgs id → has_result h msgs id).
Proof.
  split_and!.
  - apply elem_of_missingToolCallIds.
  - unfold validateToolCalls. simpl.
    apply NoDup_filter, NoDup_collectIds. constructor.
  - unfold validateToolCalls. simpl. apply bool_decide_eq_true.
  - apply isValid_spec.
Qed.

(** ** [findLastAIMessageWithTools] *)

Lemma find_split {A} (f : A → bool) (l : list A) (a : A) :
  List.find f l = Some a →
  f a = true
  ∧ ∃ l1 l2, l = l1 ++ a :: l2 ∧ Forall (fun x => f x = false) l1.
Proof.
  induction l as [|x l IH]; simpl; [done|].
  destruct (f x) eqn:Hx.
  - intros [= ->]. split; [done|]. by exists [], l.
  - intros Hfind. destruct (IH Hfind) as (Ha & l1 & l2 & -> & Hl1).
    split; [done|]. exists (x :: l1), l2. split; [done|by constructor].
Qed.

Lemma find_none_Forall {A} (f : A → bool) (l : list A) :
  List.find f l = None ↔ Forall (fun x => f x = false) l.
Proof.
  induction l as [|x l IH]; simpl; [by split|].
  destruct (f x) eqn:Hx.
  - split; [done|]. intros Hall. apply Forall_cons in Hall as [? _].
    congruence.
  - rewrite IH. split; [by constructor|]. by intros [_ ?]%Forall_cons.
Qed.

Lemma findLastAIMessageWithTools_None (h : heap) (msgs : list loc) :
  findLastAIMessageWithTools h msgs = None
  ↔ Forall (fun l => carries_requests h l = false) msgs.
Proof.
  unfold findLastAIMessageWithTools. rewrite find_none_Forall.
  split; intros Hall.
  - apply Forall_reverse in Hall. by rewrite reverse_involutive in Hall.
  - by apply Forall_reverse.
Qed.

(** X2.  [findLastAIMessageWithTools] finds nothing exactly when no message
    of the list carries requests; what it finds is a message of the list
    that carries requests and that no message with requests follows. *)
Theorem findLastAIMessageWithTools_spec (h : heap) (msgs : list loc) :
  (findLastAIMessageWithTools h msgs = None
   ↔ Forall (fun l => carries_requests h l = false) msgs)
  ∧ (∀ a, findLastAIMessageWithTools h msgs = Some a →
          carries_requests h a = true
          ∧ ∃ before after,
              msgs = before ++ a :: after
              ∧ Forall (fun l => carries_requests h l = false) after).
Proof.
  split; [apply findLastAIMessageWithTools_None|].
  unfold findLastAIMessageWithTools. intros a Hfind.
  apply find_split in Hfind as (Ha & l1 & l2 & Hrev & Hl1).
  split; [done|]. exists (reverse l2), (reverse l1). split.
  - rewrite <- (reverse_involutive msgs), Hrev.
    by rewrite reverse_app, reverse_cons, <- app_assoc.
  - by apply Forall_reverse.
Qed.

(** ** [createToolMessages] *)

(** X3.  When no message of the history carries requests, the records of
    the batch vanish without a trace: no tool message is created and nothing
    is logged. *)
Theorem createToolMessages_without_target {World : Type} (P : Platform)
    (H : list loc) (records : list ToolResult) (st : State World) :
  Forall (fun l => carries_requests (st_heap st) l = false) H →
  createToolMessages P records (findLastAIMessageWithTools (st_heap st) H) st
  = (Normal [], st).
Proof.
  intros Hnone. apply findLastAIMessageWithTools_None in Hnone.
  by rewrite Hnone.
Qed.

(** A history of one user message and a batch of three records. *)
Lemma createToolMessages_without_target_witness :
  createToolMessages demo_platform three_records
    (findLastAIMessageWithTools demo_turn_heap [0%nat])
    (demo_state demo_turn_heap)
  = (Normal [], demo_state demo_turn_heap).
Proof.
  apply createToolMessages_without_target.
  by repeat constructor.
Defined.

Lemma length_paired_dropped (P : Platform) (calls : list ToolCallRequest)
    (index : nat) (records : list ToolResult) :
  (length (paired_messages P (drop index calls) records)
   + length (dropped_warnings calls index records))%nat
  = length records.
Proof.
  revert index. induction records as [|r records IH]; intros index.
  - unfold paired_messages. by destruct (drop index calls).
  - simpl. destruct (calls !! index ≫= usable_id) as [id|] eqn:Hid.
    + destruct (calls !! index) as [tc|] eqn:Htc; [|done]. simpl in Hid.
      rewrite (paired_messages_cons_usable P _ _ _ _ _ _ Htc Hid). simpl.
      by rewrite IH.
    + rewrite (paired_messages_cons_dropped P _ _ _ _ Hid). simpl.
      rewrite <- (IH (S index)). lia.
Qed.

(** X4.  Given an assistant message with a request list, every record of
    the batch is accounted for: it becomes one new tool message or one
    warning, the new messages sit at fresh consecutive locations, each
    carries a usable id of one of the requests, and nothing existing is
    touched. *)
Theorem createToolMessages_accounts_for_records {World : Type} (P : Platform)
    (a : loc) (c : JsValue) (calls : list ToolCallRequest)
    (records : list ToolResult) (st : State World) :
  st_heap st !! a = Some (AIMessage c (Some calls)) →
  ∃ created new_messages warnings,
    createToolMessages P records (Some a) st
    = (Normal created,
       {| st_heap := st_heap st ++ new_messages;
          st_logs := st_logs st ++ warnings;
          st_world := st_world st |})
    ∧ created = seq (length (st_heap st)) (length new_messages)
    ∧ (length new_messages + length warnings)%nat = length records
    ∧ Forall (fun e => level e = warn) warnings
    ∧ Forall (fun m => ∃ content id tc,
                m = ToolMessage content id ∧ tc ∈ calls
                ∧ usable_id tc = Some id)
             new_messages.
Proof.
  intros Ha.
  exists (seq (length (st_heap st)) (length (paired_messages P calls records))),
    (paired_messages P calls records), (dropped_warnings calls 0 records).
  split_and!.
  - unfold createToolMessages, bind, get_heap. simpl. rewrite Ha.
    by rewrite (createToolMessages_forEach_spec P calls 0 records [] st).
  - done.
  - apply (length_paired_dropped P calls 0 records).
  - generalize 0%nat. induction records as [|r records IH]; intros index;
      simpl; [done|].
    destruct (calls !! index ≫= usable_id); [done|]. by constructor.
  - apply Forall_forall. intros m Hm. unfold paired_messages in Hm.
    apply list_elem_of_omap in Hm as ([r tc] & Hin & Hm).
    destruct (usable_id tc) as [id|] eqn:Hid; [|done]. simpl in Hm.
    injection Hm as <-. exists (resultContent P (result r)), id, tc.
    split_and!; [done| |done].
    apply list_elem_of_lookup in Hin as [i Hi].
    apply lookup_zip_with_Some in Hi as (r' & tc' & [= <- <-] & _ & Htc).
    by eapply list_elem_of_lookup_2.
Qed.

(** Three records for two requests: two messages and one warning. *)
Lemma createToolMessages_accounts_for_records_witness :
  ∃ created new_messages warnings,
    createToolMessages demo_platform three_records (Some 1%nat)
      (demo_state pending_heap)
    = (Normal created,
       {| st_heap := pending_heap ++ new_messages;
          st_logs := warnings;
          st_world := tt |})
    ∧ (length new_messages + length warnings)%nat = 3%nat.
Proof.
  destruct (createToolMessages_accounts_for_records demo_platform 1%nat
              (JStr EmptyString) [request "call_1"; request "call_2"]
              three_records (demo_state pending_heap) eq_refl)
    as (created & new_messages & warnings & Hrun & _ & Hlen & _).
  by exists created, new_messages, warnings.
Defined.

(** ** [processMessages]: what the output is made of *)

Section OutputFacts.
Implicit Types (h : heap) (m : gmap string loc) (acc msgs : list loc).

Lemma keyed_not_passes_through h t :
  keyed_tool_message h t = true → passes_through h t = false.
Proof.
  unfold keyed_tool_message, passes_through.
  destruct (h !! t) as [[ | | |c id]|]; try done. by intros ->.
Qed.

Lemma keyed_not_carries_requests h t :
  keyed_tool_message h t = true → carries_requests h t = false.
Proof.
  unfold keyed_tool_message, carries_requests.
  by destruct (h !! t) as [[ | | |c id]|].
Qed.

(** The keys of the map are non-empty ids. *)
Lemma collectToolMessages_keyed h ls m :
  (∀ id t, m !! id = Some t → keyed_tool_message h t = true) →
  ∀ id t, collectToolMessages h ls m !! id = Some t →
          keyed_tool_message h t = true.
Proof.
  revert m. induction ls as [|l ls IH]; intros m Hm id t; [apply Hm|].
  rewrite collectToolMessages_cons. apply IH. clear id t.
  intros id t. rewrite collectToolMessages_single.
  destruct (h !! l) as [[ | | |c id']|] eqn:El; try apply Hm.
  destruct (truthy_str id') eqn:Hid; [|apply Hm].
  destruct (decide (id' = id)); [|apply Hm].
  intros [= <-]. unfold keyed_tool_message. by rewrite El.
Qed.

Lemma toolMessageMap_of_keyed h msgs new id t :
  toolMessageMap_of h msgs new !! id = Some t → keyed_tool_message h t = true.
Proof.
  unfold toolMessageMap_of. apply collectToolMessages_keyed.
  apply collectToolMessages_keyed. intros id' t'. by rewrite lookup_empty.
Qed.

Lemma filter_bool_cons {A} (f : A → bool) (x : A) (l : list A) :
  filter (fun x => f x) (x :: l)
  = if f x then x :: filter (fun x => f x) l else filter (fun x => f x) l.
Proof. rewrite filter_cons. by destruct (f x). Qed.

Lemma filter_none {A} (f : A → bool) (l : list A) :
  (∀ x, x ∈ l → f x = false) → filter (fun x => f x) l = [].
Proof.
  induction l as [|x l IH]; intros Hall; [done|].
  rewrite filter_bool_cons, (Hall x); [|by left].
  apply IH. intros y Hy. apply Hall. by right.
Qed.

Lemma filter_pushed h m calls seen (f : loc → bool) :
  (∀ id t, m !! id = Some t → keyed_tool_message h t = true) →
  (∀ t, keyed_tool_message h t = true → f t = false) →
  filter (fun l => f l) (fresh_in_order seen (answers m calls)) = [].
Proof.
  intros Hm Hf. apply filter_none. intros t.
  rewrite elem_of_fresh_in_order, answers_spec.
  intros [(tc & id & _ & _ & Ht) _]. eauto.
Qed.

(** One step of the pass, seen through a test that no keyed tool message
    passes: the step adds the message it looks at, unless that is an
    incomplete assistant message. *)
Lemma filter_step_unkeyed h m acc msg (f : loc → bool) :
  (∀ id t, m !! id = Some t → keyed_tool_message h t = true) →
  (∀ t, keyed_tool_message h t = true → f t = false) →
  filter (fun l => f l) (filter_step h m acc msg)
  = filter (fun l => f l) acc
    ++ filter (fun l => f l && negb (incomplete h m l)) [msg].
Proof.
  intros Hm Hf. unfold filter_step.
  assert (incomplete h m msg = false →
          filter (fun l => f l) (acc ++ [msg])
          = filter (fun l => f l) acc
            ++ filter (fun l => f l && negb (incomplete h m l)) [msg])
    as Hpush.
  { intros Hinc. rewrite filter_app. f_equal.
    rewrite (filter_bool_cons f), filter_bool_cons, Hinc.
    by destruct (f msg). }
  assert (f msg = false →
          filter (fun l => f l) acc
          = filter (fun l => f l) acc
            ++ filter (fun l => f l && negb (incomplete h m l)) [msg])
    as Hskip.
  { intros E. by rewrite filter_bool_cons, E, app_nil_r. }
  unfold incomplete in Hpush.
  destruct (h !! msg) as [[ | |c [[|tc tcs]|]|c id]|] eqn:El;
    try by apply Hpush.
  - destruct (allToolCallsHaveResponses m (tc :: tcs)) eqn:Hall.
    + rewrite pushToolMessages_fresh, filter_app.
      rewrite (filter_pushed h m _ _ f Hm Hf), app_nil_r. by apply Hpush.
    + rewrite filter_bool_cons. unfold incomplete. rewrite El, Hall.
      by rewrite andb_false_r, app_nil_r.
  - destruct (truthy_str id) eqn:Hid; [|by apply Hpush].
    assert (f msg = false) as E.
    { apply Hf. unfold keyed_tool_message. by rewrite El. }
    destruct (includes acc msg); [by apply Hskip|].
    rewrite filter_app. f_equal.
    by rewrite (filter_bool_cons f), filter_bool_cons, E.
Qed.

Lemma filter_pass_unkeyed h m msgs acc (f : loc → bool) :
  (∀ id t, m !! id = Some t → keyed_tool_message h t = true) →
  (∀ t, keyed_tool_message h t = true → f t = false) →
  filter (fun l => f l) (filter_pass h m msgs acc)
  = filter (fun l => f l) acc
    ++ filter (fun l => f l && negb (incomplete h m l)) msgs.
Proof.
  intros Hm Hf. revert acc.
  induction msgs as [|msg msgs IH]; intros acc; [by rewrite app_nil_r|].
  change (filter_pass h m (msg :: msgs) acc)
    with (filter_pass h m msgs (filter_step h m acc msg)).
  rewrite IH, (filter_step_unkeyed h m acc msg f Hm Hf), <- app_assoc.
  f_equal. change (msg :: msgs) with ([msg] ++ msgs). by rewrite filter_app.
Qed.

Lemma passes_through_complete h m l :
  passes_through h l = true → incomplete h m l = false.
Proof.
  unfold passes_through, incomplete.
  by destruct (h !! l) as [[ | |c [[|tc tcs]|]|c id]|].
Qed.

(** No keyed tool message is put into the output twice. *)
Lemma filter_step_keyed_NoDup h m acc msg :
  (∀ id t, m !! id = Some t → keyed_tool_message h t = true) →
  NoDup (filter (fun l => keyed_tool_message h l) acc) →
  NoDup (filter (fun l => keyed_tool_message h l) (filter_step h m acc msg)).
Proof.
  intros Hm Hnd. unfold filter_step.
  assert (keyed_tool_message h msg = false →
          NoDup (filter (fun l => keyed_tool_message h l) (acc ++ [msg])))
    as Hplain.
  { intros E. by rewrite filter_app, filter_bool_cons, E, app_nil_r. }
  unfold keyed_tool_message in Hplain at 1.
  destruct (h !! msg) as [[ | |c [[|tc tcs]|]|c id]|] eqn:El;
    try by apply Hplain.
  - destruct (allToolCallsHaveResponses m (tc :: tcs)); [|done].
    rewrite pushToolMessages_fresh, filter_app. apply NoDup_app. split_and!.
    + by apply Hplain.
    + intros t [_ Ht]%list_elem_of_filter [_ Ht']%list_elem_of_filter.
      apply elem_of_fresh_in_order in Ht' as [_ Hn]. done.
    + apply NoDup_filter, NoDup_fresh_in_order.
  - destruct (truthy_str id) eqn:Hid; [|by apply Hplain].
    unfold includes. case_bool_decide as Hin; [done|].
    rewrite filter_app. apply NoDup_app. split_and!; [done| |].
    + intros t [_ Ht]%list_elem_of_filter [_ Ht']%list_elem_of_filter.
      apply list_elem_of_singleton in Ht' as ->. done.
    + apply NoDup_filter, NoDup_singleton.
Qed.

Lemma filter_pass_keyed_NoDup h m msgs acc :
  (∀ id t, m !! id = Some t → keyed_tool_message h t = true) →
  NoDup (filter (fun l => keyed_tool_message h l) acc) →
  NoDup (filter (fun l => keyed_tool_message h l) (filter_pass h m msgs acc)).
Proof.
  intros Hm. revert acc. induction msgs as [|msg msgs IH]; intros acc Hnd;
    [done|].
  apply IH. by apply filter_step_keyed_NoDup.
Qed.
End OutputFacts.

Section OutputTheorems.
Context {World : Type} (P : Platform).
Implicit Types (h : heap) (m : gmap string loc) (st : State World).

Lemma filter_bool_ext {A} (f g : A → bool) (l : list A) :
  (∀ x, x ∈ l → f x = g x) →
  filter (fun x => f x) l = filter (fun x => g x) l.
Proof.
  induction l as [|x l IH]; intros Hfg; [done|].
  rewrite (filter_bool_cons f), (filter_bool_cons g), (Hfg x); [|by left].
  rewrite IH; [done|]. intros y Hy. apply Hfg. by right.
Qed.

(** X5.  Whatever [processMessages] returns, its messages other than tool
    messages with an id are those of the history, in the order of the history
    and as often as there, without the assistant messages whose requests are
    not all answered. *)
Theorem processMessages_keeps_order_of_others (lg : LoggerVersion)
    (msgs new : list loc) (f1 f2 : bool) (st st' : State World)
    (out : list loc) :
  processMessages P lg msgs new f1 f2 st = (Normal out, st') →
  filter (fun l => negb (keyed_tool_message (st_heap st) l)) out
  = filter (fun l => negb (keyed_tool_message (st_heap st) l)
                     && negb (incomplete (st_heap st)
                                (toolMessageMap_of (st_heap st) msgs new) l))
           msgs.
Proof.
  intros (-> & _ & _)%processMessages_normal.
  rewrite (filter_pass_unkeyed _ _ _ _
             (fun l => negb (keyed_tool_message (st_heap st) l))).
  - done.
  - apply toolMessageMap_of_keyed.
  - by intros t ->.
Qed.

(** X7.  No tool message with an id occurs twice in what [processMessages]
    returns, however often the history lists it or its id is requested. *)
Theorem processMessages_no_tool_message_twice (lg : LoggerVersion)
    (msgs new : list loc) (f1 f2 : bool) (st st' : State World)
    (out : list loc) :
  processMessages P lg msgs new f1 f2 st = (Normal out, st') →
  NoDup (filter (fun l => keyed_tool_message (st_heap st) l) out).
Proof.
  intros (-> & _ & _)%processMessages_normal.
  apply filter_pass_keyed_NoDup; [apply toolMessageMap_of_keyed|].
  constructor.
Qed.

Lemma toolMessageMap_of_answerable h msgs new calls :
  allToolCallsHaveResponses (toolMessageMap_of h msgs new) calls = true
  ↔ ∀ tc, tc ∈ calls →
      ∃ id t c, usable_id tc = Some id ∧ t ∈ msgs ++ new
                ∧ h !! t = Some (ToolMessage c id).
Proof.
  rewrite allToolCallsHaveResponses_spec, Forall_forall.
  split; intros Hall tc Htc.
  - destruct (Hall tc Htc) as (id & t & Hid & Ht).
    apply toolMessageMap_of_range in Ht as [Hin [c Hc]]. by exists id, t, c.
  - destruct (Hall tc Htc) as (id & t & c & Hid & Hin & Hc).
    destruct (toolMessageMap_of_elem h msgs new t c id Hin Hc) as [t' Ht'].
    { by apply usable_id_Some in Hid as [_ ?]. }
    by exists id, t'.
Qed.

(** X8.  An assistant message with requests is in what [processMessages]
    returns exactly when it is in the history and each of its requests has a
    non-empty id that is the id of a tool message of the history or of the
    new tool messages. *)
Theorem processMessages_keeps_answerable_requests (lg : LoggerVersion)
    (msgs new : list loc) (f1 f2 : bool) (st st' : State World)
    (out : list loc) (a : loc) (c : JsValue) (calls : list ToolCallRequest) :
  processMessages P lg msgs new f1 f2 st = (Normal out, st') →
  st_heap st !! a = Some (AIMessage c (Some calls)) → calls ≠ [] →
  a ∈ out
  ↔ a ∈ msgs
    ∧ ∀ tc, tc ∈ calls →
        ∃ id t c', usable_id tc = Some id ∧ t ∈ msgs ++ new
                   ∧ st_heap st !! t = Some (ToolMessage c' id).
Proof.
  intros (-> & _ & _)%processMessages_normal Ha Hne.
  rewrite <- toolMessageMap_of_answerable.
  set (h := st_heap st) in *. set (m := toolMessageMap_of h msgs new).
  assert (carries_requests h a = true) as Hcarries.
  { unfold carries_requests. rewrite Ha. by destruct calls. }
  assert (incomplete h m a = negb (allToolCallsHaveResponses m calls))
    as Hinc.
  { unfold incomplete. rewrite Ha. by destruct calls. }
  pose proof (filter_pass_unkeyed h m msgs [] (carries_requests h)
                (toolMessageMap_of_keyed h msgs new)
                (keyed_not_carries_requests h)) as Hfilter.
  simpl in Hfilter. split.
  - intros Hin.
    assert (a ∈ filter (fun l => carries_requests h l)
                  (filter_pass h m msgs [])) as Hin'.
    { apply list_elem_of_filter. by rewrite Hcarries. }
    rewrite Hfilter in Hin'. apply list_elem_of_filter in Hin' as [Hok ?].
    split; [done|]. rewrite Hcarries, Hinc in Hok.
    by destruct (allToolCallsHaveResponses m calls).
  - intros [Hin Hall].
    assert (a ∈ filter (fun l => carries_requests h l)
                  (filter_pass h m msgs [])) as Hin'.
    { rewrite Hfilter. apply list_elem_of_filter. split; [|done].
      by rewrite Hcarries, Hinc, Hall. }
    by apply list_elem_of_filter in Hin' as [_ ?].
Qed.
End OutputTheorems.

(** The half-answered assistant message is dropped with a warning; its one
    result stays. *)
Lemma processMessages_keeps_order_of_others_witness :
  filter (fun l => negb (keyed_tool_message half_answered_heap l)) [1%nat]
  = filter (fun l => negb (keyed_tool_message half_answered_heap l)
                     && negb (incomplete half_answered_heap
                                (toolMessageMap_of half_answered_heap
                                   [0; 1]%nat []) l))
           [0; 1]%nat.
Proof.
  eapply (processMessages_keeps_order_of_others demo_platform
            WinstonPassThrough [0; 1]%nat [] true false
            (demo_state half_answered_heap)).
  vm_compute. reflexivity.
Defined.

(** A history that lists the first result twice, after an assistant message
    whose request the second result answers. *)
Lemma processMessages_no_tool_message_twice_witness :
  NoDup (filter (fun l => keyed_tool_message twice_answered_heap l)
           [0; 2; 1]%nat).
Proof.
  eapply (processMessages_no_tool_message_twice demo_platform ThrowOnError
            [0; 1; 1; 2]%nat [] false false
            (demo_state twice_answered_heap)).
  vm_compute. reflexivity.
Defined.

(** The assistant message of the settled history, whose two requests are
    answered. *)
Lemma processMessages_keeps_answerable_requests_witness :
  (1%nat ∈ [0; 1; 2; 3; 4]%nat
   ↔ 1%nat ∈ [0; 1; 2; 3; 4]%nat
     ∧ ∀ tc, tc ∈ [request "call_1"; request "call_2"] →
         ∃ id t c', usable_id tc = Some id
                    ∧ t ∈ [0; 1; 2; 3; 4]%nat ++ []
                    ∧ settled_heap !! t = Some (ToolMessage c' id)).
Proof.
  eapply (processMessages_keeps_answerable_requests demo_platform
            ThrowOnError [0; 1; 2; 3; 4]%nat [] false false
            (demo_state settled_heap) _ [0; 1; 2; 3; 4]%nat 1%nat
            (JStr EmptyString)).
  - vm_compute. reflexivity.
  - reflexivity.
  - discriminate.
Defined.


Section DroppedFacts.
Context {World : Type} (P : Platform).
Implicit Types (h : heap) (m : gmap string loc) (st : State World).

Lemma processMessages_step_logs lg h m f1 f2 msg acc st :
  lg = WinstonPassThrough ∨ f1 || f2 = true →
  ∃ entries,
    processMessages_step P lg h m f1 f2 msg acc st
    = (Normal (filter_step h m acc msg),
       {| st_heap := st_heap st; st_logs := st_logs st ++ entries;
          st_world := st_world st |})
    ∧ length entries = length (filter (fun l => incomplete h m l) [msg])
    ∧ Forall (fun e => level e = if f1 || f2 then warn else error) entries.
Proof.
  intros Hlg. unfold processMessages_step, filter_step.
  rewrite filter_bool_cons. unfold incomplete.
  assert (∀ out : list loc,
            ∃ entries,
              (Normal out, st)
              = (Normal out,
                 {| st_heap := st_heap st; st_logs := st_logs st ++ entries;
                    st_world := st_world st |})
              ∧ length entries = 0%nat
              ∧ Forall (fun e => level e = if f1 || f2 then warn else error)
                       entries) as Hquiet.
  { intros out. exists []. rewrite app_nil_r. by destruct st. }
  destruct (h !! msg) as [[ | |c [[|tc tcs]|]|c id]|]; try apply Hquiet.
  - destruct (allToolCallsHaveResponses m (tc :: tcs)); [apply Hquiet|].
    destruct (f1 || f2) eqn:Hf.
    + eexists [_]. unfold_monad. split_and!; [done|done|by repeat constructor].
    + destruct Hlg as [->|?]; [|done].
      eexists [_]. unfold_monad. split_and!; [done|done|by repeat constructor].
  - destruct (truthy_str id); apply Hquiet.
Qed.

Lemma processMessages_loop_logs lg h m f1 f2 msgs acc st :
  lg = WinstonPassThrough ∨ f1 || f2 = true →
  ∃ entries,
    processMessages_loop P lg h m f1 f2 msgs acc st
    = (Normal (filter_pass h m msgs acc),
       {| st_heap := st_heap st; st_logs := st_logs st ++ entries;
          st_world := st_world st |})
    ∧ length entries = length (filter (fun l => incomplete h m l) msgs)
    ∧ Forall (fun e => level e = if f1 || f2 then warn else error) entries.
Proof.
  intros Hlg. revert acc st.
  induction msgs as [|msg msgs IH]; intros acc st.
  - exists []. simpl. rewrite app_nil_r. by destruct st.
  - destruct (processMessages_step_logs lg h m f1 f2 msg acc st Hlg)
      as (es1 & Hstep & Hlen1 & Hlev1).
    cbn [processMessages_loop]. unfold bind at 1. rewrite Hstep.
    destruct (IH (filter_step h m acc msg)
                {| st_heap := st_heap st; st_logs := st_logs st ++ es1;
                   st_world := st_world st |})
      as (es2 & Hloop & Hlen2 & Hlev2).
    exists (es1 ++ es2). rewrite Hloop. simpl. split_and!.
    + by rewrite app_assoc.
    + change (msg :: msgs) with ([msg] ++ msgs).
      rewrite filter_app, !length_app. lia.
    + by apply Forall_app.
Qed.

(** The loop up to the first incomplete assistant message is silent. *)
Lemma processMessages_loop_app lg h m f1 f2 before rest acc st :
  Forall (fun l => incomplete h m l = false) before →
  processMessages_loop P lg h m f1 f2 (before ++ rest) acc st
  = processMessages_loop P lg h m f1 f2 rest (filter_pass h m before acc) st.
Proof.
  revert acc. induction before as [|msg before IH]; intros acc Hall; [done|].
  apply Forall_cons in Hall as [Hmsg Hall].
  cbn [app processMessages_loop]. unfold bind at 1.
  assert (processMessages_step P lg h m f1 f2 msg acc st
          = (Normal (filter_step h m acc msg), st)) as ->.
  { unfold processMessages_step, filter_step. unfold incomplete in Hmsg.
    destruct (h !! msg) as [[ | |c [[|tc tcs]|]|c id]|]; try done.
    - by destruct (allToolCallsHaveResponses m (tc :: tcs)).
    - by destruct (truthy_str id). }
  by apply IH.
Qed.

Lemma processMessages_loop_throws h m a c calls rest acc st :
  h !! a = Some (AIMessage c (Some calls)) → incomplete h m a = true →
  processMessages_loop P ThrowOnError h m false false (a :: rest) acc st
  = (Abrupt (ErrorObject
       (buildErrorMessage P "发现未完成的 tool_calls，且没有待处理的工具结果"
          [JObj [("missingToolCallIds",
                  JArr (JStr <$> missingIds m calls))]])),
     {| st_heap := st_heap st;
        st_logs := st_logs st ++
          [{| level := error;
              message := "发现未完成的 tool_calls，且没有待处理的工具结果";
              meta := [JObj [("missingToolCallIds",
                              JArr (JStr <$> missingIds m calls))]] |}];
        st_world := st_world st |}).
Proof.
  intros Ha Hinc. unfold incomplete in Hinc. rewrite Ha in Hinc.
  destruct calls as [|tc tcs]; [done|].
  apply negb_true_iff in Hinc.
  cbn [processMessages_loop]. unfold bind at 1, processMessages_step.
  rewrite Ha, Hinc. by unfold_monad.
Qed.

Lemma Exists_first {A} (f : A → bool) (l : list A) :
  Exists (fun x => f x = true) l →
  ∃ before a after,
    l = before ++ a :: after
    ∧ Forall (fun x => f x = false) before ∧ f a = true.
Proof.
  induction l as [|x l IH]; intros Hex; [by apply Exists_nil in Hex|].
  destruct (f x) eqn:Hx; [by exists [], x, l|].
  apply Exists_cons in Hex as [?|Hex]; [congruence|].
  destruct (IH Hex) as (before & a & after & -> & Hb & Ha).
  exists (x :: before), a, after. split_and!; [done|by constructor|done].
Qed.

Lemma incomplete_inv h m a :
  incomplete h m a = true →
  ∃ c calls, h !! a = Some (AIMessage c (Some calls)).
Proof.
  unfold incomplete.
  destruct (h !! a) as [[ | |c [calls|]|c id]|]; try done. eauto.
Qed.

(** X6.  With the first logger, or with one of the two flags set,
    [processMessages] always returns: it changes no message, and it logs one
    entry for each occurrence of an assistant message it drops, a warning
    when a flag is set and an error otherwise. *)
Theorem processMessages_logs_each_dropped_message (lg : LoggerVersion)
    (msgs new : list loc) (f1 f2 : bool) (st : State World) :
  lg = WinstonPassThrough ∨ f1 || f2 = true →
  ∃ out entries,
    processMessages P lg msgs new f1 f2 st
    = (Normal out,
       {| st_heap := st_heap st; st_logs := st_logs st ++ entries;
          st_world := st_world st |})
    ∧ length entries
      = length (filter (fun l => incomplete (st_heap st)
                          (toolMessageMap_of (st_heap st) msgs new) l) msgs)
    ∧ Forall (fun e => level e = if f1 || f2 then warn else error) entries.
Proof.
  intros Hlg. unfold processMessages, bind, get_heap.
  destruct (processMessages_loop_logs lg (st_heap st)
              (toolMessageMap_of (st_heap st) msgs new) f1 f2 msgs [] st Hlg)
    as (entries & Hrun & Hlen & Hlev).
  by exists (filter_pass (st_heap st)
               (toolMessageMap_of (st_heap st) msgs new) msgs []), entries.
Qed.

(** X9.  With the throwing logger and no flag set, [processMessages]
    throws exactly when the history holds an assistant message with requests
    that are not all answered. *)
Theorem processMessages_throws_iff_incomplete (msgs new : list loc)
    (st : State World) :
  (∃ e st', processMessages P ThrowOnError msgs new false false st
            = (Abrupt e, st'))
  ↔ Exists (fun l => incomplete (st_heap st)
                       (toolMessageMap_of (st_heap st) msgs new) l = true)
           msgs.
Proof.
  unfold processMessages, bind, get_heap.
  set (h := st_heap st). set (m := toolMessageMap_of h msgs new).
  change (collectToolMessages h new (collectToolMessages h msgs ∅)) with m.
  split.
  - intros (e & st' & Hrun).
    destruct (decide (Exists (fun l => incomplete h m l = true) msgs))
      as [|Hnone]; [done|].
    rewrite (processMessages_loop_quiet P ThrowOnError h m false false
               msgs [] st) in Hrun; [done|].
    intros a c calls Hin Ha Hne.
    destruct (allToolCallsHaveResponses m calls) eqn:Hall; [done|].
    destruct Hnone. apply Exists_exists. exists a. split; [done|].
    unfold incomplete. rewrite Ha. destruct calls; [done|]. by rewrite Hall.
  - intros (before & a & after & Hmsgs & Hb & Ha)%Exists_first.
    destruct (incomplete_inv h m a Ha) as (c & calls & Hc).
    rewrite Hmsgs.
    rewrite (processMessages_loop_app ThrowOnError h m false false
               before (a :: after) [] st Hb).
    rewrite (processMessages_loop_throws h m a c calls after _ st Hc Ha).
    eauto.
Qed.

(** X10.  With the throwing logger and no flag set, [processMessages]
    stops at the first assistant message whose requests are not all
    answered: it logs one error that lists the unanswered ids of that message
    and throws an [Error] with the message built from it; nothing is logged
    for the messages before it. *)
Theorem processMessages_throws_at_first_incomplete
    (before after new : list loc) (a : loc) (c : JsValue)
    (calls : list ToolCallRequest) (st : State World) :
  Forall (fun l => incomplete (st_heap st)
             (toolMessageMap_of (st_heap st) (before ++ a :: after) new) l
           = false) before →
  st_heap st !! a = Some (AIMessage c (Some calls)) →
  incomplete (st_heap st)
    (toolMessageMap_of (st_heap st) (before ++ a :: after) new) a = true →
  ∃ text meta,
    processMessages P ThrowOnError (before ++ a :: after) new false false st
    = (Abrupt (ErrorObject (buildErrorMessage P text meta)),
       {| st_heap := st_heap st;
          st_logs := st_logs st
                     ++ [{| level := error; message := text; meta := meta |}];
          st_world := st_world st |})
    ∧ meta
      = [JObj [("missingToolCallIds",
                JArr (JStr <$> missingIds
                        (toolMessageMap_of (st_heap st)
                           (before ++ a :: after) new) calls))]].
Proof.
  intros Hb Hc Ha. unfold processMessages, bind, get_heap.
  set (h := st_heap st) in *.
  set (m := toolMessageMap_of h (before ++ a :: after) new) in *.
  change (collectToolMessages h new
            (collectToolMessages h (before ++ a :: after) ∅)) with m.
  rewrite (processMessages_loop_app ThrowOnError h m false false
             before (a :: after) [] st Hb).
  rewrite (processMessages_loop_throws h m a c calls after _ st Hc Ha).
  eauto.
Qed.
End DroppedFacts.

(** The half-answered history under the first logger, no flag set. *)
Lemma processMessages_logs_each_dropped_message_witness :
  ∃ out entries,
    processMessages demo_platform WinstonPassThrough [0; 1]%nat [] false false
      (demo_state half_answered_heap)
    = (Normal out,
       {| st_heap := half_answered_heap; st_logs := entries;
          st_world := tt |})
    ∧ length entries = 1%nat
    ∧ Forall (fun e => level e = error) entries.
Proof.
  apply (processMessages_logs_each_dropped_message demo_platform
           WinstonPassThrough [0; 1]%nat [] false false
           (demo_state half_answered_heap)).
  left. reflexivity.
Defined.

(** The half-answered history: the error names [call_2]. *)
Lemma processMessages_throws_at_first_incomplete_witness :
  ∃ text meta,
    processMessages demo_platform ThrowOnError [0; 1]%nat [] false false
      (demo_state half_answered_heap)
    = (Abrupt (ErrorObject (buildErrorMessage demo_platform text meta)),
       {| st_heap := half_answered_heap;
          st_logs := [{| level := error; message := text; meta := meta |}];
          st_world := tt |})
    ∧ meta = [JObj [("missingToolCallIds", JArr [JStr "call_2"])]].
Proof.
  apply (processMessages_throws_at_first_incomplete demo_platform
           [] [1%nat] [] 0%nat (JStr EmptyString)
           [request "call_1"; request "call_2"]
           (demo_state half_answered_heap)).
  - constructor.
  - reflexivity.
  - vm_compute. reflexivity.
Defined.


(** ** The executors under each logger *)

Section ExecutorRuns.
Context {World : Type} (P : Platform).
Variable toolRegistry : gmap string (Tool World).
Implicit Types (st : State World) (toolCall : ToolCall).

(** With the first logger a call whose tool rejects adds an error record. *)
Lemma executeTools_loop_rejecting_tool_recorded toolCall rest toolResults st
    tool e w :
  toolRegistry !! call_name toolCall = Some tool →
  execute tool (call_args toolCall) (st_world st) = (inl e, w) →
  ∃ entries,
    executeTools_loop P WinstonPassThrough toolRegistry (toolCall :: rest)
      toolResults st
    = executeTools_loop P WinstonPassThrough toolRegistry rest
        (toolResults
         ++ [error_record (call_name toolCall) (error_text P e)])
        {| st_heap := st_heap st;
           st_logs := st_logs st ++ entries;
           st_world := w |}.
Proof.
  intros Hsome Hrej. simpl. rewrite Hsome.
  unfold bind at 1, try_catch, logger_info, await_execute, bind, write_log,
    on_world, throw, record_failure, logger_error, bind, write_log, ret.
  simpl. rewrite Hrej. simpl. rewrite <- app_assoc. eauto.
Qed.

Lemma executeTools_loop_first_logger toolCalls toolResults st :
  ∃ records st',
    executeTools_loop P WinstonPassThrough toolRegistry toolCalls
      toolResults st
    = (Normal (toolResults ++ records), st')
    ∧ result_name <$> records
      = call_name <$> filter (fun toolCall =>
                                is_Some (toolRegistry !! call_name toolCall))
                             toolCalls
    ∧ st_heap st' = st_heap st.
Proof.
  revert toolResults st.
  induction toolCalls as [|toolCall rest IH]; intros toolResults st.
  - exists [], st. by rewrite app_nil_r.
  - destruct (toolRegistry !! call_name toolCall) as [tool|] eqn:Htool.
    + rewrite filter_cons_True by (by rewrite Htool).
      destruct (execute tool (call_args toolCall) (st_world st))
        as [[e|v] w] eqn:Hrun.
      * destruct (executeTools_loop_rejecting_tool_recorded toolCall rest
                    toolResults st tool e w Htool Hrun) as [entries ->].
        edestruct IH as (records & st' & -> & Hnames & Hheap).
        exists (error_record (call_name toolCall) (error_text P e) :: records),
          st'.
        rewrite <- app_assoc. split_and!; [done| |done].
        simpl. by f_equal.
      * destruct (executeTools_loop_success P toolRegistry WinstonPassThrough
                    toolCall rest toolResults st tool v w Htool Hrun)
          as [entry ->].
        edestruct IH as (records & st' & -> & Hnames & Hheap).
        exists ({| result_name := call_name toolCall; result := v |}
                  :: records), st'.
        rewrite <- app_assoc. split_and!; [done| |done].
        simpl. by f_equal.
    + rewrite filter_cons_False by (rewrite Htool; by intros [? ?]).
      destruct (executeTools_loop_missing_tool_skipped P toolRegistry
                  toolCall rest toolResults st Htool) as [entry ->].
      edestruct IH as (records & st' & -> & Hnames & Hheap).
      by exists records, st'.
Qed.

Lemma executeTools_loop_throwing_logger toolCalls toolResults st out st' :
  executeTools_loop P ThrowOnError toolRegistry toolCalls toolResults st
  = (Normal out, st') →
  ∃ records,
    out = toolResults ++ records
    ∧ all_resolve toolRegistry toolCalls (st_world st) records (st_world st').
Proof.
  revert toolResults st.
  induction toolCalls as [|toolCall rest IH]; intros toolResults st.
  - intros [= <- <-]. exists []. split; [by rewrite app_nil_r|constructor].
  - destruct (toolRegistry !! call_name toolCall) as [tool|] eqn:Htool.
    + destruct (execute tool (call_args toolCall) (st_world st))
        as [[e|v] w] eqn:Hrun.
      * destruct (executeTools_loop_rejecting_tool_aborts P toolRegistry
                    toolCall rest toolResults st tool e w Htool Hrun)
          as (e' & st1 & -> & _). done.
      * destruct (executeTools_loop_success P toolRegistry ThrowOnError
                    toolCall rest toolResults st tool v w Htool Hrun)
          as [entry ->].
        intros (records & -> & Hall)%IH.
        exists ({| result_name := call_name toolCall; result := v |}
                  :: records).
        split; [by rewrite <- app_assoc|].
        by eapply all_resolve_cons.
    + destruct (executeTools_loop_missing_tool_aborts P toolRegistry
                  toolCall rest toolResults st Htool) as (e' & st1 & -> & _).
      done.
Qed.

End ExecutorRuns.

(** X12.  With the throwing logger [executeTools] returns only when every
    call named a registered tool and every tool resolved: what it returns is
    one record per call holding the resolved value, never an error
    record. *)
Theorem executeTools_returns_only_resolved_results {World : Type}
    (P : Platform) (toolRegistry : gmap string (Tool World))
    (toolCalls : list ToolCall) (st st' : State World)
    (records : list ToolResult) :
  executeTools P ThrowOnError toolRegistry toolCalls st
  = (Normal records, st') →
  all_resolve toolRegistry toolCalls (st_world st) records (st_world st').
Proof.
  unfold executeTools, bind at 1, logger_info, write_log.
  intros (records' & Heq & Hall)%executeTools_loop_throwing_logger.
  by rewrite Heq.
Qed.

(** One call of the registered, resolving tool [a]. *)
Lemma executeTools_returns_only_resolved_results_witness :
  all_resolve demo_registry [call "a"] tt [ok_record "a"]
    (st_world (snd demo_tool_run)).
Proof.
  apply (executeTools_returns_only_resolved_results demo_platform
           demo_registry [call "a"] (demo_state []) (snd demo_tool_run)
           [ok_record "a"]).
  reflexivity.
Defined.

(** X13.  With the first logger [executeTools] never throws and never
    touches a message: it returns one record for each call whose tool is
    registered, in call order, and none for the others. *)
Theorem executeTools_first_logger_skips_unregistered {World : Type}
    (P : Platform) (toolRegistry : gmap string (Tool World))
    (toolCalls : list ToolCall) (st : State World) :
  ∃ records st',
    executeTools P WinstonPassThrough toolRegistry toolCalls st
    = (Normal records, st')
    ∧ result_name <$> records
      = call_name <$> filter (fun toolCall =>
                                is_Some (toolRegistry !! call_name toolCall))
                             toolCalls
    ∧ st_heap st' = st_heap st.
Proof.
  unfold executeTools, bind at 1, logger_info, write_log.
  match goal with
  | |- context [executeTools_loop _ _ _ _ [] ?st0] =>
      destruct (executeTools_loop_first_logger P toolRegistry toolCalls [] st0)
        as (records & st' & -> & Hnames & Hheap)
  end.
  by exists records, st'.
Qed.


(** One call of the registered, resolving tool [a], under the first
    logger. *)
Lemma executeTools_all_resolve_witness :
  (∃ st', executeTools demo_platform WinstonPassThrough demo_registry
            [call "a"] (demo_state [])
          = (Normal [ok_record "a"], st')
          ∧ st_world st' = tt ∧ st_heap st' = [])
  ∧ result_name <$> [ok_record "a"] = call_name <$> [call "a"].
Proof.
  apply (executeTools_all_resolve demo_platform WinstonPassThrough
           demo_registry [call "a"] [ok_record "a"] tt (demo_state [])).
  eapply all_resolve_cons; [reflexivity|reflexivity|constructor].
Defined.

(** ** The agent step *)

Section NodeFacts.
Context {World : Type} (P : Platform) (lg : LoggerVersion).
Variable llm : LLM World.
Variable toolRegistry : gmap string (Tool World).
Variable systemPrompt : option string.
Implicit Types (h : heap) (st : State World) (state : AgentState).

(** What the filtering pass returns passes [validateToolCalls]. *)
Lemma filter_pass_valid h msgs new :
  isValid (validateToolCalls h
             (filter_pass h (toolMessageMap_of h msgs new) msgs [])) = true.
Proof.
  set (m := toolMessageMap_of h msgs new).
  assert (answered_by_map h m (filter_pass h m msgs [])) as Hans.
  { apply filter_pass_answered; [apply toolMessageMap_of_tool_messages|].
    by intros a c calls tc ?%elem_of_nil. }
  apply isValid_spec. intros id (a & c & calls & tc & Hin & Ha & Htc & Hid).
  destruct (Hans a c calls tc Hin Ha Htc) as (id' & t & Hid' & Ht & Hout).
  destruct (toolMessageMap_of_tool_messages h msgs new id' t Ht) as [c' Hc].
  assert (id' = id) as -> by congruence.
  exists t, c'. split_and!; [done..|].
  by apply usable_id_Some in Hid as [_ ?].
Qed.

(** A system message in front changes nothing for the validation. *)
Lemma validateToolCalls_behind_system_message h s c msgs :
  h !! s = Some (SystemMessage c) →
  isValid (validateToolCalls h msgs) = true →
  isValid (validateToolCalls h (s :: msgs)) = true.
Proof.
  intros Hs Hvalid. apply isValid_spec.
  intros id (a & c' & calls & tc & Hin & Ha & Htc & Hid).
  apply elem_of_cons in Hin as [->|Hin]; [congruence|].
  destruct (proj1 (isValid_spec h msgs) Hvalid id) as (t & c'' & Ht & ? & ?).
  { by exists a, c', calls, tc. }
  exists t, c''. split_and!; [by right|done|done].
Qed.

(** The shape of what [createToolMessages] returns: references to the new
    objects, which are tool messages with an id. *)
Lemma createToolMessages_shape records last st :
  ∃ new_messages warnings,
    createToolMessages P records last st
    = (Normal (seq (length (st_heap st)) (length new_messages)),
       {| st_heap := st_heap st ++ new_messages;
          st_logs := st_logs st ++ warnings;
          st_world := st_world st |})
    ∧ (length new_messages ≤ length records)%nat.
Proof.
  assert (∃ new_messages warnings,
            (Normal [], st)
            = (Normal (seq (length (st_heap st)) (length new_messages)),
               {| st_heap := st_heap st ++ new_messages;
                  st_logs := st_logs st ++ warnings;
                  st_world := st_world st |})
            ∧ (length new_messages ≤ length records)%nat) as Hnone.
  { exists [], []. rewrite !app_nil_r. destruct st. split; [done|]. simpl. lia. }
  unfold createToolMessages, bind, get_heap. simpl.
  destruct (last ≫= (st_heap st !!.)) as [[ | |c [calls|]|c id]|];
    try apply Hnone.
  rewrite (createToolMessages_forEach_spec P calls 0 records [] st). simpl.
  eexists _, _. split; [done|].
  pose proof (length_paired_dropped P calls 0 records). simpl in *. lia.
Qed.

(** What [getMessageList] returns: the output of the filtering pass over
    the heap it leaves, behind the system message it may have created. *)
Lemma getMessageList_normal msgs state st out st' :
  getMessageList P lg systemPrompt msgs state st = (Normal out, st') →
  (st_heap st `prefix_of` st_heap st')
  ∧ ∃ new final,
      final = filter_pass (st_heap st')
                (toolMessageMap_of (st_heap st') msgs new) msgs []
      ∧ (out = final
         ∨ ∃ s c, out = s :: final ∧ st_heap st' !! s = Some (SystemMessage c)).
Proof.
  unfold getMessageList. unfold bind at 1, get_heap. simpl.
  unfold bind at 1.
  set (hasSys := existsb is_SystemMessage (deref (st_heap st) msgs)).
  assert (∃ allMessages st1,
            match systemPrompt with
            | Some prompt =>
                if negb hasSys && truthy_str prompt
                then let! s := alloc (SystemMessage (JStr prompt)) in ret [s]
                else ret []
            | None => ret []
            end st = (Normal allMessages, st1)
            ∧ st_heap st `prefix_of` st_heap st1
            ∧ (allMessages = []
               ∨ ∃ s c, allMessages = [s]
                        ∧ st_heap st1 !! s = Some (SystemMessage c)))
    as (allMessages & st1 & -> & Hpre1 & Hall).
  { destruct systemPrompt as [prompt|]; [|by exists [], st; eauto].
    destruct (negb hasSys && truthy_str prompt); [|by exists [], st; eauto].
    eexists _, _. unfold bind, alloc, ret. simpl.
    split_and!; [done|by apply prefix_app_r|].
    right. eexists _, _. split; [done|]. by apply list_lookup_middle. }
  unfold bind at 1.
  destruct (createToolMessages_shape (toolResults state)
              (findLastAIMessageWithTools (st_heap st) msgs) st1)
    as (news & warnings & -> & _).
  unfold bind at 1.
  match goal with
  | |- context [processMessages P lg msgs ?new ?f1 ?f2 ?st2] =>
      destruct (processMessages P lg msgs new f1 f2 st2)
        as [[final|e] st3] eqn:Hrun; [|done];
      apply processMessages_normal in Hrun as (-> & Hh3 & _);
      simpl in Hh3
  end.
  unfold bind, logger_info, write_log, ret. simpl.
  intros [= <- <-]. simpl. rewrite Hh3. split.
  { etrans; [done|]. by apply prefix_app_r. }
  eexists _, _. split; [done|].
  destruct Hall as [->|(s & c & -> & Hs)].
  - left. by rewrite andb_false_r.
  - destruct (negb hasSys); [|by left]. right. exists s, c. split; [done|].
    by apply lookup_app_l_Some.
Qed.

Lemma getMessageList_valid msgs state st out st' :
  getMessageList P lg systemPrompt msgs state st = (Normal out, st') →
  isValid (validateToolCalls (st_heap st') out) = true.
Proof.
  intros (_ & new & final & -> & [->|(s & c & -> & Hs)])%getMessageList_normal.
  - apply filter_pass_valid.
  - eapply validateToolCalls_behind_system_message; [done|].
    apply filter_pass_valid.
Qed.
End NodeFacts.

(** X15.  The list [getMessageList] returns always passes
    [validateToolCalls]: inside [Node.execute] the validation of
    [getLLMWithTools] never fails, so neither of its error branches is taken
    and it only logs the tool count. *)
Theorem getMessageList_passes_validation {World : Type} (P : Platform)
    (lg : LoggerVersion) (toolRegistry : gmap string (Tool World))
    (systemPrompt : option string) (msgs : list loc) (state : AgentState)
    (st st' : State World) (out : list loc) :
  getMessageList P lg systemPrompt msgs state st = (Normal out, st') →
  isValid (validateToolCalls (st_heap st') out) = true
  ∧ ∃ entry,
      getLLMWithTools P lg toolRegistry out state st'
      = (Normal tt,
         {| st_heap := st_heap st';
            st_logs := st_logs st' ++ [entry];
            st_world := st_world st' |})
      ∧ level entry = info.
Proof.
  intros Hvalid%getMessageList_valid. split; [done|].
  unfold getLLMWithTools, bind at 1, get_heap. unfold bind at 1.
  rewrite Hvalid. unfold ret, logger_info, write_log. by eexists.
Qed.

(** The first step of the demo turn: the system message and the user
    message. *)
Lemma getMessageList_passes_validation_witness :
  isValid (validateToolCalls (st_heap (snd demo_message_list)) [1; 0]%nat)
  = true.
Proof.
  refine (proj1
    (getMessageList_passes_validation demo_platform ThrowOnError
       demo_registry (Some "You are viscum") [0%nat] demo_turn_state
       (demo_state demo_turn_heap) (snd demo_message_list) [1; 0]%nat _)).
  reflexivity.
Defined.

Section StepFacts.
Context {World : Type} (P : Platform) (lg : LoggerVersion).
Variable llm : LLM World.
Variable toolRegistry : gmap string (Tool World).
Variable systemPrompt : option string.
Implicit Types (h : heap) (st : State World) (state : AgentState).

Lemma getLLMWithTools_heap msgs state st st' :
  getLLMWithTools P lg toolRegistry msgs state st = (Normal tt, st') →
  st_heap st' = st_heap st.
Proof.
  unfold getLLMWithTools, bind at 1, get_heap. unfold bind at 1.
  destruct (isValid (validateToolCalls (st_heap st) msgs)).
  - unfold ret, logger_info, write_log. by intros [= <-].
  - destruct (negb (nonempty (toolResults state))), lg;
      unfold logger_error, logger_info, bind, write_log, ret, throw; simpl;
      by intros [= <-].
Qed.

Lemma invoke_llm_normal msgs st response st' :
  invoke_llm llm msgs st = (Normal response, st') →
  response = length (st_heap st)
  ∧ ∃ m, st_heap st' = st_heap st ++ [m].
Proof.
  unfold invoke_llm, bind, get_heap, on_world. simpl.
  destruct (llm (deref (st_heap st) msgs) (st_world st)) as [[e|m] w]; simpl;
    [done|].
  unfold alloc. simpl. intros [= <- <-]. simpl. eauto.
Qed.

Lemma nonempty_response_tool_calls h response :
  nonempty (response_tool_calls (h !! response)) = carries_requests h response.
Proof.
  unfold carries_requests, response_tool_calls.
  by destruct (h !! response) as [[ | |c [[|tc tcs]|]|c id]|].
Qed.

Lemma toolCallsToExecute_length calls st toExecute st' :
  toolCallsToExecute P calls st = (Normal toExecute, st') →
  length toExecute = length calls.
Proof.
  revert st toExecute st'.
  induction calls as [|tc calls IH]; intros st toExecute st'.
  - by intros [= <- _].
  - cbn [toolCallsToExecute]. unfold bind at 1.
    match goal with
    | |- context [match ?m st with _ => _ end] =>
        destruct (m st) as [[args|?] st1]; [|done]
    end.
    unfold bind at 1.
    destruct (toolCallsToExecute P calls st1) as [[rest|?] st2] eqn:Hrest;
      [|done].
    unfold ret. intros [= <- _]. simpl. f_equal. by eapply IH.
Qed.

Lemma all_resolve_length (toolCalls : list ToolCall) w records w' :
  all_resolve toolRegistry toolCalls w records w' →
  length records = length toolCalls.
Proof. induction 1; simpl; [done|by f_equal]. Qed.

Lemma execute_node_normal state st update st' :
  execute_node P lg llm toolRegistry systemPrompt state st
  = (Normal update, st') →
  ∃ created response,
    upd_messages update = Some (created ++ [response])
    ∧ (length (st_heap st) ≤ response)%nat
    ∧ created = seq (S response) (length created)
    ∧ (S response + length created ≤ length (st_heap st'))%nat
    ∧ (carries_requests (st_heap st') response = true →
       created = [] ∧ upd_toolCalls update = Some []
       ∧ is_Some (upd_toolResults update)
       ∧ (lg = ThrowOnError → upd_toolResults update ≠ Some []))
    ∧ (carries_requests (st_heap st') response = false →
       upd_toolCalls update = None ∧ upd_toolResults update = Some []
       ∧ (length created ≤ length (toolResults state))%nat).
Proof.
  unfold execute_node. unfold bind at 1.
  destruct (getMessageList P lg systemPrompt (messages state) state st)
    as [[allMessages|?] st1] eqn:Hlist; [|done].
  apply getMessageList_normal in Hlist as [Hpre1 _].
  unfold bind at 1.
  destruct (getLLMWithTools P lg toolRegistry allMessages state st1)
    as [[[]|?] st2] eqn:Hcheck; [|done].
  apply getLLMWithTools_heap in Hcheck.
  unfold bind at 1.
  destruct (invoke_llm llm allMessages st2) as [[response|?] st3] eqn:Hllm;
    [|done].
  apply invoke_llm_normal in Hllm as (-> & m & Hh3).
  unfold bind at 1, get_heap. unfold bind at 1, logger_debug, write_log.
  cbn [st_heap].
  rewrite nonempty_response_tool_calls.
  assert (length (st_heap st) ≤ length (st_heap st2))%nat as Hle.
  { rewrite Hcheck. by apply prefix_length. }
  assert (S (length (st_heap st2)) = length (st_heap st3)) as Hlen3.
  { rewrite Hh3, length_app. simpl. lia. }
  assert (∀ h, st_heap st3 `prefix_of` h →
               carries_requests h (length (st_heap st2))
               = carries_requests (st_heap st3) (length (st_heap st2)))
    as Hsame.
  { intros h [k ->]. unfold carries_requests.
    rewrite (lookup_app_l (st_heap st3) k); [done|]. lia. }
  destruct (carries_requests (st_heap st3) (length (st_heap st2))) eqn:Hcalls.
  - unfold bind at 1, logger_info, write_log. unfold bind at 1.
    match goal with
    | |- context [toolCallsToExecute P ?calls ?st4] =>
        destruct (toolCallsToExecute P calls st4) as [[toExecute|?] st5]
          eqn:Hparse; [|done];
        pose proof (toolCallsToExecute_length _ _ _ _ Hparse) as Hsize;
        apply (heap_grows_toolCallsToExecute P calls) in Hparse;
        simpl in Hparse
    end.
    unfold bind at 1.
    destruct (executeTools P lg toolRegistry toExecute st5)
      as [[results|?] st6] eqn:Hrun; [|done].
    assert (lg = ThrowOnError → results ≠ []) as Hsome.
    { intros ->. unfold executeTools, bind at 1, logger_info, write_log in Hrun.
      apply executeTools_loop_throwing_logger in Hrun as (records & -> & Hall).
      apply all_resolve_length in Hall. simpl. intros ->.
      rewrite <- nonempty_response_tool_calls in Hcalls.
      destruct (response_tool_calls _); [done|].
      simpl in *. lia. }
    apply (heap_grows_executeTools P lg toolRegistry toExecute) in Hrun.
    unfold ret. intros [= <- <-].
    assert (st_heap st3 `prefix_of` st_heap st6) as Hpre by by etrans.
    exists [], (length (st_heap st2)). simpl.
    split_and!; [done|done|done| | |].
    + apply prefix_length in Hpre. lia.
    + intros _. split_and!; [done|done|by eexists|].
      intros Hlg [= Hnil]. by apply Hsome.
    + rewrite (Hsame _ Hpre). congruence.
  - unfold handleFinalResponse, bind at 1, logger_debug, write_log.
    unfold bind at 1.
    match goal with
    | |- context [createToolMessagesFromResults P state ?st4] =>
        assert (∃ news st5,
                  createToolMessagesFromResults P state st4
                  = (Normal (seq (length (st_heap st3)) (length news)), st5)
                  ∧ st_heap st5 = st_heap st3 ++ news
                  ∧ (length news ≤ length (toolResults state))%nat)
          as (news & st5 & -> & Hh5 & Hcount)
    end.
    { unfold createToolMessagesFromResults.
      destruct (toolResults state) as [|r rs] eqn:Hres.
      - eexists [], _. unfold ret. simpl.
        split_and!; [done|by rewrite app_nil_r|lia].
      - unfold bind at 1, get_heap.
        match goal with
        | |- context [createToolMessages P ?records ?last ?st4] =>
            destruct (createToolMessages_shape P records last st4)
              as (news & warnings & -> & Hcount)
        end.
        exists news. eexists. simpl. split_and!; [done|done|done]. }
    unfold ret. intros [= <- <-]. simpl.
    exists (seq (length (st_heap st3)) (length news)),
      (length (st_heap st2)).
    rewrite Hh5, length_seq, length_app, <- Hlen3.
    split_and!; [|done|done|lia| |].
    + by destruct (seq _ _).
    + intros Hyes. rewrite (Hsame (st_heap st3 ++ news)) in Hyes;
        [congruence|by apply prefix_app_r].
    + intros _. split_and!; [done|done|lia].
Qed.
End StepFacts.

(** X16.  The messages a step of [Node.execute] returns are objects
    created during that step, each once: the response of the model last and,
    in front of it, the tool messages created for the pending records (at
    most one per record, none when the response asks for tools).  The tool
    messages are created after the response, so they are not the ones that
    were sent to the model. *)
Theorem execute_node_stores_new_objects {World : Type} (P : Platform)
    (lg : LoggerVersion) (llm : LLM World)
    (toolRegistry : gmap string (Tool World)) (systemPrompt : option string)
    (state : AgentState) (st st' : State World) (update : PartialState) :
  execute_node P lg llm toolRegistry systemPrompt state st
  = (Normal update, st') →
  ∃ created response,
    upd_messages update = Some (created ++ [response])
    ∧ NoDup (created ++ [response])
    ∧ Forall (fun l => (length (st_heap st) ≤ l < length (st_heap st'))%nat)
             (created ++ [response])
    ∧ Forall (fun l => (response < l)%nat) created
    ∧ (length created ≤ length (toolResults state))%nat
    ∧ (carries_requests (st_heap st') response = true → created = []).
Proof.
  intros (created & response & Hupd & Hfresh & Hseq & Hlen & Hcalls & Hfinal)
    %execute_node_normal.
  exists created, response.
  assert (Forall (fun l => (response < l < length (st_heap st'))%nat) created)
    as Hcreated.
  { rewrite Hseq. apply Forall_seq. intros l Hl. lia. }
  split_and!; [done| | | | |].
  - apply NoDup_app. split_and!.
    + rewrite Hseq. apply NoDup_seq.
    + intros l Hl ->%list_elem_of_singleton.
      rewrite Forall_forall in Hcreated. specialize (Hcreated _ Hl). lia.
    + apply NoDup_singleton.
  - apply Forall_app. split.
    + eapply Forall_impl; [done|]. simpl. lia.
    + apply Forall_singleton. lia.
  - eapply Forall_impl; [done|]. simpl. lia.
  - destruct (carries_requests (st_heap st') response) eqn:E.
    + destruct (Hcalls eq_refl) as (-> & _). simpl. lia.
    + by destruct (Hfinal eq_refl) as (_ & _ & ?).
  - intros E. by destruct (Hcalls E).
Qed.

(** The first step of the demo turn. *)
Lemma execute_node_stores_new_objects_witness :
  ∃ created response,
    upd_messages demo_first_update = Some (created ++ [response])
    ∧ NoDup (created ++ [response])
    ∧ Forall (fun l => (length (st_heap (demo_state demo_turn_heap)) ≤ l
                        < length (st_heap (snd demo_first_step)))%nat)
             (created ++ [response])
    ∧ Forall (fun l => (response < l)%nat) created
    ∧ (length created ≤ length (toolResults demo_turn_state))%nat
    ∧ (carries_requests (st_heap (snd demo_first_step)) response = true →
       created = []).
Proof.
  apply (execute_node_stores_new_objects demo_platform ThrowOnError demo_llm
           demo_registry (Some "You are viscum") demo_turn_state
           (demo_state demo_turn_heap) (snd demo_first_step)
           demo_first_update).
  reflexivity.
Defined.

(** ** Runs of the workflow *)

Section RunFacts.
Context {World : Type}.
Variable agentNode : AgentState → M World PartialState.
Implicit Types (st : State World) (state : AgentState).

(** What is true of the first state and kept by every step is true of the
    final state. *)
Lemma run_agent_invariant (Inv : AgentState → State World → Prop) :
  (∀ state st update st',
     agentNode state st = (Normal update, st') → Inv state st →
     Inv (apply_update state update) st') →
  ∀ fuel state st chunks final st',
    Inv state st →
    run_agent agentNode fuel state st = (chunks, (Normal final, st')) →
    Inv final st'.
Proof.
  intros Hstep. induction fuel as [|fuel IH];
    intros state st chunks final st' Hinv; [done|].
  cbn [run_agent].
  destruct (agentNode state st) as [[update|?] st1] eqn:Hnode; [|done].
  pose proof (Hstep _ _ _ _ Hnode Hinv) as Hinv'.
  rewrite next_node_agent.
  destruct (nonempty (toolResults (apply_update state update))).
  - destruct (run_agent agentNode fuel (apply_update state update) st1)
      as [chunks' r] eqn:Hrun.
    intros [= <- ->]. by eapply IH.
  - by intros [= <- <- <-].
Qed.

Lemma run_agent_chunks fuel state st chunks r st' :
  run_agent agentNode fuel state st = (chunks, (r, st')) →
  (length chunks ≤ fuel)%nat
  ∧ Forall (fun chunk => fst chunk = "agent") chunks
  ∧ ∀ final, r = Normal final →
      chunks ≠ []
      ∧ messages final
        = messages state
          ++ mjoin ((fun chunk => default [] (upd_messages (snd chunk)))
                      <$> chunks).
Proof.
  revert state st chunks r st'. induction fuel as [|fuel IH];
    intros state st chunks r st'.
  - intros [= <- <- <-]. split_and!; [done|done|done].
  - cbn [run_agent].
    destruct (agentNode state st) as [[update|?] st1] eqn:Hnode.
    2:{ intros [= <- <- <-]. split_and!; [simpl; lia|done|done]. }
    rewrite next_node_agent.
    assert (messages (apply_update state update)
            = messages state ++ default [] (upd_messages update)) as Hmsgs.
    { unfold apply_update, messagesReducer. simpl.
      destruct (upd_messages update); [done|by rewrite app_nil_r]. }
    destruct (nonempty (toolResults (apply_update state update))).
    + destruct (run_agent agentNode fuel (apply_update state update) st1)
        as [chunks' [r' st2]] eqn:Hrun.
      intros [= <- <- <-].
      destruct (IH _ _ _ _ _ Hrun) as (Hlen & Hnames & Hfinal).
      split_and!; [simpl; lia|by constructor|].
      intros final ->. destruct (Hfinal final eq_refl) as [_ ->].
      split; [done|]. rewrite Hmsgs. simpl. by rewrite <- app_assoc.
    + intros [= <- <- <-].
      split_and!; [simpl; lia|by repeat constructor|].
      intros final [= <-]. split; [done|]. rewrite Hmsgs. simpl.
      by rewrite app_nil_r.
Qed.
End RunFacts.

(** X17.  A run of the workflow that ends normally yields between one
    chunk and as many chunks as the recursion limit allows, all from the
    [agent] node, and the final history is the initial history followed by
    the messages of the chunks, in order. *)
Theorem run_agent_appends_chunk_messages {World : Type}
    (agentNode : AgentState → M World PartialState) (fuel : nat)
    (state final : AgentState) (st st' : State World)
    (chunks : list Chunk) :
  run_agent agentNode fuel state st = (chunks, (Normal final, st')) →
  (1 ≤ length chunks ≤ fuel)%nat
  ∧ Forall (fun chunk => fst chunk = "agent") chunks
  ∧ messages final
    = messages state
      ++ mjoin ((fun chunk => default [] (upd_messages (snd chunk)))
                  <$> chunks).
Proof.
  intros (Hlen & Hnames & Hfinal)%run_agent_chunks.
  destruct (Hfinal final eq_refl) as [Hne Hmsgs].
  split_and!; [|lia|done|done].
  destruct chunks; [done|simpl; lia].
Qed.

(** The demo turn: two chunks. *)
Lemma run_agent_appends_chunk_messages_witness :
  (1 ≤ length demo_chunks ≤ 25)%nat
  ∧ Forall (fun chunk => fst chunk = "agent") demo_chunks
  ∧ messages demo_final_state
    = messages demo_turn_state
      ++ mjoin ((fun chunk => default [] (upd_messages (snd chunk)))
                  <$> demo_chunks).
Proof.
  apply (run_agent_appends_chunk_messages demo_node 25 demo_turn_state
           demo_final_state (demo_state demo_turn_heap) (snd (snd demo_run))
           demo_chunks).
  by vm_compute.
Defined.

(** X18.  When no object occurs twice in the history a run of the workflow
    starts from, none occurs twice in the history it ends with: a run only
    appends objects it has created. *)
Theorem run_agent_history_has_no_duplicates {World : Type} (P : Platform)
    (lg : LoggerVersion) (llm : LLM World)
    (toolRegistry : gmap string (Tool World)) (systemPrompt : option string)
    (fuel : nat) (state final : AgentState) (st st' : State World)
    (chunks : list Chunk) :
  NoDup (messages state) →
  Forall (fun l => (l < length (st_heap st))%nat) (messages state) →
  run_agent (execute_node P lg llm toolRegistry systemPrompt) fuel state st
  = (chunks, (Normal final, st')) →
  NoDup (messages final)
  ∧ Forall (fun l => (l < length (st_heap st'))%nat) (messages final).
Proof.
  intros Hnd Hold Hrun.
  apply (run_agent_invariant
           (execute_node P lg llm toolRegistry systemPrompt)
           (fun s σ => NoDup (messages s)
                       ∧ Forall (fun l => (l < length (st_heap σ))%nat)
                                (messages s)))
    in Hrun; [done| |done].
  clear. intros state st update st' Hnode [Hnd Hold].
  apply execute_node_normal
    in Hnode as (created & response & Hupd & Hfresh & Hseq & Hlen & _).
  unfold apply_update, messagesReducer. simpl. rewrite Hupd.
  assert (Forall (fun l => (response < l < length (st_heap st'))%nat) created)
    as Hcreated.
  { rewrite Hseq. apply Forall_seq. intros l Hl. lia. }
  rewrite Forall_forall in Hold, Hcreated.
  split.
  - apply NoDup_app. split_and!; [done| |].
    + intros l Hl [Hc| ->%list_elem_of_singleton]%elem_of_app.
      * specialize (Hold _ Hl). specialize (Hcreated _ Hc). lia.
      * specialize (Hold _ Hl). lia.
    + apply NoDup_app. split_and!; [rewrite Hseq; apply NoDup_seq| |].
      * intros l Hc ->%list_elem_of_singleton.
        specialize (Hcreated _ Hc). lia.
      * apply NoDup_singleton.
  - apply Forall_forall.
    intros l [Hl|[Hc| ->%list_elem_of_singleton]%elem_of_app]%elem_of_app.
    + specialize (Hold _ Hl). lia.
    + specialize (Hcreated _ Hc). lia.
    + lia.
Qed.

(** The demo turn. *)
Lemma run_agent_history_has_no_duplicates_witness :
  NoDup (messages demo_final_state)
  ∧ Forall (fun l => (l < length (st_heap (snd (snd demo_run))))%nat)
           (messages demo_final_state).
Proof.
  apply (run_agent_history_has_no_duplicates demo_platform ThrowOnError
           demo_llm demo_registry (Some "You are viscum") 25 demo_turn_state
           demo_final_state (demo_state demo_turn_heap) (snd (snd demo_run))
           demo_chunks).
  - apply NoDup_singleton.
  - apply Forall_singleton. simpl. lia.
  - by vm_compute.
Defined.

(** Under the throwing logger a step that asks for tools returns records,
    so the run goes on: it can end only behind a final response. *)
Lemma run_agent_final_response {World : Type} (P : Platform)
    (llm : LLM World) (toolRegistry : gmap string (Tool World))
    (systemPrompt : option string) (fuel : nat) (state final : AgentState)
    (st st' : State World) (chunks : list Chunk) :
  run_agent (execute_node P ThrowOnError llm toolRegistry systemPrompt)
    fuel state st
  = (chunks, (Normal final, st')) →
  ∃ response,
    last (messages final) = Some response
    ∧ (length (st_heap st) ≤ response < length (st_heap st'))%nat
    ∧ carries_requests (st_heap st') response = false.
Proof.
  revert state st chunks. induction fuel as [|fuel IH];
    intros state st chunks; [done|].
  cbn [run_agent].
  destruct (execute_node P ThrowOnError llm toolRegistry systemPrompt state st)
    as [[update|?] st1] eqn:Hnode; [|done].
  pose proof (heap_grows_execute_node P ThrowOnError llm toolRegistry
                systemPrompt state _ _ _ Hnode) as Hpre.
  apply prefix_length in Hpre.
  rewrite next_node_agent.
  destruct (nonempty (toolResults (apply_update state update))) eqn:Hres.
  - destruct (run_agent _ fuel (apply_update state update) st1)
      as [chunks' r] eqn:Hrun.
    intros [= <- ->].
    destruct (IH _ _ _ Hrun) as (response & Hlast & Hfresh & Hanswer).
    exists response. split_and!; [done|lia|lia|done].
  - intros [= <- <- <-].
    apply execute_node_normal
      in Hnode as (created & response & Hupd & Hfresh & Hseq & Hlen
                   & Hcalls & Hfinal).
    destruct (carries_requests (st_heap st1) response) eqn:E.
    + destruct (Hcalls eq_refl) as (_ & _ & _ & Hsome).
      unfold apply_update in Hres. simpl in Hres.
      destruct (upd_toolResults update) as [[|r rs]|] eqn:Hupdres.
      * by destruct (Hsome eq_refl).
      * done.
      * by destruct (Hcalls eq_refl) as (_ & _ & [? ?] & _).
    + exists response. split_and!; [|lia|lia|done].
      unfold apply_update, messagesReducer. simpl. rewrite Hupd.
      by rewrite app_assoc, last_snoc.
Qed.

(** X19.  With the throwing logger a run of the workflow ends normally
    only behind a response of the model that asks for no tools: the last
    message of the final history is such a response, created during the
    run. *)
Theorem run_agent_ends_with_an_answer {World : Type} (P : Platform)
    (llm : LLM World) (toolRegistry : gmap string (Tool World))
    (systemPrompt : option string) (fuel : nat) (state final : AgentState)
    (st st' : State World) (chunks : list Chunk) :
  run_agent (execute_node P ThrowOnError llm toolRegistry systemPrompt)
    fuel state st
  = (chunks, (Normal final, st')) →
  ∃ response,
    last (messages final) = Some response
    ∧ (length (st_heap st) ≤ response < length (st_heap st'))%nat
    ∧ carries_requests (st_heap st') response = false.
Proof. apply run_agent_final_response. Qed.

(** The demo turn ends with the answer of the model. *)
Lemma run_agent_ends_with_an_answer_witness :
  ∃ response,
    last (messages demo_final_state) = Some response
    ∧ (length (st_heap (demo_state demo_turn_heap)) ≤ response
       < length (st_heap (snd (snd demo_run))))%nat
    ∧ carries_requests (st_heap (snd (snd demo_run))) response = false.
Proof.
  apply (run_agent_ends_with_an_answer demo_platform demo_llm demo_registry
           (Some "You are viscum") 25 demo_turn_state demo_final_state
           (demo_state demo_turn_heap) (snd (snd demo_run)) demo_chunks).
  by vm_compute.
Defined.

(** ** The registries *)

Section RegistryFacts.
Context {World : Type}.
Implicit Types (st : State World) (registry : gmap string (Tool World)).

Lemma register_normal (tool : Tool World) registry st :
  ∃ entries,
    register tool registry st
    = (Normal (<[tool_name tool := tool]> registry),
       {| st_heap := st_heap st; st_logs := st_logs st ++ entries;
          st_world := st_world st |})
    ∧ (size (<[tool_name tool := tool]> registry)
       + length (filter (fun e => is_warning e) entries)
       = S (size registry))%nat.
Proof.
  unfold register. case_bool_decide as Htaken.
  - eexists [_; _]. unfold bind, logger_warn, logger_debug, write_log, ret.
    simpl. rewrite <- app_assoc. split; [done|].
    rewrite map_size_insert_Some; [simpl; lia|done].
  - eexists [_]. unfold bind, logger_debug, write_log, ret. simpl.
    split; [done|].
    rewrite map_size_insert_None; [simpl; lia|].
    by apply eq_None_not_Some.
Qed.

Lemma register_tools_normal (tools : list (Tool World)) registry st :
  ∃ registry' entries,
    register_tools tools registry st
    = (Normal registry',
       {| st_heap := st_heap st; st_logs := st_logs st ++ entries;
          st_world := st_world st |})
    ∧ (∀ name,
         registry' !! name
         = match last (named World name tools) with
           | Some tool => Some tool
           | None => registry !! name
           end)
    ∧ (size registry' + length (filter (fun e => is_warning e) entries)
       = size registry + length tools)%nat.
Proof.
  revert registry st. induction tools as [|tool tools IH]; intros registry st.
  - exists registry, []. simpl. rewrite app_nil_r. destruct st.
    split_and!; [done|done|simpl; lia].
  - cbn [register_tools]. unfold bind at 1.
    destruct (register_normal tool registry st) as (es1 & -> & Hsize1).
    destruct (IH (<[tool_name tool := tool]> registry)
                {| st_heap := st_heap st; st_logs := st_logs st ++ es1;
                   st_world := st_world st |})
      as (registry' & es2 & -> & Hlookup & Hsize2).
    exists registry', (es1 ++ es2). simpl. split_and!.
    + by rewrite app_assoc.
    + intros name. rewrite Hlookup. unfold named.
      destruct (decide (tool_name tool = name)) as [Heq|Hne].
      * rewrite filter_cons_True by done. rewrite last_cons.
        destruct (last (filter _ tools)); [done|].
        by rewrite <- Heq, lookup_insert_eq.
      * rewrite filter_cons_False by done.
        destruct (last (filter _ tools)); [done|].
        by rewrite lookup_insert_ne.
    + rewrite filter_app, length_app. simpl. lia.
Qed.
End RegistryFacts.

(** X20.  [SkillRegistry.register] never throws.  Afterwards a name is
    registered to the last tool of the skill with that name, or to what it
    was registered to before when the skill has none; and every tool of the
    skill either adds a name to the registry or costs a warning. *)
Theorem SkillRegistry_register_last_tool_wins {World : Type}
    (skill : Skill World) (skills : gmap string (Skill World))
    (registry : gmap string (Tool World)) (st : State World) :
  ∃ registry' entries,
    SkillRegistry_register skill skills registry st
    = (Normal (<[skill_name skill := skill]> skills, registry'),
       {| st_heap := st_heap st; st_logs := st_logs st ++ entries;
          st_world := st_world st |})
    ∧ (∀ name,
         registry' !! name
         = match last (named World name (skill_tools skill)) with
           | Some tool => Some tool
           | None => registry !! name
           end)
    ∧ (size registry' + length (filter (fun e => is_warning e) entries)
       = size registry + length (skill_tools skill))%nat.
Proof.
  unfold SkillRegistry_register. unfold bind at 1.
  destruct (register_tools_normal (skill_tools skill) registry st)
    as (registry' & entries & -> & Hlookup & Hsize).
  exists registry', (entries ++ [{| level := info;
                                   message := "已注册技能: " +:+ skill_name skill;
                                   meta := [] |}]).
  unfold bind, logger_info, write_log, ret. simpl.
  split_and!; [by rewrite app_assoc|done|].
  rewrite filter_app, length_app. simpl. lia.
Qed.

(** ** The chat manager *)

Lemma deref_last (h : heap) (msgs : list loc) (r : loc) (m : BaseMessage) :
  last msgs = Some r → h !! r = Some m → last (deref h msgs) = Some m.
Proof.
  intros Hlast Hr. apply last_Some in Hlast as [front ->].
  rewrite deref_app. unfold deref at 2. simpl. rewrite Hr. simpl.
  apply last_snoc.
Qed.

Lemma cli_extractAIResponse_last (h : heap) (state : AgentState) (r : loc)
    (c : JsValue) (calls : option (list ToolCallRequest)) :
  last (messages state) = Some r →
  h !! r = Some (AIMessage c calls) →
  carries_requests h r = false →
  cli_extractAIResponse h state
  = Some (match c with JStr s => s | _ => EmptyString end).
Proof.
  intros Hlast Hr Hcalls. unfold cli_extractAIResponse.
  pose proof (deref_last h _ _ _ Hlast Hr) as Hd.
  apply last_Some in Hd as [front ->].
  rewrite reverse_snoc. simpl.
  unfold carries_requests in Hcalls. rewrite Hr in Hcalls. simpl in Hcalls.
  by rewrite Hcalls.
Qed.

(** X22.  With the throwing logger, when [processUserInput] returns for an
    input that is neither empty nor an exit command, the history it keeps
    ends with a message created during this turn that asks for no tools, and
    when that message is an assistant message the reply is its text (the
    empty string when its content is not a string): never the answer of an
    earlier turn. *)
Theorem processUserInput_shows_the_final_response {World : Type}
    (P : Platform) (llm : LLM World)
    (toolRegistry : gmap string (Tool World)) (systemPrompt : option string)
    (recursionLimit : nat) (isExitCommand : string → bool)
    (conversationState kept : AgentState) (userInput : string)
    (response : option string) (st st' : State World) :
  truthy_str userInput = true →
  isExitCommand userInput = false →
  processUserInput P ThrowOnError
    (invoke (execute_node P ThrowOnError llm toolRegistry systemPrompt)
       recursionLimit)
    isExitCommand conversationState userInput st
  = (Normal (response, kept), st') →
  ∃ r,
    last (messages kept) = Some r
    ∧ (length (st_heap st) < r < length (st_heap st'))%nat
    ∧ carries_requests (st_heap st') r = false
    ∧ ∀ c calls,
        st_heap st' !! r = Some (AIMessage c calls) →
        response = Some (match c with JStr s => s | _ => EmptyString end).
Proof.
  intros Hinput Hexit. unfold processUserInput. rewrite Hinput, Hexit. simpl.
  unfold try_catch, bind at 1.
  unfold newState at 1, bind at 1, alloc, ret.
  unfold bind at 1. unfold invoke at 1. rewrite stream_run_agent.
  match goal with
  | |- context [run_agent ?node recursionLimit ?state ?st0] =>
      destruct (run_agent node recursionLimit state st0)
        as [chunks [[final|e] st1]] eqn:Hrun
  end; simpl.
  - unfold bind, get_heap, ret. intros [= <- <- <-].
    apply run_agent_final_response in Hrun
      as (r & Hlast & Hfresh & Hanswer).
    simpl in Hfresh. rewrite length_app in Hfresh. simpl in Hfresh.
    exists r. split_and!; [done|lia|lia|done|].
    intros c calls Hr. by eapply cli_extractAIResponse_last.
  - unfold logger_error, bind, write_log, throw. done.
Qed.

(** The demo turn. *)
Lemma processUserInput_shows_the_final_response_witness :
  ∃ r,
    last (messages demo_final_state) = Some r
    ∧ (length (st_heap (demo_state [])) < r
       < length (st_heap (snd demo_chat)))%nat
    ∧ carries_requests (st_heap (snd demo_chat)) r = false
    ∧ ∀ c calls,
        st_heap (snd demo_chat) !! r = Some (AIMessage c calls) →
        Some "It is sunny."
        = Some (match c with JStr s => s | _ => EmptyString end).
Proof.
  apply (processUserInput_shows_the_final_response demo_platform demo_llm
           demo_registry (Some "You are viscum") 25 (fun _ => false)
           initial_conversationState demo_final_state "Weather in Tokyo?"
           (Some "It is sunny.") (demo_state []) (snd demo_chat)).
  - reflexivity.
  - reflexivity.
  - by vm_compute.
Defined.

(** X23.  A turn whose workflow run fails: with the first logger
    [processUserInput] logs one error, returns no reply and keeps the
    conversation as it was before the turn, without the user message of the
    failed turn; with the throwing logger the error handler throws in its
    turn and [processUserInput] fails. *)
Theorem processUserInput_failed_turn {World : Type} (P : Platform)
    (app_invoke : AgentState → M World AgentState)
    (isExitCommand : string → bool) (conversationState state : AgentState)
    (userInput : string) (st st0 st1 : State World) (e : Thrown) :
  truthy_str userInput = true →
  isExitCommand userInput = false →
  newState conversationState userInput st = (Normal state, st0) →
  app_invoke state st0 = (Abrupt e, st1) →
  ∃ entry,
    level entry = error
    ∧ processUserInput P WinstonPassThrough app_invoke isExitCommand
        conversationState userInput st
      = (Normal (None, conversationState),
         {| st_heap := st_heap st1; st_logs := st_logs st1 ++ [entry];
            st_world := st_world st1 |})
    ∧ ∃ e',
        processUserInput P ThrowOnError app_invoke isExitCommand
          conversationState userInput st
        = (Abrupt e',
           {| st_heap := st_heap st1; st_logs := st_logs st1 ++ [entry];
              st_world := st_world st1 |}).
Proof.
  intros Hinput Hexit Hnew Hfail.
  exists {| level := error; message := "处理用户输入时出错";
            meta := [thrown_as_value e] |}.
  split; [done|].
  assert (∀ lg,
            processUserInput P lg app_invoke isExitCommand conversationState
              userInput st
            = (logger_error P lg "处理用户输入时出错" [thrown_as_value e] ;;
               ret (None, conversationState)) st1) as Hrun.
  { intros lg. unfold processUserInput. rewrite Hinput, Hexit. cbn [negb].
    unfold try_catch, bind at 1. rewrite Hnew. unfold bind at 1.
    by rewrite Hfail. }
  rewrite !Hrun. unfold logger_error, bind, write_log, ret, throw. simpl.
  split; [done|by eexists].
Qed.

(** A workflow with no step left fails at once. *)
Lemma processUserInput_failed_turn_witness :
  ∃ entry,
    level entry = error
    ∧ processUserInput demo_platform WinstonPassThrough (invoke demo_node 0)
        (fun _ => false) initial_conversationState "Weather in Tokyo?"
        (demo_state [])
      = (Normal (None, initial_conversationState),
         {| st_heap := demo_turn_heap; st_logs := [] ++ [entry];
            st_world := tt |})
    ∧ ∃ e',
        processUserInput demo_platform ThrowOnError (invoke demo_node 0)
          (fun _ => false) initial_conversationState "Weather in Tokyo?"
          (demo_state [])
        = (Abrupt e',
           {| st_heap := demo_turn_heap; st_logs := [] ++ [entry];
              st_world := tt |}).
Proof.
  apply (processUserInput_failed_turn demo_platform (invoke demo_node 0)
           (fun _ => false) initial_conversationState demo_turn_state
           "Weather in Tokyo?" (demo_state []) (demo_state demo_turn_heap)
           (demo_state demo_turn_heap)
           (ErrorObject "Recursion limit reached")).
  - reflexivity.
  - reflexivity.
  - reflexivity.
  - reflexivity.
Defined.

(** The demo turn leaves no scratch entries behind. *)
Lemma processUserInput_keeps_scratch_empty_witness :
  toolCalls demo_final_state = [] ∧ toolResults demo_final_state = [].
Proof.
  apply (processUserInput_keeps_scratch_empty demo_platform ThrowOnError
           demo_llm demo_registry (Some "You are viscum") 25 (fun _ => false)
           initial_conversationState demo_final_state "Weather in Tokyo?"
           (Some "It is sunny.") (demo_state []) (snd demo_chat)).
  - split; reflexivity.
  - by vm_compute.
Defined.

(** ** The request handler *)

Section HandlerFacts.
Context (P : Platform).
Implicit Types (h : heap) (s : StreamState) (chunk : Chunk).

(** The handler folds a chunk into its state the way the graph does. *)
Lemma accumulate_apply_update (acc : AgentState) (update : PartialState) :
  accumulate acc update = apply_update acc update.
Proof.
  unfold accumulate, apply_update, messagesReducer, replaceReducer.
  by destruct (upd_toolCalls update), (upd_toolResults update).
Qed.

Lemma foldl_on_stateUpdate_accumulated h s (chunks : list Chunk) :
  accumulatedState (foldl (on_stateUpdate P h) s chunks)
  = foldl (fun state chunk => apply_update state (snd chunk))
          (accumulatedState s) chunks.
Proof.
  revert s. induction chunks as [|chunk chunks IH]; intros s; [done|].
  simpl. by rewrite IH, on_stateUpdate_accumulated, accumulate_apply_update.
Qed.

(** Only deltas are enqueued while the chunks arrive, none of them empty and
    at most one per chunk. *)
Lemma foldl_on_stateUpdate_deltas h s (chunks : list Chunk) :
  ∃ deltas,
    enqueued (foldl (on_stateUpdate P h) s chunks) = enqueued s ++ deltas
    ∧ Forall (fun event => ∃ delta, event = DeltaEvent delta
                                     ∧ delta ≠ EmptyString) deltas
    ∧ (length deltas ≤ length chunks)%nat.
Proof.
  revert s. induction chunks as [|chunk chunks IH]; intros s.
  - exists []. by rewrite app_nil_r.
  - simpl. destruct (IH (on_stateUpdate P h s chunk))
      as (deltas & -> & Hall & Hlen).
    destruct (on_stateUpdate_delta P h s chunk)
      as [[-> _]|(current & _ & _ & Hne & -> & _)].
    + exists deltas. split_and!; [done|done|lia].
    + eexists (_ :: deltas). rewrite <- app_assoc.
      split_and!; [done| |simpl; lia].
      constructor; [eauto|done].
Qed.
End HandlerFacts.

Lemma run_agent_final_state {World : Type}
    (agentNode : AgentState → M World PartialState) (fuel : nat)
    (state final : AgentState) (st st' : State World) (chunks : list Chunk) :
  run_agent agentNode fuel state st = (chunks, (Normal final, st')) →
  final = foldl (fun state chunk => apply_update state (snd chunk))
                state chunks.
Proof.
  revert state st chunks. induction fuel as [|fuel IH];
    intros state st chunks; [done|].
  cbn [run_agent].
  destruct (agentNode state st) as [[update|?] st1]; [|done].
  rewrite next_node_agent.
  destruct (nonempty (toolResults (apply_update state update))).
  - destruct (run_agent agentNode fuel (apply_update state update) st1)
      as [chunks' r] eqn:Hrun.
    intros [= <- ->]. simpl. by eapply IH.
  - by intros [= <- <- <-].
Qed.

(** X24.  Whatever the chunks are and however the run ends, the handler
    writes deltas, none of them empty and at most one per chunk, and then
    closes the stream in one of three ways: with the end marker, with the full
    (non-empty) message followed by the end marker, or, when the run failed,
    with one error event and no end marker. *)
Theorem stream_events_shape {A : Type} (P : Platform) (h : heap)
    (state : AgentState) (chunks : list Chunk) (outcome : Completion A) :
  ∃ deltas,
    Forall (fun event => ∃ delta, event = DeltaEvent delta
                                   ∧ delta ≠ EmptyString) deltas
    ∧ (length deltas ≤ length chunks)%nat
    ∧ match outcome with
      | Normal _ =>
          stream_events P h state chunks outcome = deltas ++ [DoneEvent]
          ∨ ∃ response,
              response ≠ EmptyString
              ∧ stream_events P h state chunks outcome
                = deltas ++ [MessageEvent response; DoneEvent]
      | Abrupt e =>
          ∃ text, stream_events P h state chunks outcome
                  = deltas ++ [ErrorEvent text]
      end.
Proof.
  destruct (foldl_on_stateUpdate_deltas P h (stream_start state) chunks)
    as (deltas & Henq & Hall & Hlen).
  exists deltas. split_and!; [done|done|].
  unfold stream_events. destruct outcome as [a|e].
  - unfold finish_stream. rewrite Henq. simpl.
    destruct (extractAIResponse P h _) as [response|]; [|by left].
    destruct (truthy_str response) eqn:Hresponse; [|by left].
    right. exists response. split; [by apply truthy_str_spec|done].
  - unfold fail_stream. rewrite Henq. simpl. eauto.
Qed.

(** X25.  The state the handler accumulates from the chunks of a run that
    ends normally is the final state of the workflow: its own folding of the
    updates agrees with the reducers of the graph. *)
Theorem handler_accumulates_the_final_state {World : Type} (P : Platform)
    (agentNode : AgentState → M World PartialState) (recursionLimit : nat)
    (state final : AgentState) (st st' : State World) (chunks : list Chunk)
    (h : heap) :
  stream agentNode recursionLimit state st
  = (chunks, (Normal final, st')) →
  accumulatedState (foldl (on_stateUpdate P h) (stream_start state) chunks)
  = final.
Proof.
  rewrite stream_run_agent. intros ->%run_agent_final_state.
  apply foldl_on_stateUpdate_accumulated.
Qed.

(** The demo turn. *)
Lemma handler_accumulates_the_final_state_witness :
  accumulatedState
    (foldl (on_stateUpdate demo_platform demo_final_heap)
       (stream_start demo_turn_state) demo_chunks)
  = demo_final_state.
Proof.
  apply (handler_accumulates_the_final_state demo_platform demo_node 25
           demo_turn_state demo_final_state (demo_state demo_turn_heap)
           (snd (snd demo_run)) demo_chunks demo_final_heap).
  by vm_compute.
Defined.

(** ** The history of a request *)

Lemma deref_new (h news : list BaseMessage) :
  deref (h ++ news) (seq (length h) (length news)) = news.
Proof.
  revert h. induction news as [|m news IH]; intros h; [done|].
  simpl. unfold deref, heap, loc. simpl.
  rewrite (list_lookup_middle h news m (length h) eq_refl). simpl. f_equal.
  specialize (IH (h ++ [m])).
  rewrite length_app, Nat.add_1_r, <- app_assoc in IH. exact IH.
Qed.

Lemma until_failure_app (calls calls' : list (Thrown + BaseMessage)) :
  until_failure (calls ++ calls')
  = match until_failure calls with
    | (made, Some e) => (made, Some e)
    | (made, None) =>
        (made ++ (until_failure calls').1, (until_failure calls').2)
    end.
Proof.
  induction calls as [|[e|m] calls IH]; simpl.
  - by destruct (until_failure calls').
  - done.
  - rewrite IH. by destruct (until_failure calls) as [made [e|]].
Qed.

Lemma until_failure_succeeds (calls : list (Thrown + BaseMessage)) :
  Forall succeeds calls →
  (until_failure calls).2 = None
  ∧ calls = inr <$> (until_failure calls).1.
Proof.
  induction 1 as [|call calls [m ->] _ [IH1 IH2]]; [done|].
  simpl. destruct (until_failure calls) as [made failure]. simpl in *.
  split; [done|]. by f_equal.
Qed.

Lemma until_failure_first (made : list BaseMessage) (e : Thrown)
    (rest : list (Thrown + BaseMessage)) :
  until_failure ((inr <$> made) ++ inl e :: rest) = (made, Some e).
Proof.
  induction made as [|m made IH]; [done|].
  rewrite fmap_cons. cbn [app until_failure]. by rewrite IH.
Qed.

Section PostFacts.
Context {World : Type}.
Variable read_fields : FieldsReader.
Implicit Types (st : State World) (msgs : list ClientMessage).

(** The loop makes its constructor calls in order and stops at the first
    one that throws. *)
Lemma convert_loop_run msgs (langchainMessages : list loc) st :
  convert_loop read_fields msgs langchainMessages st
  = (match (until_failure (omap (converted read_fields) msgs)).2 with
     | None =>
         Normal (langchainMessages
                 ++ seq (length (st_heap st))
                        (length (until_failure
                                   (omap (converted read_fields) msgs)).1))
     | Some e => Abrupt e
     end,
     {| st_heap := st_heap st
                   ++ (until_failure (omap (converted read_fields) msgs)).1;
        st_logs := st_logs st; st_world := st_world st |}).
Proof.
  revert langchainMessages st.
  induction msgs as [|msg msgs IH]; intros acc st.
  - simpl. unfold ret. rewrite !app_nil_r. by destruct st.
  - cbn [convert_loop].
    assert (omap (converted read_fields) (msg :: msgs)
            = match converted read_fields msg with
              | Some call => call :: omap (converted read_fields) msgs
              | None => omap (converted read_fields) msgs
              end) as -> by done.
    assert (∀ call,
              (let! pushed := push_new call acc in
               convert_loop read_fields msgs pushed) st
              = (match (until_failure
                          (call :: omap (converted read_fields) msgs)).2 with
                 | None =>
                     Normal (acc
                             ++ seq (length (st_heap st))
                                  (length
                                     (until_failure
                                        (call :: omap (converted read_fields)
                                                   msgs)).1))
                 | Some e => Abrupt e
                 end,
                 {| st_heap :=
                      st_heap st
                      ++ (until_failure
                            (call :: omap (converted read_fields) msgs)).1;
                    st_logs := st_logs st; st_world := st_world st |}))
      as Hpush.
    { intros [e|m]; unfold bind at 1, push_new.
      - unfold throw. simpl. rewrite app_nil_r. by destruct st.
      - unfold bind at 1, alloc, ret. rewrite IH. simpl.
        destruct (until_failure (omap (converted read_fields) msgs))
          as [made failure]. simpl.
        rewrite length_app, Nat.add_1_r, <- !app_assoc. simpl.
        by destruct failure. }
    pose proof (eq_refl (converted read_fields msg)) as Hc.
    unfold converted at 2 in Hc.
    destruct (String.eqb (msg_role msg) "system"); [rewrite Hc; apply IH|].
    destruct (String.eqb (msg_role msg) "user"); [rewrite Hc; apply Hpush|].
    destruct (String.eqb (msg_role msg) "assistant");
      rewrite Hc; [apply Hpush|apply IH].
Qed.

(** The class decides what a constructor returns. *)
Lemma new_SystemMessage_inr (argument : JsValue) (m : BaseMessage) :
  new_SystemMessage read_fields argument = inr m →
  (∃ c, m = SystemMessage c ∧ ∀ s, argument = JStr s → c = JStr s).
Proof.
  unfold new_SystemMessage, new_message.
  destruct argument as [| | | |s| |];
    try (destruct (read_fields _) as [e|f]; [done|];
         intros [= <-]; eexists; split; [done|]; by intros ? [=]).
  intros [= <-]. eexists. split; [done|]. by intros ? [= ->].
Qed.

Lemma new_HumanMessage_inr (argument : JsValue) (m : BaseMessage) :
  new_HumanMessage read_fields argument = inr m →
  is_HumanMessage m = true ∧ is_SystemMessage m = false.
Proof.
  unfold new_HumanMessage, new_message.
  destruct argument as [| | | |s| |];
    try (destruct (read_fields _) as [e|f]; [done|]); by intros [= <-].
Qed.

Lemma new_AIMessage_inr (argument : JsValue) (m : BaseMessage) :
  new_AIMessage read_fields argument = inr m →
  is_HumanMessage m = false ∧ is_SystemMessage m = false.
Proof.
  unfold new_AIMessage, new_message.
  destruct argument as [| | | |s| |];
    try (destruct (read_fields _) as [e|f]; [done|]); by intros [= <-].
Qed.

Lemma converted_not_system msgs (made : list BaseMessage) :
  omap (converted read_fields) msgs = inr <$> made →
  Forall (fun m => is_SystemMessage m = false) made.
Proof.
  revert made. induction msgs as [|msg msgs IH]; intros made.
  - destruct made; [done|discriminate].
  - simpl. pose proof (eq_refl (converted read_fields msg)) as Hc.
    unfold converted at 2 in Hc.
    destruct (String.eqb (msg_role msg) "system"); [rewrite Hc; apply IH|].
    destruct (String.eqb (msg_role msg) "user").
    { rewrite Hc. destruct made as [|m made]; [discriminate|].
      intros [= Hm Hrest]. constructor; [|by apply IH].
      by apply new_HumanMessage_inr in Hm as [_ ?]. }
    destruct (String.eqb (msg_role msg) "assistant");
      rewrite Hc; [|apply IH].
    destruct made as [|m made]; [discriminate|].
    intros [= Hm Hrest]. constructor; [|by apply IH].
    by apply new_AIMessage_inr in Hm as [_ ?].
Qed.

Lemma converted_human msgs (made : list BaseMessage) :
  omap (converted read_fields) msgs = inr <$> made →
  existsb is_HumanMessage made = has_user_entry msgs.
Proof.
  revert made. induction msgs as [|msg msgs IH]; intros made.
  - destruct made; [done|discriminate].
  - simpl. pose proof (eq_refl (converted read_fields msg)) as Hc.
    unfold converted at 2 in Hc.
    destruct (String.eqb_spec (msg_role msg) "system") as [Hs|_].
    { rewrite Hc, Hs. simpl. apply IH. }
    destruct (String.eqb (msg_role msg) "user").
    { rewrite Hc. destruct made as [|m made]; [discriminate|].
      intros [= Hm Hrest]. simpl.
      by apply new_HumanMessage_inr in Hm as [-> _]. }
    destruct (String.eqb (msg_role msg) "assistant");
      rewrite Hc; [|apply IH].
    destruct made as [|m made]; [discriminate|].
    intros [= Hm Hrest]. simpl.
    apply new_AIMessage_inr in Hm as [-> _]. by apply IH.
Qed.
End PostFacts.

Lemma until_failure_None (calls : list (Thrown + BaseMessage)) :
  (until_failure calls).2 = None → calls = inr <$> (until_failure calls).1.
Proof.
  induction calls as [|[e|m] calls IH]; simpl; [done|done|].
  destruct (until_failure calls) as [made failure]. simpl in *.
  intros ->. by rewrite IH.
Qed.

Section PostRun.
Context {World : Type}.
Variable read_fields : FieldsReader.
Variable systemPrompt : option string.
Implicit Types (st : State World) (msgs : list ClientMessage).

(** [POST] makes its constructor calls in order and stops at the first one
    that throws; the messages made until then stay behind as objects. *)
Lemma POST_newState_run msgs st :
  POST_newState read_fields systemPrompt msgs st
  = (match (until_failure
              (constructor_calls read_fields systemPrompt msgs)).2 with
     | None =>
         Normal
           {| messages :=
                seq (length (st_heap st))
                    (length (until_failure
                               (constructor_calls read_fields systemPrompt
                                  msgs)).1);
              toolCalls := []; toolResults := [] |}
     | Some e => Abrupt e
     end,
     {| st_heap :=
          st_heap st
          ++ (until_failure
                (constructor_calls read_fields systemPrompt msgs)).1;
        st_logs := st_logs st; st_world := st_world st |}).
Proof.
  unfold POST_newState, constructor_calls.
  set (prompt := match systemPrompt with
                 | Some p => JStr p
                 | None => JUndefined
                 end).
  set (fallback := if has_user_entry msgs then []
                   else match last msgs with
                        | Some lastMessage =>
                            if String.eqb (msg_role lastMessage) "system"
                            then []
                            else [new_HumanMessage read_fields
                                    (msg_content lastMessage)]
                        | None => []
                        end).
  unfold bind at 1, push_new at 1.
  destruct (new_SystemMessage read_fields prompt) as [e|sys] eqn:Hsys.
  { unfold throw. simpl. rewrite app_nil_r. by destruct st. }
  unfold bind at 1, alloc at 1, ret at 1. cbn [until_failure app].
  unfold bind at 1. rewrite convert_loop_run. cbn [st_heap st_logs st_world].
  rewrite until_failure_app.
  destruct (until_failure (omap (converted read_fields) msgs))
    as [made [e|]] eqn:Hloop; cbn [fst snd].
  { by rewrite <- app_assoc. }
  pose proof (until_failure_None (omap (converted read_fields) msgs)) as Hmade.
  rewrite Hloop in Hmade. specialize (Hmade eq_refl). simpl in Hmade.
  unfold bind at 1, get_heap. cbn [st_heap].
  set (h1 := st_heap st ++ [sys]).
  assert (length h1 = S (length (st_heap st))) as Hlen1.
  { unfold h1. rewrite length_app. simpl. lia. }
  assert (deref (h1 ++ made)
            ([length (st_heap st)] ++ seq (length h1) (length made))
          = sys :: made) as Hderef.
  { rewrite deref_app, deref_new. unfold deref, heap, loc. simpl.
    unfold h1. rewrite <- app_assoc. cbn [app].
    by rewrite (list_lookup_middle _ _ _ (length (st_heap st)) eq_refl). }
  unfold heap, loc in *. rewrite Hderef. simpl existsb.
  apply new_SystemMessage_inr in Hsys as (c & -> & _). simpl orb.
  rewrite (converted_human read_fields msgs made Hmade).
  unfold fallback.
  destruct (has_user_entry msgs) eqn:Huser.
  { simpl. unfold bind, ret. simpl.
    rewrite app_nil_r, Hlen1. unfold h1. by rewrite <- app_assoc. }
  simpl negb. rewrite andb_true_l.
  destruct msgs as [|msg0 msgs0] eqn:Hmsgs.
  { simpl. unfold bind, ret. simpl.
    rewrite app_nil_r, Hlen1. unfold h1. by rewrite <- app_assoc. }
  rewrite <- Hmsgs in *.
  assert (nonempty msgs = true) as -> by by rewrite Hmsgs.
  destruct (last msgs) as [lastMessage|] eqn:Hlast.
  2:{ simpl. unfold bind, ret. simpl.
      rewrite app_nil_r, Hlen1. unfold h1. by rewrite <- app_assoc. }
  destruct (String.eqb (msg_role lastMessage) "system").
  { simpl. unfold bind, ret. simpl.
    rewrite app_nil_r, Hlen1. unfold h1. by rewrite <- app_assoc. }
  simpl negb. cbn [until_failure].
  destruct (new_HumanMessage read_fields (msg_content lastMessage))
    as [e|m]; unfold bind at 1, push_new.
  - unfold throw. simpl. rewrite app_nil_r. unfold h1.
    by rewrite <- app_assoc.
  - unfold bind, alloc, ret. simpl.
    rewrite !length_app, Hlen1. simpl.
    unfold h1. rewrite <- !app_assoc. simpl.
    by rewrite Nat.add_1_r, seq_S.
Qed.
End PostRun.

Lemma has_user_entry_spec (msgs : list ClientMessage) :
  has_user_entry msgs = true
  ↔ Exists (fun msg => msg_role msg = "user") msgs.
Proof.
  unfold has_user_entry. induction msgs as [|msg msgs IH]; simpl.
  - split; [done|by intros ?%Exists_nil].
  - rewrite Exists_cons, <- IH, orb_true_iff.
    by destruct (String.eqb_spec (msg_role msg) "user"); split;
      (intros [?|?]; [by left|by right]).
Qed.

(** The history [POST] starts the workflow from when no constructor call
    fails. *)
Lemma POST_newState_spec {World : Type} (read_fields : FieldsReader)
    (systemPrompt : option string) (msgs : list ClientMessage)
    (st : State World) :
  Forall succeeds (constructor_calls read_fields systemPrompt msgs) →
  ∃ state st',
    POST_newState read_fields systemPrompt msgs st = (Normal state, st')
    ∧ toolCalls state = [] ∧ toolResults state = []
    ∧ st_heap st `prefix_of` st_heap st'
    ∧ messages state
      = seq (length (st_heap st))
            (length (st_heap st') - length (st_heap st))
    ∧ (∃ c,
         head (deref (st_heap st') (messages state))
         = Some (SystemMessage c)
         ∧ (∀ prompt, systemPrompt = Some prompt → c = JStr prompt)
         ∧ filter (fun m => is_SystemMessage m)
                  (deref (st_heap st') (messages state))
           = [SystemMessage c])
    ∧ (existsb is_HumanMessage (deref (st_heap st') (messages state)) = true
       ↔ Exists (fun msg => msg_role msg = "user") msgs
         ∨ ∃ lastMessage, last msgs = Some lastMessage
                          ∧ msg_role lastMessage ≠ "system").
Proof.
  intros [Hnone Hcalls]%until_failure_succeeds.
  rewrite POST_newState_run, Hnone.
  set (made := (until_failure
                  (constructor_calls read_fields systemPrompt msgs)).1) in *.
  eexists _, _. split; [done|].
  cbn [messages toolCalls toolResults st_heap]. rewrite deref_new.
  unfold constructor_calls in Hcalls.
  destruct made as [|sys made]; [discriminate|].
  rewrite fmap_cons in Hcalls. injection Hcalls as Hsys Hrest.
  symmetry in Hrest. apply fmap_app_inv in Hrest
    as (loop_made & fallback_made & Hloop & Hfallback & ->).
  pose proof (new_SystemMessage_inr read_fields _ _ Hsys) as (c & -> & Hc).
  assert (Forall (fun m => is_HumanMessage m = true
                           ∧ is_SystemMessage m = false) fallback_made
          ∧ (fallback_made ≠ [] ↔
             has_user_entry msgs = false
             ∧ ∃ lastMessage, last msgs = Some lastMessage
                              ∧ msg_role lastMessage ≠ "system"))
    as [Hhuman Hwhen].
  { destruct (has_user_entry msgs).
    { destruct fallback_made; [|discriminate].
      split; [done|]. split; [done|]. by intros [? _]. }
    destruct (last msgs) as [lastMessage|].
    2:{ destruct fallback_made; [|discriminate].
        split; [done|]. split; [done|]. by intros [_ (? & ? & _)]. }
    destruct (String.eqb_spec (msg_role lastMessage) "system") as [Hs|Hs].
    { destruct fallback_made; [|discriminate].
      split; [done|]. split; [done|]. by intros [_ (? & [= <-] & ?)]. }
    destruct fallback_made as [|m [|m' fallback_made]]; try discriminate.
    injection Hfallback as Hm. apply new_HumanMessage_inr in Hm.
    split; [by constructor|]. split; [|done]. intros _. eauto. }
  split_and!; [done|done|by apply prefix_app_r| | |].
  - f_equal. rewrite length_app. lia.
  - exists c. split_and!; [done| |].
    + intros prompt ->. by apply Hc.
    + rewrite (filter_bool_cons is_SystemMessage). simpl. f_equal.
      rewrite filter_app.
      rewrite (filter_none is_SystemMessage loop_made),
        (filter_none is_SystemMessage fallback_made); [done| |].
      * intros m Hm. rewrite Forall_forall in Hhuman.
        by destruct (Hhuman m Hm).
      * apply Forall_forall. by eapply converted_not_system.
  - simpl. rewrite existsb_app, (converted_human read_fields msgs _ Hloop).
    rewrite orb_true_iff, has_user_entry_spec.
    split; intros [Huser|Hlast]; [by left| |by left|].
    + destruct fallback_made as [|m fallback_made]; [done|].
      right. by apply Hwhen.
    + destruct (has_user_entry msgs) eqn:Huser.
      { left. by apply has_user_entry_spec. }
      right. destruct fallback_made as [|m fallback_made].
      * by destruct (proj2 Hwhen).
      * apply Forall_cons in Hhuman as [[Hm _] _]. simpl. by rewrite Hm.
Qed.

(** [POST] returns a state only when every constructor call was made and
    returned. *)
Lemma POST_newState_Normal {World : Type} (read_fields : FieldsReader)
    (systemPrompt : option string) (msgs : list ClientMessage)
    (st st' : State World) (state : AgentState) :
  POST_newState read_fields systemPrompt msgs st = (Normal state, st') →
  Forall succeeds (constructor_calls read_fields systemPrompt msgs).
Proof.
  rewrite POST_newState_run.
  destruct (until_failure _).2 eqn:Hfailure; [done|]. intros _.
  rewrite (until_failure_None _ Hfailure).
  apply Forall_fmap, Forall_true. intros m. by exists m.
Qed.

Section PromptFacts.
Context {World : Type} (P : Platform) (lg : LoggerVersion).
Variable systemPrompt : option string.
Implicit Types (h : heap) (st : State World) (state : AgentState).

Lemma deref_cons h (l : loc) (ls : list loc) :
  deref h (l :: ls)
  = match h !! l with
    | Some m => m :: deref h ls
    | None => deref h ls
    end.
Proof. reflexivity. Qed.

Lemma filter_deref h (ls : list loc) :
  filter (fun m => is_SystemMessage m) (deref h ls)
  = deref h (filter (fun l => refers_to_system_message h l) ls).
Proof.
  induction ls as [|l ls IH]; [done|].
  rewrite (filter_bool_cons (refers_to_system_message h)), deref_cons.
  unfold refers_to_system_message at 1.
  destruct (h !! l) as [m|] eqn:Hl; [|done].
  rewrite (filter_bool_cons is_SystemMessage), IH.
  destruct (is_SystemMessage m); [|done]. by rewrite deref_cons, Hl.
Qed.

Lemma deref_prefix h h' (ls : list loc) :
  h `prefix_of` h' → Forall (fun l => (l < length h)%nat) ls →
  deref h' ls = deref h ls.
Proof.
  intros [k ->] Hall.
  induction Hall as [|l ls Hl _ IH]; [done|].
  rewrite !deref_cons, IH. unfold heap, loc in *.
  by rewrite (lookup_app_l h k l Hl).
Qed.

Lemma filter_pass_system_messages h m msgs :
  (∀ id t, m !! id = Some t → keyed_tool_message h t = true) →
  filter (fun l => refers_to_system_message h l) (filter_pass h m msgs [])
  = filter (fun l => refers_to_system_message h l) msgs.
Proof.
  intros Hm.
  rewrite (filter_pass_unkeyed h m msgs [] (refers_to_system_message h) Hm).
  - simpl. apply filter_bool_ext. intros l _.
    unfold refers_to_system_message, incomplete.
    by destruct (h !! l) as [[ | |c [[|tc tcs]|]|c id]|].
  - intros t. unfold keyed_tool_message, refers_to_system_message.
    by destruct (h !! t) as [[ | | |c id]|].
Qed.

(** When [getMessageList] puts the system prompt in front. *)
Lemma getMessageList_cases msgs state st out st' :
  getMessageList P lg systemPrompt msgs state st = (Normal out, st') →
  (st_heap st `prefix_of` st_heap st')
  ∧ ∃ new final,
      final = filter_pass (st_heap st')
                (toolMessageMap_of (st_heap st') msgs new) msgs []
      ∧ ((out = final
          ∧ (existsb is_SystemMessage (deref (st_heap st) msgs) = true
             ∨ systemPrompt = None
             ∨ ∃ prompt, systemPrompt = Some prompt
                         ∧ truthy_str prompt = false))
         ∨ (∃ prompt,
              out = length (st_heap st) :: final
              ∧ st_heap st' !! length (st_heap st)
                = Some (SystemMessage (JStr prompt))
              ∧ existsb is_SystemMessage (deref (st_heap st) msgs) = false
              ∧ systemPrompt = Some prompt ∧ truthy_str prompt = true)).
Proof.
  unfold getMessageList. unfold bind at 1, get_heap. simpl.
  unfold bind at 1.
  set (hasSys := existsb is_SystemMessage (deref (st_heap st) msgs)).
  assert (∃ allMessages st1,
            match systemPrompt with
            | Some prompt =>
                if negb hasSys && truthy_str prompt
                then let! s := alloc (SystemMessage (JStr prompt)) in ret [s]
                else ret []
            | None => ret []
            end st = (Normal allMessages, st1)
            ∧ st_heap st `prefix_of` st_heap st1
            ∧ ((allMessages = []
                ∧ (hasSys = true ∨ systemPrompt = None
                   ∨ ∃ prompt, systemPrompt = Some prompt
                               ∧ truthy_str prompt = false))
               ∨ ∃ prompt,
                   allMessages = [length (st_heap st)]
                   ∧ st_heap st1 !! length (st_heap st)
                     = Some (SystemMessage (JStr prompt))
                   ∧ hasSys = false
                   ∧ systemPrompt = Some prompt ∧ truthy_str prompt = true))
    as (allMessages & st1 & -> & Hpre1 & Hall).
  { destruct systemPrompt as [prompt|]; [|by exists [], st; eauto 10].
    destruct hasSys; simpl; [by exists [], st; eauto 10|].
    destruct (truthy_str prompt) eqn:Hprompt; [|by exists [], st; eauto 10].
    eexists _, _. unfold bind, alloc, ret. simpl.
    split_and!; [done|by apply prefix_app_r|].
    right. exists prompt. split_and!; try done.
    by apply list_lookup_middle. }
  unfold bind at 1.
  destruct (createToolMessages_shape P (toolResults state)
              (findLastAIMessageWithTools (st_heap st) msgs) st1)
    as (news & warnings & -> & _).
  unfold bind at 1.
  match goal with
  | |- context [processMessages P lg msgs ?new ?f1 ?f2 ?st2] =>
      destruct (processMessages P lg msgs new f1 f2 st2)
        as [[final|e] st3] eqn:Hrun; [|done];
      apply processMessages_normal in Hrun as (-> & Hh3 & _);
      simpl in Hh3
  end.
  unfold bind, logger_info, write_log, ret. simpl.
  intros [= <- <-]. simpl. rewrite Hh3. split.
  { etrans; [done|]. by apply prefix_app_r. }
  eexists _, _. split; [done|].
  destruct Hall as [[-> Hwhy]|(prompt & -> & Hs & Hno & Hprompt & Hok)].
  - left. by rewrite andb_false_r.
  - right. exists prompt. rewrite Hno. simpl.
    split_and!; try done. by apply lookup_app_l_Some.
Qed.
End PromptFacts.

(** The system messages of the list sent to the model. *)
Lemma getMessageList_system_filter {World : Type} (P : Platform)
    (lg : LoggerVersion) (systemPrompt : option string) (msgs : list loc)
    (state : AgentState) (st st' : State World) (out : list loc) :
  Forall (fun l => (l < length (st_heap st))%nat) msgs →
  getMessageList P lg systemPrompt msgs state st = (Normal out, st') →
  filter (fun m => is_SystemMessage m) (deref (st_heap st') out)
  = if existsb is_SystemMessage (deref (st_heap st) msgs)
    then filter (fun m => is_SystemMessage m) (deref (st_heap st) msgs)
    else match systemPrompt with
         | Some prompt =>
             if truthy_str prompt then [SystemMessage (JStr prompt)] else []
         | None => []
         end.
Proof.
  intros Hvalid (Hpre & new & final & -> & Hcases)%getMessageList_cases.
  assert (filter (fun m => is_SystemMessage m)
            (deref (st_heap st')
               (filter_pass (st_heap st')
                  (toolMessageMap_of (st_heap st') msgs new) msgs []))
          = filter (fun m => is_SystemMessage m) (deref (st_heap st) msgs))
    as Hfinal.
  { rewrite filter_deref, filter_pass_system_messages
      by apply toolMessageMap_of_keyed.
    rewrite <- filter_deref. by rewrite (deref_prefix _ _ _ Hpre Hvalid). }
  assert (existsb is_SystemMessage (deref (st_heap st) msgs) = false →
          filter (fun m => is_SystemMessage m) (deref (st_heap st) msgs) = [])
    as Hnone.
  { intros Hno. apply (filter_none is_SystemMessage). intros m Hm.
    destruct (is_SystemMessage m) eqn:E; [|done].
    assert (existsb is_SystemMessage (deref (st_heap st) msgs) = true)
      as Hyes; [|congruence].
    apply existsb_exists. exists m. split; [by apply list_elem_of_In|done]. }
  destruct Hcases as [[-> Hwhy]|(prompt & -> & Hs & Hno & -> & Hok)].
  - rewrite Hfinal.
    destruct (existsb is_SystemMessage (deref (st_heap st) msgs)) eqn:Hsys;
      [done|].
    rewrite (Hnone eq_refl).
    destruct Hwhy as [?|[->|(prompt & -> & ->)]]; done.
  - rewrite Hno, Hok.
    rewrite deref_cons. unfold heap, loc in *.
    rewrite Hs, (filter_bool_cons is_SystemMessage). simpl.
    by rewrite Hfinal, (Hnone Hno).
Qed.

(** X26.  When none of the constructor calls of [POST] fails, as is the
    case for a prompt that was read and entries whose content is a string,
    [POST] builds the state for the workflow: the history consists of objects
    it has just created, each once; it starts with the system message of the
    handler (with the prompt as content when the prompt is a string), which
    is its only system message, whatever roles the request claims; the
    scratch lists are empty; and it holds a user message exactly when the
    request has an entry with role [user] or its last entry has a role other
    than [system]. *)
Theorem POST_newState_history {World : Type} (read_fields : FieldsReader)
    (systemPrompt : option string) (msgs : list ClientMessage)
    (st : State World) :
  Forall succeeds (constructor_calls read_fields systemPrompt msgs) →
  ∃ state st',
    POST_newState read_fields systemPrompt msgs st = (Normal state, st')
    ∧ toolCalls state = [] ∧ toolResults state = []
    ∧ st_heap st `prefix_of` st_heap st'
    ∧ messages state
      = seq (length (st_heap st))
            (length (st_heap st') - length (st_heap st))
    ∧ (∃ c,
         head (deref (st_heap st') (messages state))
         = Some (SystemMessage c)
         ∧ (∀ prompt, systemPrompt = Some prompt → c = JStr prompt)
         ∧ filter (fun m => is_SystemMessage m)
                  (deref (st_heap st') (messages state))
           = [SystemMessage c])
    ∧ (existsb is_HumanMessage (deref (st_heap st') (messages state)) = true
       ↔ Exists (fun msg => msg_role msg = "user") msgs
         ∨ ∃ lastMessage, last msgs = Some lastMessage
                          ∧ msg_role lastMessage ≠ "system").
Proof. apply POST_newState_spec. Qed.

(** A request with one user message: two constructor calls on strings. *)
Lemma POST_newState_history_witness :
  ∃ state st',
    POST_newState demo_reader (Some "You are viscum") demo_request
      (demo_state [])
    = (Normal state, st')
    ∧ toolCalls state = [] ∧ toolResults state = []
    ∧ st_heap (demo_state []) `prefix_of` st_heap st'
    ∧ messages state
      = seq (length (st_heap (demo_state [])))
            (length (st_heap st') - length (st_heap (demo_state [])))
    ∧ (∃ c,
         head (deref (st_heap st') (messages state))
         = Some (SystemMessage c)
         ∧ (∀ prompt, Some "You are viscum" = Some prompt → c = JStr prompt)
         ∧ filter (fun m => is_SystemMessage m)
                  (deref (st_heap st') (messages state))
           = [SystemMessage c])
    ∧ (existsb is_HumanMessage (deref (st_heap st') (messages state)) = true
       ↔ Exists (fun msg => msg_role msg = "user") demo_request
         ∨ ∃ lastMessage, last demo_request = Some lastMessage
                          ∧ msg_role lastMessage ≠ "system").
Proof.
  apply (POST_newState_history demo_reader (Some "You are viscum")
           demo_request (demo_state [])).
  repeat constructor; by eexists.
Defined.

(** X27.  For a history whose references all resolve, the list
    [getMessageList] returns carries the system messages of the history when
    there are any, and otherwise the configured prompt, once, when it is
    not empty. *)
Theorem getMessageList_system_messages {World : Type} (P : Platform)
    (lg : LoggerVersion) (systemPrompt : option string) (msgs : list loc)
    (state : AgentState) (st st' : State World) (out : list loc) :
  Forall (fun l => (l < length (st_heap st))%nat) msgs →
  getMessageList P lg systemPrompt msgs state st = (Normal out, st') →
  filter (fun m => is_SystemMessage m) (deref (st_heap st') out)
  = if existsb is_SystemMessage (deref (st_heap st) msgs)
    then filter (fun m => is_SystemMessage m) (deref (st_heap st) msgs)
    else match systemPrompt with
         | Some prompt =>
             if truthy_str prompt then [SystemMessage (JStr prompt)] else []
         | None => []
         end.
Proof. apply getMessageList_system_filter. Qed.

(** The first step of the demo turn: the configured prompt is added. *)
Lemma getMessageList_system_messages_witness :
  filter (fun m => is_SystemMessage m)
    (deref (st_heap (snd demo_message_list)) [1; 0]%nat)
  = if existsb is_SystemMessage
         (deref (st_heap (demo_state demo_turn_heap)) [0%nat])
    then filter (fun m => is_SystemMessage m)
           (deref (st_heap (demo_state demo_turn_heap)) [0%nat])
    else match Some "You are viscum" with
         | Some prompt =>
             if truthy_str prompt then [SystemMessage (JStr prompt)] else []
         | None => []
         end.
Proof.
  apply (getMessageList_system_messages demo_platform ThrowOnError
           (Some "You are viscum") [0%nat] demo_turn_state
           (demo_state demo_turn_heap) (snd demo_message_list) [1; 0]%nat).
  - apply Forall_singleton. simpl. lia.
  - reflexivity.
Defined.

(** X28.  For a request that comes through [POST], the list the first
    step sends to the model carries exactly one system message, the one of
    the handler: the prompt configured for the node is not added. *)
Theorem POST_history_keeps_one_system_message {World : Type} (P : Platform)
    (lg : LoggerVersion) (read_fields : FieldsReader)
    (handlerPrompt : string) (nodePrompt : option string)
    (msgs : list ClientMessage) (state : AgentState)
    (st st0 st' : State World) (out : list loc) :
  POST_newState read_fields (Some handlerPrompt) msgs st
  = (Normal state, st0) →
  getMessageList P lg nodePrompt (messages state) state st0
  = (Normal out, st') →
  filter (fun m => is_SystemMessage m) (deref (st_heap st') out)
  = [SystemMessage (JStr handlerPrompt)].
Proof.
  intros Hpost Hlist.
  destruct (POST_newState_spec read_fields (Some handlerPrompt) msgs st)
    as (state' & st0' & Hpost' & _ & _ & Hpre & Hmsgs
        & (c & _ & Hc & Hsys) & _).
  { by eapply POST_newState_Normal. }
  rewrite Hpost in Hpost'. injection Hpost' as <- <-.
  rewrite (Hc handlerPrompt eq_refl) in Hsys.
  assert (existsb is_SystemMessage (deref (st_heap st0) (messages state))
          = true) as Hhas.
  { apply existsb_exists. exists (SystemMessage (JStr handlerPrompt)).
    split; [|done]. apply list_elem_of_In.
    assert (SystemMessage (JStr handlerPrompt)
            ∈ filter (fun m => is_SystemMessage m)
                (deref (st_heap st0) (messages state))) as Hin
      by (rewrite Hsys; by left).
    by apply list_elem_of_filter in Hin as [_ ?]. }
  rewrite (getMessageList_system_filter P lg nodePrompt (messages state)
             state st0 st' out); [by rewrite Hhas| |done].
  rewrite Hmsgs. apply Forall_seq. intros l Hl.
  apply prefix_length in Hpre. lia.
Qed.

(** A request with one user message, for a node with a prompt of its
    own. *)
Lemma POST_history_keeps_one_system_message_witness :
  filter (fun m => is_SystemMessage m)
    (deref (st_heap (snd demo_post_list)) [0; 1]%nat)
  = [SystemMessage (JStr "You are viscum")].
Proof.
  apply (POST_history_keeps_one_system_message demo_platform ThrowOnError
           demo_reader "You are viscum" (Some "Another prompt") demo_request
           demo_post_state (demo_state []) (snd demo_post)
           (snd demo_post_list) [0; 1]%nat).
  - reflexivity.
  - reflexivity.
Defined.

(** X30.  [POST] throws what the first failing constructor call throws: the
    calls behind it are not made, no state is built, and the messages made
    before it stay behind as objects that nothing refers to.  So a request
    with an entry of role [user] or [assistant] whose content the
    constructor rejects, or a prompt that could not be read, never reaches
    the workflow. *)
Theorem POST_newState_stops_at_first_failure {World : Type}
    (read_fields : FieldsReader) (systemPrompt : option string)
    (msgs : list ClientMessage) (st : State World)
    (made : list BaseMessage) (e : Thrown)
    (rest : list (Thrown + BaseMessage)) :
  constructor_calls read_fields systemPrompt msgs
  = (inr <$> made) ++ inl e :: rest →
  POST_newState read_fields systemPrompt msgs st
  = (Abrupt e,
     {| st_heap := st_heap st ++ made;
        st_logs := st_logs st; st_world := st_world st |}).
Proof.
  intros Hcalls. by rewrite POST_newState_run, Hcalls, until_failure_first.
Qed.

(** A request whose second entry has no content. *)
Lemma POST_newState_stops_at_first_failure_witness :
  POST_newState demo_reader (Some "You are viscum") broken_request
    (demo_state [])
  = (Abrupt (ErrorObject "TypeError"),
     {| st_heap := [] ++ [SystemMessage (JStr "You are viscum");
                          AIMessage (JStr "Sunny.") (Some [])];
        st_logs := []; st_world := tt |}).
Proof.
  apply (POST_newState_stops_at_first_failure demo_reader
           (Some "You are viscum") broken_request (demo_state [])
           [SystemMessage (JStr "You are viscum");
            AIMessage (JStr "Sunny.") (Some [])]
           (ErrorObject "TypeError")
           [inr (HumanMessage (JStr "And tomorrow?"))]).
  reflexivity.
Defined.

(** ** The two extractors *)

Lemma extract_loops_agree (P : Platform) (reversed : list BaseMessage)
    (lastAIMessage : option BaseMessage) (text : string) :
  cli_extract_loop reversed = Some text →
  text ≠ EmptyString →
  extract_loop P reversed lastAIMessage = Some text.
Proof.
  intros Hcli Htext. revert lastAIMessage.
  induction reversed as [|msg rest IH]; intros lastAIMessage; [done|].
  simpl in *. destruct msg as [c|c|c calls|c id]; try by apply IH.
  destruct (negb (has_tool_calls (AIMessage c calls))); [|by apply IH].
  simpl. injection Hcli as Hc.
  destruct c as [| | | |s| |]; try done. subst s. simpl.
  by rewrite (proj2 (truthy_str_spec text) Htext).
Qed.

(** X29.  Whenever the extractor of the chat manager finds a non-empty
    text in a state, the extractor of the request handler finds the same
    text there. *)
Theorem extractors_agree_on_text (P : Platform) (h : heap)
    (state : AgentState) (text : string) :
  cli_extractAIResponse h state = Some text →
  text ≠ EmptyString →
  extractAIResponse P h state = Some text.
Proof. intros Hcli Htext. by apply extract_loops_agree. Qed.

(** The final state of the demo turn. *)
Lemma extractors_agree_on_text_witness :
  extractAIResponse demo_platform demo_final_heap demo_final_state
  = Some "It is sunny.".
Proof.
  apply (extractors_agree_on_text demo_platform demo_final_heap
           demo_final_state "It is sunny.").
  - reflexivity.
  - discriminate.
Defined.
